(** * Pipeweld: the step-placement engine of usethis (src/usethis/_pipeweld/func.py)

    Shallow embedding of [func.py] over an explicit object store.

    - A step is a Python [str], modelled as a Rocq [string]; Python compares
      strings by code point, [String.compare] compares them byte by byte,
      which agrees on the ASCII step names the engine handles.
    - A [Series] is a mutable pydantic model whose [root] is a Python list:
      it lives in the store [heap] at a location and is referenced by
      [CSer l].  The engine mutates these lists in place
      ([append], [insert], item assignment), and the same [Series] object
      can be reachable from the caller's pipeline and from the solution.
    - A [Parallel] wraps a [frozenset] and is never mutated: it is the value
      [CPar ms], [ms] being the members in iteration order.
    - Python exceptions are the [exn] results of the state and error monad
      [M]; recursion takes a [fuel] argument, and running out of it is
      Python's [RecursionError].
*)

From Stdlib Require Import String ZArith Lia Permutation Sorted.
From stdpp Require Import base list strings.

Set Warnings "-register-all".

Open Scope list_scope.

(** ** Data model *)

Definition loc := nat.

(** [str | Series | Parallel], the component type of [func.py]. *)
Inductive comp : Type :=
| CStr (s : string)
| CSer (l : loc)
| CPar (ms : list comp).

(** The store: the [root] list of every [Series] object, by location. *)
Definition heap := list (list comp).

(** [InsertParallel] and [InsertSuccessor] of [usethis._pipeweld.ops]. *)
Inductive instr : Type :=
| InsertParallel (after : option string) (step : string)
| InsertSuccessor (after : option string) (step : string).

Definition instr_step (i : instr) : string :=
  match i with InsertParallel _ s | InsertSuccessor _ s => s end.

Definition instr_eqb (i j : instr) : bool :=
  match i, j with
  | InsertParallel a s, InsertParallel b t
  | InsertSuccessor a s, InsertSuccessor b t =>
      match a, b with
      | None, None => true
      | Some x, Some y => String.eqb x y
      | _, _ => false
      end && String.eqb s t
  | _, _ => false
  end.

(** The exceptions the engine can raise.  [InvalidReference] is not a Python
    exception: it stands for a dangling location, which stores built by the
    program never contain. *)
Inductive exn : Type :=
| ValueError
| IndexError
| AssertionError
| RecursionError
| InvalidReference.

Inductive result (A : Type) : Type :=
| Ok (a : A)
| Err (e : exn).
Arguments Ok {A} a.
Arguments Err {A} e.

(** ** State and error monad over the store *)

Definition M (A : Type) : Type := heap -> result (A * heap).

Definition ret {A} (a : A) : M A := fun h => Ok (a, h).

Definition bind {A B} (m : M A) (k : A -> M B) : M B :=
  fun h => match m h with
           | Ok (a, h') => k a h'
           | Err e => Err e
           end.

Notation "'let*' x ':=' m 'in' k" := (bind m (fun x => k))
  (at level 200, x name, m at level 100, k at level 200).
Notation "'let*' ' p ':=' m 'in' k" := (bind m (fun x => match x with p => k end))
  (at level 200, p pattern, m at level 100, k at level 200).

Definition raise {A} (e : exn) : M A := fun _ => Err e.

(** A computation that only reads the store. *)
Definition lift {A} (r : heap -> result A) : M A :=
  fun h => match r h with Ok a => Ok (a, h) | Err e => Err e end.

Definition read (l : loc) : M (list comp) :=
  fun h => match h !! l with
           | Some items => Ok (items, h)
           | None => Err InvalidReference
           end.

Definition write (l : loc) (items : list comp) : M unit :=
  fun h => match h !! l with
           | Some _ => Ok (tt, <[l := items]> h)
           | None => Err InvalidReference
           end.

(** [Series(list(items))]: a new object at the next free location. *)
Definition alloc (items : list comp) : M loc :=
  fun h => Ok (length h, h ++ [items]).

Fixpoint mapM {A B} (f : A -> M B) (xs : list A) : M (list B) :=
  match xs with
  | [] => ret []
  | x :: r => let* y := f x in let* ys := mapM f r in ret (y :: ys)
  end.

(** ** Python list operations *)

(** Index normalisation of [xs[i]]: a negative index counts from the end. *)
Definition py_norm (n : nat) (i : Z) : Z :=
  if (i <? 0)%Z then (i + Z.of_nat n)%Z else i.

Definition py_getitem {A} (xs : list A) (i : Z) : result A :=
  let j := py_norm (length xs) i in
  if (j <? 0)%Z then Err IndexError
  else match xs !! Z.to_nat j with
       | Some x => Ok x
       | None => Err IndexError
       end.

Definition py_setitem {A} (xs : list A) (i : Z) (x : A) : result (list A) :=
  let j := py_norm (length xs) i in
  if (j <? 0)%Z then Err IndexError
  else if (Z.to_nat j <? length xs)%nat then Ok (<[Z.to_nat j := x]> xs)
  else Err IndexError.

(** [xs.insert(i, x)]: the index is clamped to [0, len(xs)]. *)
Definition py_insert {A} (xs : list A) (i : Z) (x : A) : list A :=
  let j := Z.to_nat (Z.max 0 (Z.min (py_norm (length xs) i) (Z.of_nat (length xs)))) in
  take j xs ++ x :: drop j xs.

(** [min(xs)] on strings: the first least element; empty raises. *)
Fixpoint py_min_from (cur : string) (xs : list string) : string :=
  match xs with
  | [] => cur
  | x :: r => py_min_from (if String.ltb x cur then x else cur) r
  end.

Definition py_min (xs : list string) : result string :=
  match xs with
  | [] => Err ValueError
  | x :: r => Ok (py_min_from x r)
  end.

(** [sorted(xs)]: a stable sort by [<]. *)
Fixpoint sort_insert (x : string) (ys : list string) : list string :=
  match ys with
  | [] => [x]
  | y :: r => if String.ltb x y then x :: y :: r else y :: sort_insert x r
  end.

Definition py_sorted (xs : list string) : list string :=
  fold_left (fun acc x => sort_insert x acc) xs [].

Definition mem (s : string) (xs : list string) : bool :=
  existsb (String.eqb s) xs.

(** ** Structural values and Python [==] *)

(** The value of a component once every [Series] reference is followed. *)
Inductive tree : Type :=
| TStr (s : string)
| TSer (ts : list tree)
| TPar (ts : list tree).

(** [Some] of every image, or [None]. *)
Fixpoint mapo {A B} (g : A -> option B) (xs : list A) : option (list B) :=
  match xs with
  | [] => Some []
  | x :: r =>
      match g x, mapo g r with
      | Some y, Some ys => Some (y :: ys)
      | _, _ => None
      end
  end.

Fixpoint deref (fuel : nat) (h : heap) (c : comp) : option tree :=
  match c with
  | CStr s => Some (TStr s)
  | CSer l =>
      match fuel with
      | 0 => None
      | S f =>
          match h !! l with
          | None => None
          | Some items => TSer <$> mapo (deref f h) items
          end
      end
  | CPar ms =>
      match fuel with
      | 0 => None
      | S f => TPar <$> mapo (deref f h) ms
      end
  end.

(** Python equality of components: a [Series] compares its lists item by
    item, a [Parallel] compares its frozensets ([len(a) == len(b)] and every
    member of [a] is in [b]). *)
Fixpoint tree_eqb (t u : tree) : bool :=
  match t, u with
  | TStr a, TStr b => String.eqb a b
  | TSer ts, TSer us =>
      (fix go (xs ys : list tree) : bool :=
         match xs, ys with
         | [], [] => true
         | x :: xr, y :: yr => tree_eqb x y && go xr yr
         | _, _ => false
         end) ts us
  | TPar ts, TPar us =>
      Nat.eqb (length ts) (length us) &&
      (fix all (xs : list tree) : bool :=
         match xs with
         | [] => true
         | x :: xr => existsb (tree_eqb x) us && all xr
         end) ts
  | _, _ => false
  end.

Definition py_eq (fuel : nat) (h : heap) (a b : comp) : result bool :=
  match deref fuel h a, deref fuel h b with
  | Some t, Some u => Ok (tree_eqb t u)
  | _, _ => Err RecursionError
  end.

(** ** Constructors of [usethis._pipeweld.containers] *)

(** An input [series] drops: a [Parallel] or a [Series] with no items. *)
Definition is_empty_input (h : heap) (c : comp) : bool :=
  match c with
  | CStr _ => false
  | CPar ms => match ms with [] => true | _ => false end
  | CSer l => match h !! l with Some [] => true | _ => false end
  end.

(** Modelled from the spec: [series( *items)] of
    [usethis._pipeweld.containers], missing from the sources.  Section 4.1:
    "[series( *items)] constructs a [Series], dropping [None]/empty inputs";
    the [None] inputs cannot occur in this typed model.  The new object is
    allocated in the store; the items are kept by reference. *)
Definition series (items : list comp) : M loc :=
  fun h => alloc (List.filter (fun c => negb (is_empty_input h c)) items) h.

(** [x in kept] for a frozenset under construction: some member equals [x]. *)
Fixpoint py_in (fuel : nat) (h : heap) (x : comp) (kept : list comp) : result bool :=
  match kept with
  | [] => Ok false
  | y :: r =>
      match py_eq fuel h x y with
      | Ok true => Ok true
      | Ok false => py_in fuel h x r
      | Err e => Err e
      end
  end.

Fixpoint dedup_into (fuel : nat) (h : heap) (kept : list comp) (xs : list comp)
  : result (list comp) :=
  match xs with
  | [] => Ok kept
  | x :: r =>
      match py_in fuel h x kept with
      | Ok true => dedup_into fuel h kept r
      | Ok false => dedup_into fuel h (kept ++ [x]) r
      | Err e => Err e
      end
  end.

(** Modelled from the spec: [parallel( *items)] of
    [usethis._pipeweld.containers], missing from the sources.  Section 4.1:
    "[parallel( *items)] constructs a [Parallel] as a deduplicated, unordered
    collection" ([Parallel(frozenset(items))]); members equal under [==] are
    kept once, and the model iterates the set in first-insertion order. *)
Definition parallel (fuel : nat) (items : list comp) : M comp :=
  lift (fun h => match dedup_into fuel h [] items with
                 | Ok ms => Ok (CPar ms)
                 | Err e => Err e
                 end).

(** ** [_concat] and [_union] *)

Definition concat_items (c : option comp) : M (list comp) :=
  match c with
  | Some (CSer l) => read l
  | Some x => ret [x]
  | None => ret []
  end.

Definition _concat (components : list (option comp)) : M (option loc) :=
  let* parts := mapM concat_items components in
  match List.concat parts with
  | [] => ret None
  | s => let* l := series s in ret (Some l)
  end.

Definition union_items (c : option comp) : list comp :=
  match c with
  | Some (CPar ms) => ms
  | Some x => [x]
  | None => []
  end.

Definition _union (fuel : nat) (components : list (option comp)) : M (option comp) :=
  match List.concat (map union_items components) with
  | [] => ret None
  | p => let* u := parallel fuel p in ret (Some u)
  end.

(** ** [get_endpoint] *)

(** [for subcomponent in xs: try: return get_endpoint(subcomponent)
    except ValueError: pass]. *)
Fixpoint first_endpoint (g : comp -> result string) (xs : list comp) : result string :=
  match xs with
  | [] => Err ValueError
  | x :: r =>
      match g x with
      | Ok e => Ok e
      | Err ValueError => first_endpoint g r
      | Err e => Err e
      end
  end.

(** [for subcomponent in xs: with contextlib.suppress(ValueError):
    endpoints.append(get_endpoint(subcomponent))]. *)
Fixpoint collect_endpoints (g : comp -> result string) (xs : list comp)
  : result (list string) :=
  match xs with
  | [] => Ok []
  | x :: r =>
      match g x with
      | Ok e => match collect_endpoints g r with
                | Ok es => Ok (e :: es)
                | Err e' => Err e'
                end
      | Err ValueError => collect_endpoints g r
      | Err e => Err e
      end
  end.

Fixpoint get_endpoint (fuel : nat) (h : heap) (c : comp) : result string :=
  match c with
  | CStr s => Ok s
  | CSer l =>
      match fuel with
      | 0 => Err RecursionError
      | S f =>
          match h !! l with
          | None => Err InvalidReference
          | Some items =>
              (* for subcomponent in reversed(component.root) *)
              first_endpoint (get_endpoint f h) (rev items)
          end
      end
  | CPar ms =>
      match fuel with
      | 0 => Err RecursionError
      | S f =>
          match collect_endpoints (get_endpoint f h) ms with
          | Err e => Err e
          | Ok [] => Err ValueError
          | Ok endpoints =>
              (* Any endpoint will do so choose the first one alphabetically *)
              match py_sorted endpoints with
              | e :: _ => Ok e
              | [] => Err IndexError
              end
          end
      end
  end.

(** ** [_has_any_steps] *)

Fixpoint _has_any_steps (fuel : nat) (h : heap) (c : comp) (steps : list string)
  : result bool :=
  let scan f :=
    fix scan (xs : list comp) : result bool :=
      match xs with
      | [] => Ok false
      | x :: r =>
          match _has_any_steps f h x steps with
          | Ok true => Ok true
          | Ok false => scan r
          | Err e => Err e
          end
      end in
  match c with
  | CStr s => Ok (mem s steps)
  | CPar ms =>
      match fuel with
      | 0 => Err RecursionError
      | S f => scan f ms
      end
  | CSer l =>
      match fuel with
      | 0 => Err RecursionError
      | S f => match h !! l with
               | None => Err InvalidReference
               | Some items => scan f items
               end
      end
  end.

(** ** [_get_instructions_insert_successor] *)

Fixpoint _get_instructions_insert_successor (fuel : nat) (h : heap) (c : comp)
  (after : option string) : result (list instr * option string) :=
  match c with
  | CStr s => Ok ([InsertSuccessor after s], Some s)
  | CSer l =>
      match fuel with
      | 0 => Err RecursionError
      | S f =>
          match h !! l with
          | None => Err InvalidReference
          | Some items =>
              (fix go (xs : list comp) (acc : list instr) (after : option string)
                 : result (list instr * option string) :=
                 match xs with
                 | [] => Ok (acc, after)
                 | x :: r =>
                     match _get_instructions_insert_successor f h x after with
                     | Ok (new, endpoint) => go r (acc ++ new) endpoint
                     | Err e => Err e
                     end
                 end) items [] after
          end
      end
  | CPar _ => Ok ([], after)  (* "TODO implement this" *)
  end.

(** ** [Partition] and [_flatten_partition] *)

Record Partition : Type := mkPartition {
  prerequisite_component : option comp;
  nondependent_component : option comp;
  postrequisite_component : option comp;
  top_ranked_endpoint : string
}.

Definition _flatten_partition (p : Partition) : M loc :=
  let* c := _concat [prerequisite_component p; nondependent_component p;
               postrequisite_component p] in
  match c with
  | None => raise ValueError
  | Some l => ret l
  end.

(** ** [_op_series_merge_partitions] *)

(** [x is not None]. *)
Definition is_not_none {A} (x : option A) : bool :=
  match x with Some _ => true | None => false end.

Definition _op_series_merge_partitions (partition next_partition : Partition)
  : M Partition :=
  match prerequisite_component next_partition with
  | Some _ =>
      let* c := _concat [prerequisite_component partition;
                   nondependent_component partition;
                   postrequisite_component partition;
                   prerequisite_component next_partition] in
      ret (mkPartition (CSer <$> c)
             (nondependent_component next_partition)
             (postrequisite_component next_partition)
             (top_ranked_endpoint next_partition))
  | None =>
      if is_not_none (nondependent_component next_partition)
         && is_not_none (postrequisite_component partition) then
        let* a := _concat [prerequisite_component partition;
                     prerequisite_component next_partition] in
        let* b := _concat [postrequisite_component partition;
                     nondependent_component next_partition;
                     postrequisite_component next_partition] in
        ret (mkPartition (CSer <$> a)
               (nondependent_component partition)
               (CSer <$> b)
               (top_ranked_endpoint next_partition))
      else
        (* Element-wise concatenation *)
        let zone (x y : option comp) : M (option comp) :=
          match x, y with
          | None, _ => ret y
          | _, None => ret x
          | Some _, Some _ => let* c := _concat [x; y] in ret (CSer <$> c)
          end in
        let* pre := zone (prerequisite_component partition)
                   (prerequisite_component next_partition) in
        let* non := zone (nondependent_component partition)
                   (nondependent_component next_partition) in
        let* post := zone (postrequisite_component partition)
                    (postrequisite_component next_partition) in
        ret (mkPartition pre non post (top_ranked_endpoint next_partition))
  end.

(** ** [_parallel_merge_partitions] *)

(** [_union(...)] of one zone, collapsing a singleton [Parallel]. *)
Definition merge_zone (fuel : nat) (components : list comp) : M (option comp) :=
  match components with
  | [] => ret None
  | _ =>
      let* u := _union fuel (map Some components) in
      match u with
      | Some (CPar [x]) => ret (Some x)  (* Collapse singleton *)
      | _ => ret u
      end
  end.

(** Python's [a or b or c] on lists. *)
Definition list_or {A} (a b c : list A) : list A :=
  match a with
  | [] => match b with [] => c | _ => b end
  | _ => a
  end.

Definition instructions_of (fuel : nat) (c : comp) (after : option string)
  : M (list instr) :=
  lift (fun h => match _get_instructions_insert_successor fuel h c after with
                 | Ok (new, _) => Ok new
                 | Err e => Err e
                 end).

Definition _parallel_merge_partitions (fuel : nat) (partitions : list Partition)
  (predecessor : option string) : M (Partition * list instr) :=
  let pres := omap prerequisite_component partitions in
  let nons := omap nondependent_component partitions in
  let posts := omap postrequisite_component partitions in
  let tops (sel : Partition -> option comp) :=
    map top_ranked_endpoint (List.filter (fun p => is_not_none (sel p)) partitions) in
  let top_ranked_prerequisite_endpoints := tops prerequisite_component in
  let top_ranked_nondependent_endpoints := tops nondependent_component in
  let top_ranked_postrequisite_endpoints := tops postrequisite_component in
  let* prerequisite_component := merge_zone fuel pres in
  let* nondependent_component := merge_zone fuel nons in
  let* postrequisite_component := merge_zone fuel posts in
  let* top_ranked_endpoint :=
    lift (fun _ => py_min (list_or top_ranked_postrequisite_endpoints
                                   top_ranked_nondependent_endpoints
                                   top_ranked_prerequisite_endpoints)) in
  let* i1 := match prerequisite_component with
       | Some c => instructions_of fuel c predecessor
       | None => ret []
       end in
  let* i2 := match nondependent_component with
       | Some c =>
           let* after := match prerequisite_component with
                   | Some p => let* e := lift (fun h => get_endpoint fuel h p) in ret (Some e)
                   | None => ret predecessor
                   end in
           instructions_of fuel c after
       | None => ret []
       end in
  let* i3 := match postrequisite_component with
       | Some c =>
           let* after := match nondependent_component, prerequisite_component with
                   | Some n, _ => let* e := lift (fun h => get_endpoint fuel h n) in ret (Some e)
                   | None, Some p => let* e := lift (fun h => get_endpoint fuel h p) in ret (Some e)
                   | None, None => ret predecessor
                   end in
           instructions_of fuel c after
       | None => ret []
       end in
  ret (mkPartition prerequisite_component nondependent_component
         postrequisite_component top_ranked_endpoint, i1 ++ i2 ++ i3).

(** ** [partition_component] and [_get_series_partitions] *)

Fixpoint _get_series_partitions
  (partition_component : comp -> option string -> M (Partition * list instr))
  (items : list comp) (predecessor : option string)
  : M (list Partition * list instr) :=
  match items with
  | [] => ret ([], [])
  | subcomponent :: r =>
      let* pi := partition_component subcomponent predecessor in
      let (partition, these_instructions) := pi in
      (* predecessor = partition.top_ranked_endpoint, for the next iteration *)
      let* rest := _get_series_partitions partition_component r
               (Some (top_ranked_endpoint partition)) in
      let (partitions, instructions) := rest in
      ret (partition :: partitions, these_instructions ++ instructions)
  end.

(** [functools.reduce] over a non-empty list. *)
Fixpoint reduceM {A} (f : A -> A -> M A) (acc : A) (xs : list A) : M A :=
  match xs with
  | [] => ret acc
  | x :: r => let* acc' := f acc x in reduceM f acc' r
  end.

Definition wrap_series (c : option comp) : M (option comp) :=
  match c with
  | Some x => let* l := series [x] in ret (Some (CSer l))
  | None => ret None
  end.

Fixpoint partition_component (fuel : nat) (component : comp)
  (predecessor : option string) (prerequisites postrequisites : list string)
  : M (Partition * list instr) :=
  match component with
  | CStr s =>
      if mem s prerequisites then ret (mkPartition (Some (CStr s)) None None s, [])
      else if mem s postrequisites then ret (mkPartition None None (Some (CStr s)) s, [])
      else ret (mkPartition None (Some (CStr s)) None s, [])
  | CPar ms =>
      match fuel with
      | 0 => raise RecursionError
      | S f =>
          let* tuples := mapM (fun m => partition_component f m predecessor
                                    prerequisites postrequisites) ms in
          let partitions := map fst tuples in
          let instructions := List.concat (map snd tuples) in
          let any_prerequisites :=
            existsb (fun p => is_not_none (prerequisite_component p)) partitions in
          let any_postrequisites :=
            existsb (fun p => is_not_none (postrequisite_component p)) partitions in
          if any_prerequisites && any_postrequisites then
            _parallel_merge_partitions f partitions predecessor
          else
            let* top := lift (fun _ => py_min (map top_ranked_endpoint partitions)) in
            if any_prerequisites then
              ret (mkPartition (Some component) None None top, instructions)
            else if any_postrequisites then
              ret (mkPartition None None (Some component) top, instructions)
            else
              ret (mkPartition None (Some component) None top, instructions)
      end
  | CSer l =>
      match fuel with
      | 0 => raise RecursionError
      | S f =>
          let* items := read l in
          let* pi := _get_series_partitions
                 (fun x pred => partition_component f x pred
                                  prerequisites postrequisites) items predecessor in
          let (partitions, instructions) := pi in
          match partitions with
          | [] => raise IndexError  (* partitions[0] *)
          | [partition] =>
              let* pre := wrap_series (prerequisite_component partition) in
              let* non := wrap_series (nondependent_component partition) in
              let* post := wrap_series (postrequisite_component partition) in
              ret (mkPartition pre non post (top_ranked_endpoint partition),
                   instructions)
          | p0 :: rest =>
              let* merged := reduceM _op_series_merge_partitions p0 rest in
              ret (merged, instructions)
          end
      end
  end.

(** ** [_insert_before_postrequisites] *)

(** [component[i] = x] on a [Series]: item assignment of its [root]. *)
Definition setitem (component : loc) (i : Z) (x : comp) : M unit :=
  let* root := read component in
  let* root' := lift (fun _ => py_setitem root i x) in
  write component root'.

Fixpoint _insert_before_postrequisites (fuel : nat) (component : loc) (idx : Z)
  (predecessor : option string) (step : string) (postrequisites : list string)
  : M (list instr) :=
  match fuel with
  | 0 => raise RecursionError
  | S f =>
      let* root := read component in
      let* successor_component := lift (fun _ => py_getitem root (idx + 1)) in
      match successor_component with
      | CPar [member] =>
          (* isinstance(successor_component, Parallel) and len(...) == 1 *)
          let* container := alloc [member] in
          let* instructions :=
            _insert_before_postrequisites f container (-1) predecessor step
              postrequisites in
          let* croot := read container in
          let* _ :=
            if Nat.eqb (length croot) 1 then
              let* c0 := lift (fun _ => py_getitem croot 0) in
              let* u := _union f [Some successor_component; Some (CStr step)] in
              let* same := match u with
                           | Some u => lift (fun h => py_eq f h c0 u)
                           | None => ret false
                           end in
              if same then
                let* u' := _union f [Some successor_component; Some (CStr step)] in
                match u' with
                | Some u' => setitem component (idx + 1) u'
                | None => ret tt
                end
              else ret tt
            else ret tt in
          ret instructions
      | CPar _ | CStr _ =>
          let* has := lift (fun h => _has_any_steps f h successor_component
                                       postrequisites) in
          if has then
            (* Insert before this step *)
            let* root := read component in
            let* _ := write component (py_insert root (idx + 1) (CStr step)) in
            ret [InsertSuccessor predecessor step]
          else
            let* union := _union f [Some successor_component; Some (CStr step)] in
            match union with
            | None => raise AssertionError
            | Some u =>
                let* _ := setitem component (idx + 1) u in
                ret [InsertParallel predecessor step]
            end
      | CSer l =>
          _insert_before_postrequisites f l (-1) predecessor step postrequisites
      end
  end.

(** ** [_insert_step] *)

Definition enumerate {A} (xs : list A) : list (nat * A) :=
  zip (seq 0 (length xs)) xs.

Fixpoint _insert_step (fuel : nat) (component : loc) (step : string)
  (prerequisites postrequisites : list string) : M (list instr) :=
  match fuel with
  | 0 => raise RecursionError
  | S f =>
      let* root := read component in
      (* for idx, subcomponent in reversed(list(enumerate(component.root))) *)
      (fix scan (xs : list (nat * comp)) : M (list instr) :=
         match xs with
         | [] => ret []
         | (idx, subcomponent) :: r =>
             match subcomponent with
             | CStr s =>
                 if mem s prerequisites then
                   let* cur := read component in
                   if Nat.ltb (idx + 1) (length cur) then
                     (* i.e. there is a successor *)
                     _insert_before_postrequisites f component (Z.of_nat idx)
                       (Some s) step postrequisites
                   else
                     (* i.e. there is no successor; append *)
                     let* _ := write component (cur ++ [CStr step]) in
                     ret [InsertSuccessor (Some s) step]
                 else scan r
             | CSer l =>
                 let* added := _insert_step f l step prerequisites postrequisites in
                 match added with [] => scan r | _ => ret added end
             | CPar ms =>
                 let* c := alloc ms in
                 let* added := _insert_step f c step prerequisites postrequisites in
                 match added with [] => scan r | _ => ret added end
             end
         end) (rev (enumerate root))
  end.

(** ** [add] *)

Record WeldResult : Type := mkWeldResult {
  instructions : list instr;
  solution : comp
}.

Definition add (fuel : nat) (pipeline : loc) (step : string)
  (prerequisites postrequisites : list string) : M WeldResult :=
  let* root := read pipeline in
  match root with
  | [] =>
      (* Empty pipeline *)
      let* l := series [CStr step] in
      ret (mkWeldResult [InsertParallel None step] (CSer l))
  | _ =>
      let* '(partition, instructions) :=
        partition_component fuel (CSer pipeline) None prerequisites postrequisites in
      let* rearranged_pipeline := _flatten_partition partition in
      let* new_instructions :=
        _insert_step fuel rearranged_pipeline step prerequisites postrequisites in
      let* new_instructions :=
        match new_instructions with
        | [] =>
            (* Didn't find a pre-requisite so just add the step in parallel
               to everything *)
            _insert_before_postrequisites fuel rearranged_pipeline (-1) None step
              postrequisites
        | _ => ret new_instructions
        end in
      ret (mkWeldResult (instructions ++ new_instructions) (CSer rearranged_pipeline))
  end.

(** ** Building a caller's pipeline *)

(** The caller writes its pipeline with [series(...)] and [parallel(...)],
    as the tests of [func.py] do. *)
Fixpoint build (fuel : nat) (t : tree) : M comp :=
  match t with
  | TStr s => ret (CStr s)
  | TSer ts =>
      let* items := mapM (build fuel) ts in
      let* l := series items in
      ret (CSer l)
  | TPar ts =>
      let* items := mapM (build fuel) ts in
      parallel fuel items
  end.

Definition default_fuel : nat := 64.

(** Build [pipeline] in an empty store, call [add], and read back the
    solution, the instructions and the caller's pipeline after the call. *)
Definition run_add (pipeline : tree) (step : string)
  (prerequisites postrequisites : list string)
  : result (option tree * list instr * option tree * option tree) :=
  match build default_fuel pipeline [] with
  | Err e => Err e
  | Ok (CSer p, h0) =>
      match add default_fuel p step prerequisites postrequisites h0 with
      | Err e => Err e
      | Ok (r, h1) =>
          Ok (deref default_fuel h1 (solution r), instructions r,
              deref default_fuel h0 (CSer p), deref default_fuel h1 (CSer p))
      end
  | Ok _ => Err AssertionError
  end.

(** ** Values used by the statements *)

(** The steps of a structure, left to right. *)
Fixpoint tree_steps (t : tree) : list string :=
  match t with
  | TStr s => [s]
  | TSer ts | TPar ts => List.concat (map tree_steps ts)
  end.

(** ** Notions used by the proofs *)

(** The order [sorted] uses on strings. *)
Definition str_le (x y : string) : Prop := String.leb x y = true.

(** [g] resolves [x], whose value is [t], as [get_endpoint] does. *)
Definition resolves (g : comp -> result string) (x : comp) (t : tree) : Prop :=
  (g x = Err ValueError /\ forall e, ~ In e (tree_steps t)) \/
  (exists e, g x = Ok e /\ In e (tree_steps t)).

(** The items [_concat] takes from one zone. *)
Definition zone_items (h : heap) (c : option comp) : option (list comp) :=
  match c with
  | Some (CSer l) => h !! l
  | Some x => Some [x]
  | None => Some []
  end.

(** [reaches h c c']: [c'] is [c], or a member of a [Parallel] or an item
    of a [Series] (followed in the store [h]) reached from [c]. *)
Inductive reaches (h : heap) : comp -> comp -> Prop :=
| reaches_refl (c : comp) : reaches h c c
| reaches_ser (l : loc) (items : list comp) (c c' : comp) :
    h !! l = Some items -> In c items -> reaches h c c' -> reaches h (CSer l) c'
| reaches_par (ms : list comp) (c c' : comp) :
    In c ms -> reaches h c c' -> reaches h (CPar ms) c'.

(** No step reached from [c] is [s], and every [Series] reached from [c] is
    in the store. *)
Definition fresh_in (s : string) (h : heap) (c : comp) : Prop :=
  (forall x, reaches h c (CStr x) -> x <> s) /\
  (forall l, reaches h c (CSer l) -> is_Some (h !! l)).

Definition ofresh_in (s : string) (h : heap) (o : option comp) : Prop :=
  match o with Some c => fresh_in s h c | None => True end.

Definition partition_fresh_in (s : string) (h : heap) (p : Partition) : Prop :=
  ofresh_in s h (prerequisite_component p) /\
  ofresh_in s h (nondependent_component p) /\
  ofresh_in s h (postrequisite_component p).

(** No instruction of [ins] places [s]. *)
Definition no_step (s : string) (ins : list instr) : Prop :=
  Forall (fun i => instr_step i <> s) ins.

(** [h'] is [h] with new objects allocated after it. *)
Definition extends (h h' : heap) : Prop := exists ext, h' = h ++ ext.

(** The number of instructions that place [s]. *)
Definition count_step (s : string) (ins : list instr) : nat :=
  length (List.filter (fun i => String.eqb (instr_step i) s) ins).

(** The steps of a list of structures, left to right. *)
Definition flat_steps (ts : list tree) : list string :=
  List.concat (map tree_steps ts).

(** The pairs [(a, b)] of a [Series] of [ts] where [a] is in an earlier
    item than [b]. *)
Fixpoint seq_pairs (ts : list tree) : list (string * string) :=
  match ts with
  | [] => []
  | t :: r => list_prod (tree_steps t) (flat_steps r) ++ seq_pairs r
  end.

(** [(a, b)] is in [tree_pairs t] when step [a] runs before step [b] in [t]. *)
Fixpoint tree_pairs (t : tree) : list (string * string) :=
  match t with
  | TStr _ => []
  | TSer ts => List.concat (map tree_pairs ts) ++ seq_pairs ts
  | TPar ts => List.concat (map tree_pairs ts)
  end.

(** [t] and [u] have the same steps and order the same pairs of steps,
    the step [s] apart. *)
Definition same_order (s : string) (t u : tree) : Prop :=
  (forall a, a <> s -> In a (tree_steps t) <-> In a (tree_steps u)) /\
  (forall a b, a <> s -> b <> s -> In (a, b) (tree_pairs t) <-> In (a, b) (tree_pairs u)).

(** The steps and the ordered pairs of [t] are among those of [u]. *)
Definition sub_order (t u : tree) : Prop :=
  incl (tree_steps t) (tree_steps u) /\ incl (tree_pairs t) (tree_pairs u).

(** Induction on [tree] through the lists of members. *)
Section tree_rect'.
Variable P : tree -> Prop.
Hypothesis HStr : forall x, P (TStr x).
Hypothesis HSer : forall ts, Forall P ts -> P (TSer ts).
Hypothesis HPar : forall ts, Forall P ts -> P (TPar ts).
Fixpoint tree_ind' (t : tree) : P t :=
  match t with
  | TStr x => HStr x
  | TSer ts =>
      HSer ts ((fix go (ts : list tree) : Forall P ts :=
                  match ts with
                  | [] => List.Forall_nil P
                  | u :: r => @List.Forall_cons _ P u r (tree_ind' u) (go r)
                  end) ts)
  | TPar ts =>
      HPar ts ((fix go (ts : list tree) : Forall P ts :=
                  match ts with
                  | [] => List.Forall_nil P
                  | u :: r => @List.Forall_cons _ P u r (tree_ind' u) (go r)
                  end) ts)
  end.
End tree_rect'.

(** [c] has the value [t] in the store [h]. *)
Definition val (h : heap) (c : comp) (t : tree) : Prop :=
  exists f, deref f h c = Some t.

(** Every value of [h] has a value in [h'] ordering the same steps. *)
Definition preserves (s : string) (h h' : heap) : Prop :=
  forall c t, val h c t -> exists t', val h' c t' /\ same_order s t' t.

(** The zone [o] of a partition stands for the structure [t]. *)
Definition zone_val (s : string) (h : heap) (o : option comp) (t : tree) : Prop :=
  match o with
  | Some z => exists tz, val h z tz /\ same_order s tz t
  | None => same_order s (TSer []) t
  end.

(** [ys] is [xs] with some elements satisfying [P] left out. *)
Inductive drops {A} (P : A -> Prop) : list A -> list A -> Prop :=
| drops_nil : drops P [] []
| drops_keep (x : A) (ys xs : list A) : drops P ys xs -> drops P (x :: ys) (x :: xs)
| drops_skip (x : A) (ys xs : list A) : P x -> drops P ys xs -> drops P ys (x :: xs).

(** The partition [p] found with no prerequisites and no postrequisites:
    it has a nondependent zone only, standing for the structure [t]. *)
Definition nondep_val (s : string) (h : heap) (p : Partition) (t : tree) : Prop :=
  prerequisite_component p = None /\ postrequisite_component p = None /\
  zone_val s h (nondependent_component p) t.

(** The [after] field of an instruction. *)
Definition instr_after (i : instr) : option string :=
  match i with InsertParallel a _ | InsertSuccessor a _ => a end.

(** The steps of [t] outside any [Parallel], left to right. *)
Fixpoint serial_steps (t : tree) : list string :=
  match t with
  | TStr x => [x]
  | TSer ts => List.concat (map serial_steps ts)
  | TPar _ => []
  end.

(** [InsertSuccessor] instructions placing [xs] one after the other, the
    first after [after]. *)
Fixpoint successor_chain (after : option string) (xs : list string) : list instr :=
  match xs with
  | [] => []
  | x :: r => InsertSuccessor after x :: successor_chain (Some x) r
  end.

(** The last element of [xs], or [d] when [xs] is empty. *)
Fixpoint last_or (d : option string) (xs : list string) : option string :=
  match xs with
  | [] => d
  | x :: r => last_or (Some x) r
  end.

(** [t] has no [Parallel]. *)
Fixpoint par_free (t : tree) : bool :=
  match t with
  | TStr _ => true
  | TSer ts => forallb par_free ts
  | TPar _ => false
  end.

Open Scope string_scope.

(** * Concrete runs of [add] *)

(** ** C9 *)

(** Claim C9: [add(series(), step="A")] returns the instructions
    [[InsertParallel(after=None, step="A")]] and a solution equal to
    [series("A")]. *)
Theorem add_empty_pipeline :
  exists sol before after,
    run_add (TSer []) "A" [] [] = Ok (Some sol, [InsertParallel None "A"], before, after)
    /\ tree_eqb sol (TSer [TStr "A"]) = true.
Proof. do 3 eexists. split; [vm_compute; reflexivity | reflexivity]. Qed.

(** ** C8 *)

(** Claim C8: [add(series("A","B"), step="C", prerequisites={"A"})] returns a
    solution equal to [series("A", parallel("B","C"))] and the instructions
    [[InsertParallel(after="A", step="C")]]. *)
Theorem add_prerequisite_anchor :
  exists sol before after,
    run_add (TSer [TStr "A"; TStr "B"]) "C" ["A"] []
    = Ok (Some sol, [InsertParallel (Some "A") "C"], before, after)
    /\ tree_eqb sol (TSer [TStr "A"; TPar [TStr "B"; TStr "C"]]) = true.
Proof. do 3 eexists. split; [vm_compute; reflexivity | reflexivity]. Qed.

(** ** C3 *)

(** Claim C3: [add(series(parallel("A","B")), step="C", prerequisites={"A"},
    postrequisites={"B"})] returns a solution equal to [series("A","C","B")]
    and exactly three [InsertSuccessor] instructions: [A] after [None], then
    [B] after [A], then [C] after [A]. *)
Theorem add_mixed_parallel_pre_post :
  exists sol before after,
    run_add (TSer [TPar [TStr "A"; TStr "B"]]) "C" ["A"] ["B"]
    = Ok (Some sol,
          [InsertSuccessor None "A"; InsertSuccessor (Some "A") "B";
           InsertSuccessor (Some "A") "C"], before, after)
    /\ tree_eqb sol (TSer [TStr "A"; TStr "C"; TStr "B"]) = true.
Proof. do 3 eexists. split; [vm_compute; reflexivity | reflexivity]. Qed.

(** ** C1, counterexample *)

(** Claim C1 (counterexample): with no prerequisites and no postrequisites,
    [add(series("A","B"), step="C")] puts [C] in parallel with the first
    element [A], and the last element [B] stays on its own. *)
Theorem add_no_constraints_joins_first_element :
  run_add (TSer [TStr "A"; TStr "B"]) "C" [] []
  = Ok (Some (TSer [TPar [TStr "A"; TStr "C"]; TStr "B"]),
        [InsertParallel None "C"],
        Some (TSer [TStr "A"; TStr "B"]), Some (TSer [TStr "A"; TStr "B"])).
Proof. vm_compute. reflexivity. Qed.

(** ** C2 *)

(** Claim C2 (code defect): [add(series("A", parallel("B", series("C","D"))),
    step="E", prerequisites={"C"})] changes the caller's pipeline: the
    [Series] [series("C","D")] inside the [Parallel] is the caller's object,
    and [_insert_before_postrequisites] assigns [parallel("D","E")] into it. *)
Theorem add_mutates_caller_pipeline :
  exists sol ins,
    run_add (TSer [TStr "A"; TPar [TStr "B"; TSer [TStr "C"; TStr "D"]]]) "E" ["C"] []
    = Ok (Some sol, ins,
          Some (TSer [TStr "A"; TPar [TStr "B"; TSer [TStr "C"; TStr "D"]]]),
          Some (TSer [TStr "A"; TPar [TStr "B";
                  TSer [TStr "C"; TPar [TStr "D"; TStr "E"]]]]))
    /\ tree_eqb (TSer [TStr "A"; TPar [TStr "B"; TSer [TStr "C"; TStr "D"]]])
                (TSer [TStr "A"; TPar [TStr "B";
                  TSer [TStr "C"; TPar [TStr "D"; TStr "E"]]]]) = false.
Proof. do 2 eexists. split; [vm_compute; reflexivity | reflexivity]. Qed.

(** ** C4 *)

(** Claim C4 (code defect): merging the partitions of
    [parallel("A","B","C","D")] for [prerequisites={"A"}],
    [postrequisites={"B"}] gives the nondependent zone [parallel("C","D")],
    and [_get_instructions_insert_successor] emits nothing for a [Parallel]:
    no instruction places [C] or [D], yet [B] is chained after [C]. *)
Theorem parallel_merge_skips_parallel_zone :
  _parallel_merge_partitions default_fuel
    [mkPartition (Some (CStr "A")) None None "A";
     mkPartition None None (Some (CStr "B")) "B";
     mkPartition None (Some (CStr "C")) None "C";
     mkPartition None (Some (CStr "D")) None "D"] None []
  = Ok ((mkPartition (Some (CStr "A")) (Some (CPar [CStr "C"; CStr "D"]))
           (Some (CStr "B")) "B",
         [InsertSuccessor None "A"; InsertSuccessor (Some "C") "B"]), []).
Proof. vm_compute. reflexivity. Qed.

(** * Endpoint resolution *)

Section Endpoints.


Lemma str_le_trans x y z : str_le x y -> str_le y z -> str_le x z.
Proof.
  unfold str_le. intros Hxy Hyz.
  assert (H : String.le x z).
  { transitivity y; unfold String.le; rewrite ?Hxy, ?Hyz; exact I. }
  unfold String.le in H. destruct (String.leb x z); [reflexivity | destruct H].
Qed.

Lemma str_le_antisym x y : str_le x y -> str_le y x -> x = y.
Proof. apply String.leb_antisym. Qed.

Lemma str_ltb_le x y : String.ltb x y = true -> str_le x y.
Proof.
  unfold String.ltb, str_le, String.leb. destruct (String.compare x y); easy.
Qed.

Lemma str_ltb_false_le x y : String.ltb x y = false -> str_le y x.
Proof.
  unfold String.ltb, str_le, String.leb. rewrite (String.compare_antisym y x).
  destruct (String.compare x y); easy.
Qed.

(** ** [sorted] *)

Lemma sort_insert_perm x ys : Permutation (sort_insert x ys) (x :: ys).
Proof.
  induction ys as [|y r IH]; simpl; [reflexivity|].
  destruct (String.ltb x y); [reflexivity|].
  rewrite IH. apply perm_swap.
Qed.

Lemma sort_insert_sorted x ys :
  Sorted str_le ys -> Sorted str_le (sort_insert x ys).
Proof.
  induction ys as [|y r IH]; intros Hs; simpl.
  - repeat constructor.
  - destruct (String.ltb x y) eqn:Hxy.
    + constructor; [exact Hs | constructor; apply str_ltb_le; exact Hxy].
    + apply Sorted_inv in Hs as [Hr Hhd].
      constructor; [apply IH; exact Hr|].
      destruct r as [|z r']; simpl.
      * constructor. apply str_ltb_false_le. exact Hxy.
      * destruct (String.ltb x z); constructor.
        -- apply str_ltb_false_le. exact Hxy.
        -- inversion Hhd; assumption.
Qed.

Lemma py_sorted_spec (xs : list string) :
  Permutation (py_sorted xs) xs /\ Sorted str_le (py_sorted xs).
Proof.
  unfold py_sorted.
  cut (forall acc, Sorted str_le acc ->
         Permutation (fold_left (fun acc x => sort_insert x acc) xs acc) (xs ++ acc)
         /\ Sorted str_le (fold_left (fun acc x => sort_insert x acc) xs acc)).
  { intros H. destruct (H [] (Sorted_nil _)) as [Hp Hs]. rewrite app_nil_r in Hp.
    split; assumption. }
  induction xs as [|x r IH]; intros acc Hacc; simpl; [split; [reflexivity | exact Hacc]|].
  destruct (IH (sort_insert x acc) (sort_insert_sorted x acc Hacc)) as [Hp Hs].
  split; [|exact Hs].
  rewrite Hp, sort_insert_perm. symmetry. apply Permutation_middle.
Qed.

(** The head of [sorted(xs)] is a least element of [xs]. *)
Lemma py_sorted_head (xs : list string) (e : string) (r : list string) :
  py_sorted xs = e :: r -> In e xs /\ Forall (str_le e) xs.
Proof.
  intros Hxs. destruct (py_sorted_spec xs) as [Hp Hs]. rewrite Hxs in Hp, Hs.
  split.
  - apply (Permutation_in e Hp). left. reflexivity.
  - apply (Permutation_Forall Hp). constructor.
    + unfold str_le. destruct (String.leb_total e e) as [H|H]; exact H.
    + apply (Sorted_extends (R:=str_le)); [exact str_le_trans | exact Hs].
Qed.

Lemma py_sorted_nonempty (xs : list string) :
  xs <> [] -> exists e r, py_sorted xs = e :: r.
Proof.
  intros Hne. destruct (py_sorted xs) as [|e r] eqn:E; [|eauto].
  destruct (py_sorted_spec xs) as [Hp _]. rewrite E in Hp.
  apply Permutation_nil in Hp. contradiction.
Qed.

(** ** Lists of members *)

Lemma collect_endpoints_ok (g : comp -> result string) ms eps :
  Forall2 (fun m e => g m = Ok e) ms eps -> collect_endpoints g ms = Ok eps.
Proof.
  induction 1 as [|m e ms eps Hm _ IH]; simpl; [reflexivity|].
  rewrite Hm, IH. reflexivity.
Qed.

Lemma Forall2_permute {A B} (R : A -> B -> Prop) xs ys xs' :
  Forall2 R xs ys -> Permutation xs xs' ->
  exists ys', Forall2 R xs' ys' /\ Permutation ys ys'.
Proof.
  intros HF HP. revert ys HF. induction HP as [|x l l' _ IH|x y l|l l' l'' _ IH1 _ IH2];
    intros ys HF.
  - inversion HF. exists []. split; constructor.
  - inversion HF as [|? b ? bs Hb Hr]; subst.
    destruct (IH _ Hr) as [bs' [H1 H2]].
    exists (b :: bs'). split; [constructor; assumption | apply perm_skip; assumption].
  - inversion HF as [|? b1 ? r1 Hb1 Hr1]; subst.
    inversion Hr1 as [|? b2 ? r2 Hb2 Hr2]; subst.
    exists (b2 :: b1 :: r2). split; [repeat constructor; assumption | apply perm_swap].
  - destruct (IH1 _ HF) as [ys1 [H1 H2]]. destruct (IH2 _ H1) as [ys2 [H3 H4]].
    exists ys2. split; [assumption | etransitivity; eassumption].
Qed.

Lemma mapo_Forall2 {A B} (g : A -> option B) xs ys :
  mapo g xs = Some ys -> Forall2 (fun x y => g x = Some y) xs ys.
Proof.
  revert ys. induction xs as [|x r IH]; intros ys H; simpl in H.
  - injection H as <-. constructor.
  - destruct (g x) eqn:Gx; [|discriminate]. destruct (mapo g r) eqn:Gr; [|discriminate].
    injection H as <-. constructor; [exact Gx | apply IH; reflexivity].
Qed.

Lemma Forall2_rev {A B} (R : A -> B -> Prop) xs ys :
  Forall2 R xs ys -> Forall2 R (rev xs) (rev ys).
Proof.
  induction 1; simpl; [constructor|].
  apply Forall2_app; [assumption | repeat constructor; assumption].
Qed.

Lemma in_steps_rev (e : string) (ts : list tree) :
  In e (List.concat (map tree_steps (rev ts))) <-> In e (List.concat (map tree_steps ts)).
Proof.
  rewrite !in_concat. split; intros [l [Hl He]]; exists l; split; try exact He;
    apply in_map_iff in Hl as [t [<- Ht]]; apply in_map_iff; exists t;
    (split; [reflexivity | apply in_rev; rewrite ?rev_involutive; exact Ht]).
Qed.


Lemma first_endpoint_resolves g xs ts :
  Forall2 (resolves g) xs ts ->
  (first_endpoint g xs = Err ValueError /\
     forall e, ~ In e (List.concat (map tree_steps ts))) \/
  (exists e, first_endpoint g xs = Ok e /\ In e (List.concat (map tree_steps ts))).
Proof.
  induction 1 as [|x t xs ts Hx _ IH]; simpl.
  - left. split; [reflexivity | intros e []].
  - destruct Hx as [[Hg Hn] | [e [Hg He]]]; rewrite Hg.
    + destruct IH as [[H1 H2] | [e [H1 H2]]].
      * left. split; [exact H1|]. intros e Hin. apply in_app_iff in Hin as [Hin|Hin].
        -- exact (Hn e Hin).
        -- exact (H2 e Hin).
      * right. exists e. split; [exact H1 | apply in_app_iff; right; exact H2].
    + right. exists e. split; [reflexivity | apply in_app_iff; left; exact He].
Qed.

Lemma collect_endpoints_resolves g xs ts :
  Forall2 (resolves g) xs ts ->
  exists es, collect_endpoints g xs = Ok es /\
    (forall e, In e es -> In e (List.concat (map tree_steps ts))) /\
    (es = [] -> forall e, ~ In e (List.concat (map tree_steps ts))).
Proof.
  induction 1 as [|x t xs ts Hx _ IH]; simpl.
  - exists []. split; [reflexivity|]. split; [intros e []|]. intros _ e [].
  - destruct IH as [es [Hc [Hsub Hemp]]].
    destruct Hx as [[Hg Hn] | [e [Hg He]]]; rewrite Hg.
    + exists es. split; [exact Hc|]. split.
      * intros e Hin. apply in_app_iff. right. apply Hsub. exact Hin.
      * intros Hnil e Hin. apply in_app_iff in Hin as [Hin|Hin];
          [exact (Hn e Hin) | exact (Hemp Hnil e Hin)].
    + rewrite Hc. exists (e :: es). split; [reflexivity|]. split; [|discriminate].
      intros e' [<-|Hin]; apply in_app_iff; [left; exact He | right; apply Hsub; exact Hin].
Qed.

Lemma get_endpoint_resolves (fuel : nat) :
  forall (h : heap) (c : comp) (t : tree),
    deref fuel h c = Some t -> resolves (get_endpoint fuel h) c t.
Proof.
  induction fuel as [|f IH]; intros h c t Hd.
  - destruct c as [s|l|ms]; simpl in Hd; try discriminate.
    injection Hd as <-. right. exists s. split; [reflexivity | left; reflexivity].
  - destruct c as [s|l|ms]; simpl in Hd.
    + injection Hd as <-. right. exists s. split; [reflexivity | left; reflexivity].
    + destruct (h !! l) as [items|] eqn:Hl; [|discriminate].
      destruct (mapo (deref f h) items) as [ts|] eqn:Hm; simpl in Hd; [|discriminate].
      injection Hd as <-.
      assert (HF : Forall2 (resolves (get_endpoint f h)) items ts).
      { eapply Forall2_impl; [apply mapo_Forall2; exact Hm|]. intros x y Hxy. apply IH. exact Hxy. }
      destruct (first_endpoint_resolves _ _ _ (Forall2_rev _ _ _ HF))
        as [[H1 H2] | [e [H1 H2]]].
      * left. simpl. rewrite Hl. split; [exact H1|].
        intros e Hin. apply (H2 e). apply in_steps_rev. exact Hin.
      * right. exists e. simpl. rewrite Hl. split; [exact H1|]. apply in_steps_rev. exact H2.
    + destruct (mapo (deref f h) ms) as [ts|] eqn:Hm; simpl in Hd; [|discriminate].
      injection Hd as <-.
      assert (HF : Forall2 (resolves (get_endpoint f h)) ms ts).
      { eapply Forall2_impl; [apply mapo_Forall2; exact Hm|]. intros x y Hxy. apply IH. exact Hxy. }
      destruct (collect_endpoints_resolves _ _ _ HF) as [es [Hc [Hsub Hemp]]].
      unfold resolves. simpl. rewrite Hc. destruct es as [|e0 es'].
      * left. split; [reflexivity | apply Hemp; reflexivity].
      * destruct (py_sorted_nonempty (e0 :: es')) as [e [r Hs]]; [discriminate|].
        rewrite Hs. right. exists e. split; [reflexivity|].
        apply Hsub. apply (py_sorted_head _ _ _ Hs).
Qed.

(** ** C6 *)

(** Claim C6: for a [Parallel] whose members all have an endpoint,
    [get_endpoint] returns the least of the members' endpoints in string
    order, whatever the iteration order of the frozenset (any permutation of
    the members gives the same answer); for [parallel("B","A")] it returns
    ["A"]. *)
Theorem get_endpoint_parallel_least :
  (forall (fuel : nat) (h : heap) (ms : list comp) (eps : list string),
     Forall2 (fun m e => get_endpoint fuel h m = Ok e) ms eps ->
     ms <> [] ->
     exists e, get_endpoint (S fuel) h (CPar ms) = Ok e /\ In e eps /\
       Forall (fun e' => String.leb e e' = true) eps /\
       (forall ms', Permutation ms ms' -> get_endpoint (S fuel) h (CPar ms') = Ok e))
  /\ get_endpoint 1 [] (CPar [CStr "B"; CStr "A"]) = Ok "A".
Proof.
  split; [|reflexivity].
  intros fuel h ms eps HF Hne.
  assert (Heps : eps <> []).
  { intros ->. inversion HF; subst. contradiction. }
  destruct (py_sorted_nonempty eps Heps) as [e [r Hs]].
  destruct (py_sorted_head _ _ _ Hs) as [Hin Hle].
  assert (Hget : get_endpoint (S fuel) h (CPar ms) = Ok e).
  { simpl. rewrite (collect_endpoints_ok _ _ _ HF).
    destruct eps as [|e0 eps']; [contradiction|]. rewrite Hs. reflexivity. }
  exists e. split; [exact Hget|]. split; [exact Hin|]. split; [exact Hle|].
  intros ms' Hp.
  destruct (Forall2_permute _ _ _ _ HF Hp) as [eps' [HF' Hp']].
  assert (Heps' : eps' <> []).
  { intros ->. apply Permutation_sym, Permutation_nil in Hp'. contradiction. }
  destruct (py_sorted_nonempty eps' Heps') as [e' [r' Hs']].
  destruct (py_sorted_head _ _ _ Hs') as [Hin' Hle'].
  simpl. rewrite (collect_endpoints_ok _ _ _ HF').
  destruct eps' as [|e0 eps'']; [contradiction|]. rewrite Hs'. f_equal.
  apply str_le_antisym.
  - apply (Permutation_in e Hp') in Hin.
    rewrite List.Forall_forall in Hle'. apply Hle'. exact Hin.
  - apply (Permutation_in e' (Permutation_sym Hp')) in Hin'.
    rewrite List.Forall_forall in Hle. apply Hle. exact Hin'.
Qed.

(** ** C7 *)

(** Claim C7: [get_endpoint] of a [str] is the step itself; for any
    structure (read within the recursion limit) it raises the [ValueError]
    that the spec calls [EmptyStructureError] exactly when the structure
    holds no step (an empty [Series] or [Parallel], or one whose children
    recursively hold none), and otherwise returns one of its steps without
    raising. *)
Theorem get_endpoint_error_iff_no_steps :
  (forall (s : string) (fuel : nat) (h : heap), get_endpoint fuel h (CStr s) = Ok s) /\
  (forall (fuel : nat) (h : heap) (c : comp) (t : tree),
     deref fuel h c = Some t ->
     (get_endpoint fuel h c = Err ValueError <-> tree_steps t = []) /\
     (tree_steps t <> [] ->
        exists e, get_endpoint fuel h c = Ok e /\ In e (tree_steps t))).
Proof.
  split; [intros s [|f] h; reflexivity|].
  intros fuel h c t Hd.
  destruct (get_endpoint_resolves fuel h c t Hd) as [[H1 H2] | [e [H1 H2]]].
  - split.
    + split; [|intros _; exact H1]. intros _.
      destruct (tree_steps t) as [|x r]; [reflexivity|]. exfalso. apply (H2 x). left. reflexivity.
    + intros Hne. destruct (tree_steps t) as [|x r]; [contradiction|].
      exfalso. apply (H2 x). left. reflexivity.
  - split.
    + rewrite H1. split; [discriminate|]. intros Hnil. rewrite Hnil in H2. destruct H2.
    + intros _. exists e. split; assumption.
Qed.

End Endpoints.

(** * The monad, the store and [_concat] *)

Section Store.

Lemma bind_ok {A B} (m : M A) (k : A -> M B) (h : heap) (b : B) (h' : heap) :
  bind m k h = Ok (b, h') -> exists a h1, m h = Ok (a, h1) /\ k a h1 = Ok (b, h').
Proof.
  unfold bind. destruct (m h) as [[a h1]|e]; [|discriminate]. intros H. eauto.
Qed.

Lemma ret_ok {A} (a b : A) (h h' : heap) : ret a h = Ok (b, h') -> a = b /\ h = h'.
Proof. unfold ret. intros H. injection H as -> ->. split; reflexivity. Qed.

Lemma lift_ok {A} (r : heap -> result A) (h : heap) (a : A) (h' : heap) :
  lift r h = Ok (a, h') -> r h = Ok a /\ h' = h.
Proof.
  unfold lift. destruct (r h) as [x|e]; [|discriminate]. intros H. injection H as -> ->.
  split; reflexivity.
Qed.


Lemma mapM_concat_items (cs : list (option comp)) (h : heap) :
  mapM concat_items cs h =
  match mapo (zone_items h) cs with
  | Some parts => Ok (parts, h)
  | None => Err InvalidReference
  end.
Proof.
  induction cs as [|c r IH]; [reflexivity|].
  simpl. unfold bind at 1.
  assert (Hc : concat_items c h =
               match zone_items h c with
               | Some xs => Ok (xs, h)
               | None => Err InvalidReference
               end).
  { destruct c as [[s|l|ms]|]; reflexivity. }
  rewrite Hc. destruct (zone_items h c) as [xs|]; [|reflexivity].
  unfold bind. rewrite IH. destruct (mapo (zone_items h) r); reflexivity.
Qed.

(** [_concat] splices the zones' items into one new [Series]. *)
Lemma _concat_spec (cs : list (option comp)) (h : heap) (r : option loc) (h' : heap) :
  _concat cs h = Ok (r, h') ->
  exists parts, mapo (zone_items h) cs = Some parts /\
    ((List.concat parts = [] /\ r = None /\ h' = h) \/
     (List.concat parts <> [] /\ r = Some (List.length h) /\
      h' = (h ++ [List.filter (fun c => negb (is_empty_input h c)) (List.concat parts)])%list)).
Proof.
  unfold _concat. intros H. apply bind_ok in H as [parts [h1 [H1 H2]]].
  rewrite mapM_concat_items in H1.
  destruct (mapo (zone_items h) cs) as [ps|]; [|discriminate].
  injection H1 as -> ->. exists parts. split; [reflexivity|].
  destruct (List.concat parts) as [|x xs] eqn:Hc.
  - left. apply ret_ok in H2 as [<- <-]. split; [reflexivity|split; reflexivity].
  - right. apply bind_ok in H2 as [l [h2 [H3 H4]]]. apply ret_ok in H4 as [<- <-].
    unfold series, alloc in H3. injection H3 as <- <-. split; [discriminate|split; reflexivity].
Qed.

End Store.

(** * Series merge *)

Section SeriesMerge.

(** ** C5 *)

(** Claim C5: in [_op_series_merge_partitions partition next_partition], when
    [next_partition] has a prerequisite zone, the merged prerequisite zone is
    the new [Series] holding the items of [partition]'s prerequisite,
    nondependent and postrequisite zones and then of [next_partition]'s
    prerequisite zone (a [Series] zone contributes its items, any other zone
    itself; empty containers are dropped by [series]), and the merged
    nondependent and postrequisite zones are [next_partition]'s; in every
    case the merged [top_ranked_endpoint] is [next_partition]'s. *)
Theorem series_merge_partitions_spec (partition next_partition merged : Partition)
  (h h' : heap) :
  _op_series_merge_partitions partition next_partition h = Ok (merged, h') ->
  top_ranked_endpoint merged = top_ranked_endpoint next_partition /\
  (is_not_none (prerequisite_component next_partition) = true ->
   nondependent_component merged = nondependent_component next_partition /\
   postrequisite_component merged = postrequisite_component next_partition /\
   exists parts,
     mapo (zone_items h) [prerequisite_component partition;
                          nondependent_component partition;
                          postrequisite_component partition;
                          prerequisite_component next_partition] = Some parts /\
     ((List.concat parts = [] /\ prerequisite_component merged = None) \/
      (prerequisite_component merged = Some (CSer (List.length h)) /\
       h' = (h ++ [List.filter (fun c => negb (is_empty_input h c)) (List.concat parts)])%list))).
Proof.
  unfold _op_series_merge_partitions. intros H.
  destruct (prerequisite_component next_partition) as [c|] eqn:Hpre.
  - apply bind_ok in H as [r [h1 [H1 H2]]]. apply ret_ok in H2 as [<- <-]. simpl.
    split; [reflexivity|]. intros _. split; [reflexivity|]. split; [reflexivity|].
    destruct (_concat_spec _ _ _ _ H1) as [parts [Hp Hcases]].
    exists parts. split; [exact Hp|].
    destruct Hcases as [[Hnil [-> ->]] | [Hne [-> ->]]].
    + left. split; [exact Hnil | reflexivity].
    + right. split; reflexivity.
  - split; [|intros Hc; discriminate Hc].
    destruct (is_not_none (nondependent_component next_partition)
              && is_not_none (postrequisite_component partition)).
    + apply bind_ok in H as [a [h1 [_ H]]]. apply bind_ok in H as [b [h2 [_ H]]].
      apply ret_ok in H as [<- _]. reflexivity.
    + apply bind_ok in H as [a [h1 [_ H]]]. apply bind_ok in H as [b [h2 [_ H]]].
      apply bind_ok in H as [d [h3 [_ H]]]. apply ret_ok in H as [<- _]. reflexivity.
Qed.

End SeriesMerge.

(** * Freshness of the new step *)

Section Fresh.

Local Open Scope list_scope.

Variable s : string.

Lemma extends_refl (h : heap) : extends h h.
Proof. exists []. symmetry. apply app_nil_r. Qed.

Lemma extends_trans (h1 h2 h3 : heap) : extends h1 h2 -> extends h2 h3 -> extends h1 h3.
Proof. intros [e1 ->] [e2 ->]. exists (e1 ++ e2). symmetry. apply app_assoc. Qed.

Lemma extends_alloc (h : heap) (items : list comp) : extends h (h ++ [items]).
Proof. exists [items]. reflexivity. Qed.

Lemma lookup_extends (h h' : heap) (l : loc) (x : list comp) :
  extends h h' -> h !! l = Some x -> h' !! l = Some x.
Proof. intros [e ->] Hl. apply lookup_app_l_Some. exact Hl. Qed.

Lemma reaches_back (h h' : heap) (c c' : comp) :
  extends h h' -> reaches h' c c' ->
  (forall l, reaches h c (CSer l) -> is_Some (h !! l)) -> reaches h c c'.
Proof.
  intros Hext Hr. induction Hr as [c|l items c c' Hl Hin Hr IH|ms c c' Hin Hr IH];
    intros Hdef.
  - apply reaches_refl.
  - destruct (Hdef l (reaches_refl h _)) as [items0 H0].
    assert (Heq : items0 = items).
    { pose proof (lookup_extends _ _ _ _ Hext H0) as H1. congruence. }
    subst items0. apply (reaches_ser h l items c c' H0 Hin).
    apply IH. intros l0 Hr0. apply Hdef. apply (reaches_ser h l items c _ H0 Hin Hr0).
  - apply (reaches_par h ms c c' Hin). apply IH.
    intros l0 Hr0. apply Hdef. apply (reaches_par h ms c _ Hin Hr0).
Qed.

Lemma fresh_extend (h h' : heap) (c : comp) :
  extends h h' -> fresh_in s h c -> fresh_in s h' c.
Proof.
  intros Hext [Hs Hd]. split.
  - intros x Hr. apply Hs. exact (reaches_back h h' c _ Hext Hr Hd).
  - intros l Hr. destruct (Hd l (reaches_back h h' c _ Hext Hr Hd)) as [v Hv].
    exists v. exact (lookup_extends _ _ _ _ Hext Hv).
Qed.

Lemma ofresh_extend (h h' : heap) (o : option comp) :
  extends h h' -> ofresh_in s h o -> ofresh_in s h' o.
Proof. destruct o; simpl; [apply fresh_extend|auto]. Qed.

Lemma partition_fresh_extend (h h' : heap) (p : Partition) :
  extends h h' -> partition_fresh_in s h p -> partition_fresh_in s h' p.
Proof.
  intros Hext (H1 & H2 & H3).
  split; [|split]; eapply ofresh_extend; eauto.
Qed.

Lemma Forall_fresh_extend (h h' : heap) (xs : list comp) :
  extends h h' -> Forall (fresh_in s h) xs -> Forall (fresh_in s h') xs.
Proof.
  intros Hext H. induction H; constructor; [eapply fresh_extend; eauto|assumption].
Qed.

Lemma fresh_str (h : heap) (x : string) : x <> s -> fresh_in s h (CStr x).
Proof.
  intros Hx. split.
  - intros y Hr. inversion Hr; subst. exact Hx.
  - intros l Hr. inversion Hr.
Qed.

Lemma fresh_str_inv (h : heap) (x : string) : fresh_in s h (CStr x) -> x <> s.
Proof. intros [Hs _]. apply Hs. apply reaches_refl. Qed.

Lemma fresh_par (h : heap) (ms : list comp) :
  fresh_in s h (CPar ms) <-> Forall (fresh_in s h) ms.
Proof.
  split.
  - intros [Hs Hd]. apply List.Forall_forall. intros m Hm. split.
    + intros x Hr. apply Hs. exact (reaches_par h ms m _ Hm Hr).
    + intros l Hr. apply Hd. exact (reaches_par h ms m _ Hm Hr).
  - intros HF. rewrite List.Forall_forall in HF. split.
    + intros x Hr. inversion Hr as [|?|ms' c c' Hin Hr']; subst.
      exact (proj1 (HF c Hin) x Hr').
    + intros l Hr. inversion Hr as [|?|ms' c c' Hin Hr']; subst.
      exact (proj2 (HF c Hin) l Hr').
Qed.

Lemma fresh_ser (h : heap) (l : loc) (items : list comp) :
  h !! l = Some items -> fresh_in s h (CSer l) <-> Forall (fresh_in s h) items.
Proof.
  intros Hl. split.
  - intros [Hs Hd]. apply List.Forall_forall. intros m Hm. split.
    + intros x Hr. apply Hs. exact (reaches_ser h l items m _ Hl Hm Hr).
    + intros l0 Hr. apply Hd. exact (reaches_ser h l items m _ Hl Hm Hr).
  - intros HF. rewrite List.Forall_forall in HF. split.
    + intros x Hr. inversion Hr as [|l' items' c c' Hl' Hin Hr'|]; subst.
      rewrite Hl in Hl'. injection Hl' as <-. exact (proj1 (HF c Hin) x Hr').
    + intros l0 Hr. inversion Hr as [|l' items' c c' Hl' Hin Hr'|]; subst.
      * exists items. exact Hl.
      * rewrite Hl in Hl'. injection Hl' as <-. exact (proj2 (HF c Hin) l0 Hr').
Qed.

Lemma fresh_alloc (h : heap) (items : list comp) :
  Forall (fresh_in s h) items -> fresh_in s (h ++ [items]) (CSer (length h)).
Proof.
  intros HF.
  assert (Hl : (h ++ [items]) !! length h = Some items).
  { apply list_lookup_middle. reflexivity. }
  apply (proj2 (fresh_ser _ _ items Hl)).
  exact (Forall_fresh_extend _ _ _ (extends_alloc h items) HF).
Qed.

Lemma Forall_filter_keep {A} (P : A -> Prop) (f : A -> bool) (xs : list A) :
  Forall P xs -> Forall P (List.filter f xs).
Proof.
  intros H. induction H as [|x r Hx Hr IH]; simpl; [constructor|].
  destruct (f x); [constructor|]; assumption.
Qed.

Lemma series_fresh (h h' : heap) (items : list comp) (l : loc) :
  Forall (fresh_in s h) items -> series items h = Ok (l, h') ->
  extends h h' /\ fresh_in s h' (CSer l).
Proof.
  intros HF H. unfold series, alloc in H. injection H as <- <-.
  split; [apply extends_alloc|]. apply fresh_alloc. apply Forall_filter_keep. exact HF.
Qed.

Lemma zone_items_fresh (h : heap) (o : option comp) (xs : list comp) :
  ofresh_in s h o -> zone_items h o = Some xs -> Forall (fresh_in s h) xs.
Proof.
  destruct o as [[x|l|ms]|]; simpl; intros Ho Hz.
  - injection Hz as <-. constructor; [exact Ho|constructor].
  - exact (proj1 (fresh_ser h l xs Hz) Ho).
  - injection Hz as <-. constructor; [exact Ho|constructor].
  - injection Hz as <-. constructor.
Qed.

Lemma concat_fresh (h h' : heap) (cs : list (option comp)) (r : option loc) :
  Forall (ofresh_in s h) cs -> _concat cs h = Ok (r, h') ->
  extends h h' /\ ofresh_in s h' (CSer <$> r).
Proof.
  intros HF H. destruct (_concat_spec _ _ _ _ H) as [parts [Hp Hc]].
  assert (Hparts : Forall (fresh_in s h) (List.concat parts)).
  { apply mapo_Forall2 in Hp. clear H Hc.
    induction Hp as [|c p cs' ps Hz Hr IH]; simpl; [constructor|].
    inversion HF as [|? ? Hc Hcs]; subst. apply Forall_app. split.
    - exact (zone_items_fresh h c p Hc Hz).
    - apply IH. exact Hcs. }
  destruct Hc as [[_ [-> ->]] | [_ [-> ->]]].
  - split; [apply extends_refl|exact I].
  - split; [apply extends_alloc|]. simpl. apply fresh_alloc.
    apply Forall_filter_keep. exact Hparts.
Qed.

Lemma dedup_into_incl (fuel : nat) (h : heap) (kept xs ms : list comp) :
  dedup_into fuel h kept xs = Ok ms -> forall m, In m ms -> In m kept \/ In m xs.
Proof.
  revert kept. induction xs as [|x r IH]; intros kept H m Hm; simpl in H.
  - injection H as <-. left; exact Hm.
  - destruct (py_in fuel h x kept) as [[|]|e]; [| |discriminate].
    + destruct (IH _ H m Hm) as [Hk|Hk]; [left; exact Hk|right; right; exact Hk].
    + destruct (IH _ H m Hm) as [Hk|Hk]; [|right; right; exact Hk].
      apply in_app_or in Hk. destruct Hk as [Hk|[<-|[]]].
      * left; exact Hk.
      * right; left; reflexivity.
Qed.

Lemma parallel_fresh (fuel : nat) (h h' : heap) (items : list comp) (c : comp) :
  Forall (fresh_in s h) items -> parallel fuel items h = Ok (c, h') ->
  h' = h /\ fresh_in s h c.
Proof.
  intros HF H. unfold parallel in H. apply lift_ok in H as [H ->]. split; [reflexivity|].
  destruct (dedup_into fuel h [] items) as [ms|e] eqn:Hd; [|discriminate].
  injection H as <-. apply fresh_par. apply List.Forall_forall. intros m Hm.
  destruct (dedup_into_incl _ _ _ _ _ Hd m Hm) as [[]|Hi].
  rewrite List.Forall_forall in HF. exact (HF m Hi).
Qed.

Lemma union_fresh (fuel : nat) (h h' : heap) (cs : list (option comp)) (r : option comp) :
  Forall (ofresh_in s h) cs -> _union fuel cs h = Ok (r, h') ->
  extends h h' /\ ofresh_in s h' r.
Proof.
  intros HF H. unfold _union in H.
  assert (Hu : Forall (fresh_in s h) (List.concat (map union_items cs))).
  { clear H. induction HF as [|c cs' Hc Hcs IH]; simpl; [constructor|].
    apply Forall_app. split; [|exact IH].
    destruct c as [[x|l|ms]|]; simpl in *.
    - constructor; [exact Hc|constructor].
    - constructor; [exact Hc|constructor].
    - exact (proj1 (fresh_par h ms) Hc).
    - constructor. }
  revert H Hu. destruct (List.concat (map union_items cs)) as [|p ps]; intros H Hu.
  - apply ret_ok in H as [<- <-]. split; [apply extends_refl|exact I].
  - apply bind_ok in H as [u [h1 [H1 H2]]]. apply ret_ok in H2 as [<- <-].
    destruct (parallel_fresh _ _ _ _ _ Hu H1) as [-> Hf].
    split; [apply extends_refl|exact Hf].
Qed.

Lemma Forall_ofresh_Some (h : heap) (xs : list comp) :
  Forall (fresh_in s h) xs -> Forall (ofresh_in s h) (map Some xs).
Proof. intros HF. induction HF; simpl; constructor; assumption. Qed.

Lemma merge_zone_fresh (fuel : nat) (h h' : heap) (cs : list comp) (r : option comp) :
  Forall (fresh_in s h) cs -> merge_zone fuel cs h = Ok (r, h') ->
  extends h h' /\ ofresh_in s h' r.
Proof.
  intros HF H. unfold merge_zone in H. destruct cs as [|c cs'].
  - apply ret_ok in H as [<- <-]. split; [apply extends_refl|exact I].
  - apply bind_ok in H as [u [h1 [H1 H2]]].
    destruct (union_fresh _ _ _ _ _ (Forall_ofresh_Some _ _ HF) H1) as [Hext Hu].
    destruct u as [[x|l|[|m [|m2 ms]]]|]; apply ret_ok in H2 as [<- <-];
      split; try exact Hext; try exact Hu.
    simpl in Hu. apply fresh_par in Hu. inversion Hu; subst. assumption.
Qed.

Lemma wrap_series_fresh (h h' : heap) (o r : option comp) :
  ofresh_in s h o -> wrap_series o h = Ok (r, h') -> extends h h' /\ ofresh_in s h' r.
Proof.
  destruct o as [x|]; simpl; intros Ho H.
  - apply bind_ok in H as [l [h1 [H1 H2]]]. apply ret_ok in H2 as [<- <-].
    apply (series_fresh h h1 [x] l); [constructor; [exact Ho|constructor]|exact H1].
  - apply ret_ok in H as [<- <-]. split; [apply extends_refl|exact I].
Qed.

Lemma giis_no_step (fuel : nat) (h : heap) (c : comp) (after e : option string)
  (ins : list instr) :
  fresh_in s h c -> _get_instructions_insert_successor fuel h c after = Ok (ins, e) ->
  no_step s ins.
Proof.
  revert c after e ins. induction fuel as [|f IH]; intros c after e ins Hc H.
  - destruct c as [x|l|ms]; simpl in H.
    + injection H as <- _. constructor; [exact (fresh_str_inv h x Hc)|constructor].
    + discriminate.
    + injection H as <- _. constructor.
  - destruct c as [x|l|ms]; simpl in H.
    + injection H as <- _. constructor; [exact (fresh_str_inv h x Hc)|constructor].
    + destruct (h !! l) as [items|] eqn:Hl; [|discriminate].
      pose proof (proj1 (fresh_ser h l items Hl) Hc) as HF. clear Hl Hc.
      assert (Hacc : no_step s []) by constructor.
      revert H Hacc. generalize (@nil instr) as acc. revert after.
      induction HF as [|x r Hx Hr IHr]; intros after acc H Hacc; simpl in H.
      * injection H as <- _. exact Hacc.
      * destruct (_get_instructions_insert_successor f h x after) as [[new ep]|err] eqn:Ex;
          [|discriminate].
        apply (IHr ep (acc ++ new) H). apply Forall_app.
        split; [exact Hacc|exact (IH x after ep new Hx Ex)].
    + injection H as <- _. constructor.
Qed.

Lemma instructions_of_no_step (fuel : nat) (h h' : heap) (c : comp)
  (after : option string) (ins : list instr) :
  fresh_in s h c -> instructions_of fuel c after h = Ok (ins, h') -> h' = h /\ no_step s ins.
Proof.
  intros Hc H. unfold instructions_of in H. apply lift_ok in H as [H ->].
  split; [reflexivity|].
  destruct (_get_instructions_insert_successor fuel h c after) as [[new e]|err] eqn:E;
    [|discriminate].
  injection H as <-. exact (giis_no_step _ _ _ _ _ _ Hc E).
Qed.

(** Prove [Forall P [x1; ...; xn]] with [tac] on each [P xi]. *)
Ltac forall_list tac := repeat (constructor; [tac|]); constructor.

Lemma Forall_partition_extend (h h' : heap) (ps : list Partition) :
  extends h h' -> Forall (partition_fresh_in s h) ps -> Forall (partition_fresh_in s h') ps.
Proof.
  intros Hext H. induction H; constructor; [eapply partition_fresh_extend; eauto|assumption].
Qed.

Lemma omap_fresh (h : heap) (sel : Partition -> option comp) (ps : list Partition) :
  Forall (fun p => ofresh_in s h (sel p)) ps -> Forall (fresh_in s h) (omap sel ps).
Proof.
  intros HF. induction HF as [|p ps' Hp Hps IH]; simpl; [constructor|].
  revert Hp. destruct (sel p); simpl; intros Hp; [constructor|]; assumption.
Qed.

Lemma Forall_sel (h : heap) (ps : list Partition) (sel : Partition -> option comp) :
  Forall (partition_fresh_in s h) ps ->
  (forall p, partition_fresh_in s h p -> ofresh_in s h (sel p)) ->
  Forall (fun p => ofresh_in s h (sel p)) ps.
Proof. intros HF Hs. induction HF; constructor; auto. Qed.

Lemma parallel_merge_fresh (fuel : nat) (h h' : heap) (ps : list Partition)
  (pred : option string) (p : Partition) (ins : list instr) :
  Forall (partition_fresh_in s h) ps ->
  _parallel_merge_partitions fuel ps pred h = Ok ((p, ins), h') ->
  extends h h' /\ partition_fresh_in s h' p /\ no_step s ins.
Proof.
  intros HF H. unfold _parallel_merge_partitions in H. cbv beta zeta in H.
  assert (Hpre : Forall (fresh_in s h) (omap prerequisite_component ps)).
  { apply omap_fresh. apply (Forall_sel h ps). exact HF. intros q (Q & _ & _). exact Q. }
  assert (Hnon : Forall (fresh_in s h) (omap nondependent_component ps)).
  { apply omap_fresh. apply (Forall_sel h ps). exact HF. intros q (_ & Q & _). exact Q. }
  assert (Hpost : Forall (fresh_in s h) (omap postrequisite_component ps)).
  { apply omap_fresh. apply (Forall_sel h ps). exact HF. intros q (_ & _ & Q). exact Q. }
  apply bind_ok in H as [pre [h1 [H1 H]]].
  destruct (merge_zone_fresh _ _ _ _ _ Hpre H1) as [E1 Fpre].
  apply bind_ok in H as [non [h2 [H2 H]]].
  destruct (merge_zone_fresh _ _ _ _ _ (Forall_fresh_extend _ _ _ E1 Hnon) H2) as [E2 Fnon].
  apply bind_ok in H as [post [h3 [H3 H]]].
  destruct (merge_zone_fresh _ _ _ _ _
              (Forall_fresh_extend _ _ _ (extends_trans _ _ _ E1 E2) Hpost) H3) as [E3 Fpost].
  pose proof (ofresh_extend _ _ _ (extends_trans _ _ _ E2 E3) Fpre) as Gpre.
  pose proof (ofresh_extend _ _ _ E3 Fnon) as Gnon.
  apply bind_ok in H as [top [h4 [H4 H]]]. apply lift_ok in H4 as [_ ->].
  apply bind_ok in H as [i1 [h5 [H5 H]]].
  assert (Hi1 : h5 = h3 /\ no_step s i1).
  { destruct pre as [c|]; cbv beta iota in H5.
    - exact (instructions_of_no_step _ _ _ c _ _ Gpre H5).
    - apply ret_ok in H5 as [<- <-]. split; [reflexivity|constructor]. }
  destruct Hi1 as [-> N1].
  apply bind_ok in H as [i2 [h6 [H6 H]]].
  assert (Hi2 : h6 = h3 /\ no_step s i2).
  { destruct non as [c|]; cbv beta iota in H6.
    - apply bind_ok in H6 as [after [h7 [H7 H8]]].
      assert (h7 = h3) as ->.
      { destruct pre as [p0|]; cbv beta iota in H7.
        - apply bind_ok in H7 as [e [h8 [H9 H10]]]. apply lift_ok in H9 as [_ ->].
          apply ret_ok in H10 as [_ <-]. reflexivity.
        - apply ret_ok in H7 as [_ <-]. reflexivity. }
      exact (instructions_of_no_step _ _ _ c _ _ Gnon H8).
    - apply ret_ok in H6 as [<- <-]. split; [reflexivity|constructor]. }
  destruct Hi2 as [-> N2].
  apply bind_ok in H as [i3 [h9 [H9 H]]].
  assert (Hi3 : h9 = h3 /\ no_step s i3).
  { destruct post as [c|]; cbv beta iota in H9.
    - apply bind_ok in H9 as [after [h7 [H7 H8]]].
      assert (h7 = h3) as ->.
      { destruct non as [n0|]; [|destruct pre as [p0|]]; cbv beta iota in H7;
          try (apply ret_ok in H7 as [_ <-]; reflexivity).
        all: apply bind_ok in H7 as [e [h8 [H10 H11]]]; apply lift_ok in H10 as [_ ->];
          apply ret_ok in H11 as [_ <-]; reflexivity. }
      exact (instructions_of_no_step _ _ _ c _ _ Fpost H8).
    - apply ret_ok in H9 as [<- <-]. split; [reflexivity|constructor]. }
  destruct Hi3 as [-> N3].
  apply ret_ok in H as [Heq <-]. injection Heq as <- <-.
  split; [exact (extends_trans _ _ _ E1 (extends_trans _ _ _ E2 E3))|].
  split; [split; [exact Gpre|split; [exact Gnon|exact Fpost]]|].
  apply Forall_app. split; [exact N1|]. apply Forall_app. split; assumption.
Qed.

Lemma zone_merge_fresh (x y r : option comp) (h h' : heap) :
  ofresh_in s h x -> ofresh_in s h y ->
  (match x, y with
   | None, _ => ret y
   | _, None => ret x
   | Some _, Some _ => let* c := _concat [x; y] in ret (CSer <$> c)
   end) h = Ok (r, h') ->
  extends h h' /\ ofresh_in s h' r.
Proof.
  intros Hx Hy H. destruct x as [x|], y as [y|]; cbv beta iota in H;
    try (apply ret_ok in H as [<- <-]; split; [apply extends_refl|assumption]).
  apply bind_ok in H as [c [h1 [H1 H2]]]. apply ret_ok in H2 as [<- <-].
  apply (concat_fresh h h1 [Some x; Some y] c); [|exact H1].
  constructor; [exact Hx|constructor; [exact Hy|constructor]].
Qed.

Lemma series_merge_fresh (h h' : heap) (p n m : Partition) :
  partition_fresh_in s h p -> partition_fresh_in s h n ->
  _op_series_merge_partitions p n h = Ok (m, h') ->
  extends h h' /\ partition_fresh_in s h' m.
Proof.
  destruct p as [ppre pnon ppost ptop], n as [npre nnon npost ntop].
  intros (P1 & P2 & P3) (N1 & N2 & N3) H. unfold _op_series_merge_partitions in H.
  cbn [prerequisite_component nondependent_component postrequisite_component
       top_ranked_endpoint] in *.
  destruct npre as [c|].
  - apply bind_ok in H as [r [h1 [H1 H2]]]. apply ret_ok in H2 as [<- <-].
    assert (HF : Forall (ofresh_in s h) [ppre; pnon; ppost; Some c]) by
      forall_list assumption.
    destruct (concat_fresh h h1 _ r HF H1) as [E F].
    split; [exact E|]. split; [exact F|].
    split; eapply ofresh_extend; eassumption.
  - destruct (is_not_none nnon && is_not_none ppost).
    + apply bind_ok in H as [a [h1 [H1 H]]]. apply bind_ok in H as [b [h2 [H2 H]]].
      apply ret_ok in H as [<- <-].
      assert (HF1 : Forall (ofresh_in s h) [ppre; None]) by
        forall_list ltac:(first [assumption|exact I]).
      destruct (concat_fresh h h1 _ a HF1 H1) as [E1 F1].
      assert (HF2 : Forall (ofresh_in s h1) [ppost; nnon; npost]).
      { forall_list ltac:(eapply ofresh_extend; eassumption). }
      destruct (concat_fresh h1 h2 _ b HF2 H2) as [E2 F2].
      split; [exact (extends_trans _ _ _ E1 E2)|].
      split; [eapply ofresh_extend; eassumption|].
      split; [|exact F2]. eapply ofresh_extend; [exact (extends_trans _ _ _ E1 E2)|exact P2].
    + cbv beta zeta in H.
      apply bind_ok in H as [pre [h1 [H1 H]]].
      destruct (zone_merge_fresh _ _ _ _ _ P1 N1 H1) as [E1 F1].
      apply bind_ok in H as [non [h2 [H2 H]]].
      destruct (zone_merge_fresh _ _ _ _ _ (ofresh_extend _ _ _ E1 P2)
                  (ofresh_extend _ _ _ E1 N2) H2) as [E2 F2].
      apply bind_ok in H as [post [h3 [H3 H]]].
      pose proof (extends_trans _ _ _ E1 E2) as E12.
      destruct (zone_merge_fresh _ _ _ _ _ (ofresh_extend _ _ _ E12 P3)
                  (ofresh_extend _ _ _ E12 N3) H3) as [E3 F3].
      apply ret_ok in H as [<- <-].
      split; [exact (extends_trans _ _ _ E12 E3)|].
      split; [eapply ofresh_extend; [exact (extends_trans _ _ _ E2 E3)|exact F1]|].
      split; [eapply ofresh_extend; [exact E3|exact F2]|exact F3].
Qed.

Lemma mapM_fresh {A B} (f : A -> M B) (P : heap -> A -> Prop) (Q : heap -> B -> Prop)
  (xs : list A) (h h' : heap) (ys : list B) :
  (forall h0 h1 x, extends h0 h1 -> P h0 x -> P h1 x) ->
  (forall h0 h1 y, extends h0 h1 -> Q h0 y -> Q h1 y) ->
  (forall x h0 y h1, In x xs -> P h0 x -> f x h0 = Ok (y, h1) -> extends h0 h1 /\ Q h1 y) ->
  Forall (P h) xs -> mapM f xs h = Ok (ys, h') -> extends h h' /\ Forall (Q h') ys.
Proof.
  intros HP HQ. revert h h' ys.
  induction xs as [|x r IH]; intros h h' ys Hf HF H; simpl in H.
  - apply ret_ok in H as [<- <-]. split; [apply extends_refl|constructor].
  - inversion HF as [|? ? Hx Hr]; subst.
    apply bind_ok in H as [y [h1 [H1 H]]]. apply bind_ok in H as [ys' [h2 [H2 H]]].
    apply ret_ok in H as [<- <-].
    destruct (Hf x h y h1 (or_introl eq_refl) Hx H1) as [E1 Q1].
    assert (Hr' : Forall (P h1) r).
    { clear - HP E1 Hr. induction Hr as [|z zs Hz Hzs IHz];
        [constructor|constructor; [exact (HP _ _ _ E1 Hz)|exact IHz]]. }
    destruct (IH h1 h2 ys' (fun x0 h0 y0 h3 Hin => Hf x0 h0 y0 h3 (or_intror Hin)) Hr' H2)
      as [E2 Q2].
    split; [exact (extends_trans _ _ _ E1 E2)|].
    constructor; [exact (HQ _ _ _ E2 Q1)|exact Q2].
Qed.

Lemma reduceM_fresh (xs : list Partition) (acc r : Partition) (h h' : heap) :
  partition_fresh_in s h acc -> Forall (partition_fresh_in s h) xs ->
  reduceM _op_series_merge_partitions acc xs h = Ok (r, h') ->
  extends h h' /\ partition_fresh_in s h' r.
Proof.
  revert acc h. induction xs as [|x rest IH]; intros acc h Ha HF H; simpl in H.
  - apply ret_ok in H as [<- <-]. split; [apply extends_refl|exact Ha].
  - inversion HF as [|? ? Hx Hr]; subst. apply bind_ok in H as [acc' [h1 [H1 H]]].
    destruct (series_merge_fresh _ _ _ _ _ Ha Hx H1) as [E1 F1].
    destruct (IH acc' h1 F1 (Forall_partition_extend _ _ _ E1 Hr) H) as [E2 F2].
    split; [exact (extends_trans _ _ _ E1 E2)|exact F2].
Qed.

Lemma series_partitions_fresh
  (pc : comp -> option string -> M (Partition * list instr))
  (items : list comp) (pred : option string) (h h' : heap) (ps : list Partition)
  (ins : list instr) :
  (forall x pred0 h0 h1 p i, In x items -> fresh_in s h0 x ->
     pc x pred0 h0 = Ok ((p, i), h1) ->
     extends h0 h1 /\ partition_fresh_in s h1 p /\ no_step s i) ->
  Forall (fresh_in s h) items ->
  _get_series_partitions pc items pred h = Ok ((ps, ins), h') ->
  extends h h' /\ Forall (partition_fresh_in s h') ps /\ no_step s ins.
Proof.
  revert pred h h' ps ins.
  induction items as [|x r IH]; intros pred h h' ps ins Hpc HF H; simpl in H.
  - apply ret_ok in H as [Heq <-]. injection Heq as <- <-.
    split; [apply extends_refl|split; constructor].
  - inversion HF as [|? ? Hx Hr]; subst.
    apply bind_ok in H as [[p i] [h1 [H1 H]]]. cbv beta iota in H.
    destruct (Hpc x pred h h1 p i (or_introl eq_refl) Hx H1) as (E1 & F1 & N1).
    apply bind_ok in H as [[ps' is'] [h2 [H2 H]]]. cbv beta iota in H.
    apply ret_ok in H as [Heq <-]. injection Heq as <- <-.
    destruct (IH (Some (top_ranked_endpoint p)) h1 h2 ps' is'
                (fun x0 pred0 h0 h3 p0 i0 Hin => Hpc x0 pred0 h0 h3 p0 i0 (or_intror Hin))
                (Forall_fresh_extend _ _ _ E1 Hr) H2) as (E2 & F2 & N2).
    split; [exact (extends_trans _ _ _ E1 E2)|].
    split; [constructor; [exact (partition_fresh_extend _ _ _ E2 F1)|exact F2]|].
    apply Forall_app. split; assumption.
Qed.

Lemma partition_str_fresh (x : string) (pred : option string) (pre post : list string)
  (fuel : nat) (h h' : heap) (p : Partition) (ins : list instr) :
  x <> s -> partition_component fuel (CStr x) pred pre post h = Ok ((p, ins), h') ->
  extends h h' /\ partition_fresh_in s h' p /\ no_step s ins.
Proof.
  intros Hx H. pose proof (fresh_str h x Hx) as Hc.
  destruct fuel; cbn [partition_component] in H;
    (destruct (mem x pre); [|destruct (mem x post)]);
    apply ret_ok in H as [Heq <-]; injection Heq as <- <-;
    (split; [apply extends_refl|split; [|constructor]]);
    unfold partition_fresh_in; cbn; tauto.
Qed.

Lemma tuples_fresh (h : heap) (ts : list (Partition * list instr)) :
  Forall (fun t => partition_fresh_in s h (fst t) /\ no_step s (snd t)) ts ->
  Forall (partition_fresh_in s h) (map fst ts) /\ no_step s (List.concat (map snd ts)).
Proof.
  intros HF. induction HF as [|t ts' [Ht Nt] _ [IH1 IH2]]; simpl.
  - split; constructor.
  - split; [constructor; assumption|]. apply Forall_app. split; assumption.
Qed.

Lemma partition_component_fresh (pre post : list string) (fuel : nat) :
  forall (c : comp) (pred : option string) (h h' : heap) (p : Partition) (ins : list instr),
  fresh_in s h c ->
  partition_component fuel c pred pre post h = Ok ((p, ins), h') ->
  extends h h' /\ partition_fresh_in s h' p /\ no_step s ins.
Proof.
  induction fuel as [|f IH]; intros c pred h h' p ins Hc H.
  - destruct c as [x|l|ms].
    + exact (partition_str_fresh x pred pre post 0 h h' p ins (fresh_str_inv h x Hc) H).
    + discriminate H.
    + discriminate H.
  - destruct c as [x|l|ms].
    + exact (partition_str_fresh x pred pre post (S f) h h' p ins (fresh_str_inv h x Hc) H).
    + cbn [partition_component] in H.
      apply bind_ok in H as [items [h1 [H1 H]]]. unfold read in H1.
      destruct (h !! l) as [its|] eqn:Hl; [|discriminate]. injection H1 as -> <-.
      pose proof (proj1 (fresh_ser h l items Hl) Hc) as HF.
      apply bind_ok in H as [[ps i] [h2 [H2 H]]]. cbv beta iota in H.
      destruct (series_partitions_fresh _ items pred h h2 ps i
                  (fun x pred0 h0 h1 p0 i0 _ Hx Hp => IH x pred0 h0 h1 p0 i0 Hx Hp) HF H2)
        as (E2 & F2 & N2).
      destruct ps as [|p0 [|p1 rest]].
      * discriminate H.
      * inversion F2 as [|? ? (Q1 & Q2 & Q3) _]; subst.
        apply bind_ok in H as [a [h3 [H3 H]]].
        destruct (wrap_series_fresh _ _ _ _ Q1 H3) as [E3 G1].
        apply bind_ok in H as [b [h4 [H4 H]]].
        destruct (wrap_series_fresh _ _ _ _ (ofresh_extend _ _ _ E3 Q2) H4) as [E4 G2].
        apply bind_ok in H as [d [h5 [H5 H]]].
        pose proof (extends_trans _ _ _ E3 E4) as E34.
        destruct (wrap_series_fresh _ _ _ _ (ofresh_extend _ _ _ E34 Q3) H5) as [E5 G3].
        apply ret_ok in H as [Heq <-]. injection Heq as <- <-.
        split; [exact (extends_trans _ _ _ E2 (extends_trans _ _ _ E34 E5))|].
        split; [|exact N2].
        split; [exact (ofresh_extend _ _ _ (extends_trans _ _ _ E4 E5) G1)|].
        split; [exact (ofresh_extend _ _ _ E5 G2)|exact G3].
      * inversion F2 as [|? ? Q0 Qr]; subst.
        apply bind_ok in H as [m [h3 [H3 H]]]. apply ret_ok in H as [Heq <-].
        injection Heq as <- <-.
        destruct (reduceM_fresh _ _ _ _ _ Q0 Qr H3) as [E3 G].
        split; [exact (extends_trans _ _ _ E2 E3)|split; [exact G|exact N2]].
    + cbn [partition_component] in H.
      pose proof (proj1 (fresh_par h ms) Hc) as HF.
      apply bind_ok in H as [tuples [h1 [H1 H]]].
      destruct (mapM_fresh (fun m => partition_component f m pred pre post)
                  (fresh_in s)
                  (fun h0 t => partition_fresh_in s h0 (fst t) /\ no_step s (snd t))
                  ms h h1 tuples)
        as [E1 Q1].
      { intros h0 h3 x E Hx. exact (fresh_extend _ _ _ E Hx). }
      { intros h0 h3 [q i] E [Fq Ni]. split; [exact (partition_fresh_extend _ _ _ E Fq)|exact Ni]. }
      { intros x h0 [q i] h3 _ Hx Hq. destruct (IH x pred h0 h3 q i Hx Hq) as (E & Fq & Ni).
        split; [exact E|split; assumption]. }
      { exact HF. }
      { exact H1. }
      destruct (tuples_fresh _ _ Q1) as [Fps Nins].
      cbv beta zeta in H.
      destruct (existsb _ (map fst tuples) && existsb _ (map fst tuples)).
      * destruct (parallel_merge_fresh _ _ _ _ _ _ _ Fps H) as (E2 & F2 & N2).
        split; [exact (extends_trans _ _ _ E1 E2)|split; assumption].
      * apply bind_ok in H as [top [h2 [H2 H]]]. apply lift_ok in H2 as [_ ->].
        pose proof (fresh_extend _ _ _ E1 Hc) as Hc1.
        destruct (existsb _ (map fst tuples)); [|destruct (existsb _ (map fst tuples))];
          apply ret_ok in H as [Heq <-]; injection Heq as <- <-;
          (split; [exact E1|split; [|exact Nins]]);
          unfold partition_fresh_in; cbn; tauto.
Qed.

Lemma insert_before_postrequisites_one (fuel : nat) :
  forall (component : loc) (idx : Z) (pred : option string) (post : list string)
    (h h' : heap) (ins : list instr),
  _insert_before_postrequisites fuel component idx pred s post h = Ok (ins, h') ->
  exists i, ins = [i] /\ instr_step i = s.
Proof.
  induction fuel as [|f IH]; intros component idx pred post h h' ins H; [discriminate H|].
  cbn [_insert_before_postrequisites] in H.
  apply bind_ok in H as [root [h1 [_ H]]].
  apply bind_ok in H as [succ [h2 [_ H]]].
  destruct succ as [x|l|[|m [|m2 ms]]]; cbv beta iota in H;
    [| exact (IH _ _ _ _ _ _ _ H) | | |].
  3: { apply bind_ok in H as [container [h3 [_ H]]].
       apply bind_ok in H as [ins0 [h4 [H4 H]]].
       destruct (IH _ _ _ _ _ _ _ H4) as [i [-> Hi]].
       apply bind_ok in H as [croot [h5 [_ H]]]. apply bind_ok in H as [u [h6 [_ H]]].
       apply ret_ok in H as [<- _]. exists i. split; [reflexivity|exact Hi]. }
  all: apply bind_ok in H as [has [h3 [_ H]]]; destruct has; cbv beta iota in H;
    [ apply bind_ok in H as [root' [h4 [_ H]]]; apply bind_ok in H as [u [h5 [_ H]]];
      apply ret_ok in H as [<- _]; eexists; split; reflexivity
    | apply bind_ok in H as [u [h4 [_ H]]]; destruct u as [u|]; [|discriminate H];
      cbv beta iota in H; apply bind_ok in H as [v [h5 [_ H]]];
      apply ret_ok in H as [<- _]; eexists; split; reflexivity ].
Qed.

Lemma insert_step_at_most_one (fuel : nat) :
  forall (component : loc) (pre post : list string) (h h' : heap) (ins : list instr),
  _insert_step fuel component s pre post h = Ok (ins, h') ->
  ins = [] \/ exists i, ins = [i] /\ instr_step i = s.
Proof.
  induction fuel as [|f IH]; intros component pre post h h' ins H; [discriminate H|].
  cbn [_insert_step] in H. apply bind_ok in H as [root [h1 [_ H]]]. cbv beta in H.
  revert h1 H. induction (rev (enumerate root)) as [|[idx sub] r IHr]; intros h1 H.
  - apply ret_ok in H as [<- _]. left; reflexivity.
  - destruct sub as [x|l|ms]; cbv beta iota in H.
    + destruct (mem x pre); cbv beta iota in H; [|exact (IHr h1 H)].
      apply bind_ok in H as [cur [h2 [_ H]]].
      destruct (Nat.ltb (idx + 1) (length cur)); cbv beta iota in H.
      * right. exact (insert_before_postrequisites_one f _ _ _ _ _ _ _ H).
      * apply bind_ok in H as [u [h3 [_ H]]]. apply ret_ok in H as [<- _].
        right. eexists; split; reflexivity.
    + apply bind_ok in H as [added [h2 [H2 H]]].
      destruct added as [|a rest]; cbv beta iota in H; [exact (IHr h2 H)|].
      apply ret_ok in H as [<- _]. exact (IH _ _ _ _ _ _ H2).
    + apply bind_ok in H as [c [h2 [_ H]]]. apply bind_ok in H as [added [h3 [H3 H]]].
      destruct added as [|a rest]; cbv beta iota in H; [exact (IHr h3 H)|].
      apply ret_ok in H as [<- _]. exact (IH _ _ _ _ _ _ H3).
Qed.

Lemma count_step_app (a b : list instr) :
  count_step s (a ++ b) = count_step s a + count_step s b.
Proof.
  unfold count_step. induction a as [|i a IH]; simpl; [reflexivity|].
  destruct (String.eqb (instr_step i) s); simpl; lia.
Qed.

Lemma count_no_step (ins : list instr) : no_step s ins -> count_step s ins = 0.
Proof.
  unfold count_step. intros HN. induction HN as [|i ins Hi _ IH]; simpl; [reflexivity|].
  destruct (String.eqb_spec (instr_step i) s); [contradiction|exact IH].
Qed.

Lemma count_one (i : instr) : instr_step i = s -> count_step s [i] = 1.
Proof. intros Hi. unfold count_step. simpl. rewrite Hi, String.eqb_refl. reflexivity. Qed.

End Fresh.

(** ** Reading a structure and its steps *)

Section Deref.

Lemma mapo_In {A B} (g : A -> option B) (xs : list A) (ys : list B) (x : A) :
  mapo g xs = Some ys -> In x xs -> exists y, g x = Some y /\ In y ys.
Proof.
  revert ys. induction xs as [|z r IH]; intros ys H Hin; [destruct Hin|].
  simpl in H. destruct (g z) as [y|] eqn:Gz; [|discriminate].
  destruct (mapo g r) as [ys'|] eqn:Gr; [|discriminate]. injection H as <-.
  destruct Hin as [<-|Hin].
  - exists y. split; [exact Gz|left; reflexivity].
  - destruct (IH ys' eq_refl Hin) as [y' [Hy' Hin']]. exists y'. split; [exact Hy'|right; exact Hin'].
Qed.

Lemma steps_member (ts : list tree) (tc : tree) :
  In tc ts -> incl (tree_steps tc) (List.concat (map tree_steps ts)).
Proof.
  intros Hin e He. apply in_concat. exists (tree_steps tc).
  split; [apply in_map; exact Hin|exact He].
Qed.

Lemma deref_reaches (h : heap) (c c' : comp) :
  reaches h c c' -> forall f t, deref f h c = Some t ->
  exists f' t', deref f' h c' = Some t' /\ incl (tree_steps t') (tree_steps t).
Proof.
  induction 1 as [c|l items c c' Hl Hin Hr IH|ms c c' Hin Hr IH]; intros f t Hd.
  - exists f, t. split; [exact Hd|apply incl_refl].
  - destruct f as [|g]; [discriminate Hd|]. simpl in Hd. rewrite Hl in Hd.
    destruct (mapo (deref g h) items) as [ts|] eqn:Hm; [|discriminate Hd].
    injection Hd as <-.
    destruct (mapo_In _ _ _ _ Hm Hin) as [tc [Htc Hin']].
    destruct (IH g tc Htc) as [f' [t' [Hd' Hincl]]].
    exists f', t'. split; [exact Hd'|].
    intros e He. apply (steps_member ts tc Hin'). apply Hincl. exact He.
  - destruct f as [|g]; [discriminate Hd|]. simpl in Hd.
    destruct (mapo (deref g h) ms) as [ts|] eqn:Hm; [|discriminate Hd].
    injection Hd as <-.
    destruct (mapo_In _ _ _ _ Hm Hin) as [tc [Htc Hin']].
    destruct (IH g tc Htc) as [f' [t' [Hd' Hincl]]].
    exists f', t'. split; [exact Hd'|].
    intros e He. apply (steps_member ts tc Hin'). apply Hincl. exact He.
Qed.

Lemma deref_fresh (s : string) (depth : nat) (h : heap) (c : comp) (t : tree) :
  deref depth h c = Some t -> ~ In s (tree_steps t) -> fresh_in s h c.
Proof.
  intros Hd Hs. split.
  - intros x Hr ->. destruct (deref_reaches _ _ _ Hr _ _ Hd) as [f' [t' [Hd' Hincl]]].
    apply Hs, Hincl. destruct f'; simpl in Hd'; injection Hd' as <-; left; reflexivity.
  - intros l Hr. destruct (deref_reaches _ _ _ Hr _ _ Hd) as [f' [t' [Hd' _]]].
    destruct f' as [|g]; [discriminate Hd'|]. simpl in Hd'.
    destruct (h !! l); [eexists; reflexivity|discriminate Hd'].
Qed.

End Deref.

(** ** C10 *)

(** Claim C10: when the new step [s] occurs nowhere in the pipeline,
    exactly one instruction returned by [add] has [s] as its step: the
    re-sequencing instructions of the partition never name [s], and
    [_insert_step] or the fallback [_insert_before_postrequisites] returns
    exactly one instruction placing [s] (an empty pipeline yields the single
    [InsertParallel(after=None, step=s)]). *)
Theorem add_places_new_step_once (depth fuel : nat) (h : heap) (pipeline : loc) (t : tree)
  (s : string) (prerequisites postrequisites : list string) (r : WeldResult) (h' : heap) :
  deref depth h (CSer pipeline) = Some t ->
  ~ In s (tree_steps t) ->
  add fuel pipeline s prerequisites postrequisites h = Ok (r, h') ->
  count_step s (instructions r) = 1.
Proof.
  intros Hd Hs H. unfold add in H.
  apply bind_ok in H as [root [h1 [H1 H]]]. unfold read in H1.
  destruct (h !! pipeline) as [its|] eqn:Hl; [|discriminate]. injection H1 as -> <-.
  destruct root as [|x rest]; cbv beta iota in H.
  - apply bind_ok in H as [l [h2 [_ H]]]. apply ret_ok in H as [<- _].
    apply count_one. reflexivity.
  - apply bind_ok in H as [[p ins] [h2 [H2 H]]]. cbv beta iota in H.
    destruct (partition_component_fresh s prerequisites postrequisites fuel (CSer pipeline)
                None h h2 p ins (deref_fresh s depth h _ t Hd Hs) H2) as (_ & _ & N).
    apply bind_ok in H as [rp [h3 [_ H]]].
    apply bind_ok in H as [ni [h4 [H4 H]]].
    apply bind_ok in H as [ni' [h5 [H5 H]]].
    apply ret_ok in H as [<- _]. cbn [instructions].
    rewrite count_step_app, (count_no_step s _ N).
    assert (Hone : exists i, ni' = [i] /\ instr_step i = s).
    { destruct (insert_step_at_most_one s fuel _ _ _ _ _ _ H4) as [-> | [i [-> Hi]]];
        cbv beta iota in H5.
      - exact (insert_before_postrequisites_one s fuel _ _ _ _ _ _ _ H5).
      - apply ret_ok in H5 as [<- _]. exists i. split; [reflexivity|exact Hi]. }
    destruct Hone as [i [-> Hi]]. rewrite (count_one s i Hi). reflexivity.
Qed.


(** * Order of the steps of a structure *)

Section Order.
Local Open Scope list_scope.
Variable s : string.

Lemma in_flat_steps (a : string) (ts : list tree) :
  In a (flat_steps ts) <-> exists t, In t ts /\ In a (tree_steps t).
Proof.
  unfold flat_steps. rewrite in_concat. split.
  - intros [l [Hl Ha]]. apply in_map_iff in Hl as [t [<- Ht]]. eauto.
  - intros [t [Ht Ha]]. exists (tree_steps t). split; [apply in_map; exact Ht|exact Ha].
Qed.

Lemma in_cpairs (p : string * string) (ts : list tree) :
  In p (List.concat (map tree_pairs ts)) <-> exists t, In t ts /\ In p (tree_pairs t).
Proof.
  rewrite in_concat. split.
  - intros [l [Hl Ha]]. apply in_map_iff in Hl as [t [<- Ht]]. eauto.
  - intros [t [Ht Ha]]. exists (tree_pairs t). split; [apply in_map; exact Ht|exact Ha].
Qed.

Lemma flat_steps_app (xs ys : list tree) :
  flat_steps (xs ++ ys) = flat_steps xs ++ flat_steps ys.
Proof. unfold flat_steps. rewrite List.map_app, List.concat_app. reflexivity. Qed.

Lemma flat_steps_cons (t : tree) (ts : list tree) :
  flat_steps (t :: ts) = tree_steps t ++ flat_steps ts.
Proof. reflexivity. Qed.

Lemma in_seq_pairs_cons (a b : string) (t : tree) (ts : list tree) :
  In (a, b) (seq_pairs (t :: ts)) <->
  (In a (tree_steps t) /\ In b (flat_steps ts)) \/ In (a, b) (seq_pairs ts).
Proof. cbn [seq_pairs]. rewrite in_app_iff, in_prod_iff. reflexivity. Qed.

Lemma in_seq_pairs_app (a b : string) (xs ys : list tree) :
  In (a, b) (seq_pairs (xs ++ ys)) <->
  In (a, b) (seq_pairs xs) \/ In (a, b) (seq_pairs ys) \/
  (In a (flat_steps xs) /\ In b (flat_steps ys)).
Proof.
  induction xs as [|t xs IH].
  - cbn [app seq_pairs]. unfold flat_steps at 1. cbn. tauto.
  - rewrite <- app_comm_cons, !in_seq_pairs_cons, IH, flat_steps_app, flat_steps_cons.
    rewrite !in_app_iff. tauto.
Qed.

Lemma in_ser_pairs (a b : string) (ts : list tree) :
  In (a, b) (tree_pairs (TSer ts)) <->
  (exists t, In t ts /\ In (a, b) (tree_pairs t)) \/ In (a, b) (seq_pairs ts).
Proof. cbn [tree_pairs]. rewrite in_app_iff, in_cpairs. reflexivity. Qed.

Lemma in_par_pairs (a b : string) (ts : list tree) :
  In (a, b) (tree_pairs (TPar ts)) <-> exists t, In t ts /\ In (a, b) (tree_pairs t).
Proof. cbn [tree_pairs]. apply in_cpairs. Qed.

Lemma tree_steps_ser (ts : list tree) : tree_steps (TSer ts) = flat_steps ts.
Proof. reflexivity. Qed.

Lemma tree_steps_par (ts : list tree) : tree_steps (TPar ts) = flat_steps ts.
Proof. reflexivity. Qed.

Lemma seq_pairs_steps (a b : string) (ts : list tree) :
  In (a, b) (seq_pairs ts) -> In a (flat_steps ts) /\ In b (flat_steps ts).
Proof.
  induction ts as [|t ts IH]; [intros []|].
  rewrite in_seq_pairs_cons, flat_steps_cons, !in_app_iff.
  intros [[Ha Hb]|H]; [tauto|]. destruct (IH H). tauto.
Qed.

Lemma pairs_steps (t : tree) :
  forall a b, In (a, b) (tree_pairs t) -> In a (tree_steps t) /\ In b (tree_steps t).
Proof.
  induction t as [x|ts IH|ts IH] using tree_ind'; intros a b.
  - intros [].
  - rewrite in_ser_pairs, tree_steps_ser. intros [[t [Ht Hp]]|Hp].
    + rewrite List.Forall_forall in IH. destruct (IH t Ht a b Hp).
      rewrite !in_flat_steps. split; eauto.
    + apply seq_pairs_steps. exact Hp.
  - rewrite in_par_pairs, tree_steps_par. intros [t [Ht Hp]].
    rewrite List.Forall_forall in IH. destruct (IH t Ht a b Hp).
    rewrite !in_flat_steps. split; eauto.
Qed.

Lemma stepless_pairs (t : tree) (a b : string) :
  tree_steps t = [] -> ~ In (a, b) (tree_pairs t).
Proof. intros He Hp. destruct (pairs_steps t a b Hp) as [Ha _]. rewrite He in Ha. exact Ha. Qed.

(** ** [same_order] is an equivalence *)

Lemma so_refl (t : tree) : same_order s t t.
Proof. split; intros; reflexivity. Qed.

Lemma so_sym (t u : tree) : same_order s t u -> same_order s u t.
Proof.
  intros [H1 H2]. split; intros.
  - symmetry. apply H1. assumption.
  - symmetry. apply H2; assumption.
Qed.

Lemma so_trans (t u v : tree) : same_order s t u -> same_order s u v -> same_order s t v.
Proof.
  intros [H1 H2] [H3 H4]. split; intros.
  - rewrite H1, H3 by assumption. reflexivity.
  - rewrite H2, H4 by assumption. reflexivity.
Qed.

(** ** Congruence *)

Lemma so_flat (ts us : list tree) :
  Forall2 (same_order s) ts us ->
  forall a, a <> s -> In a (flat_steps ts) <-> In a (flat_steps us).
Proof.
  induction 1 as [|t u ts us [H1 _] _ IH]; intros a Ha; [reflexivity|].
  rewrite !flat_steps_cons, !in_app_iff, H1, IH by exact Ha. reflexivity.
Qed.

Lemma so_cpairs (ts us : list tree) :
  Forall2 (same_order s) ts us ->
  forall a b, a <> s -> b <> s ->
  In (a, b) (List.concat (map tree_pairs ts)) <-> In (a, b) (List.concat (map tree_pairs us)).
Proof.
  induction 1 as [|t u ts us [_ H2] _ IH]; intros a b Ha Hb; [reflexivity|].
  cbn [map List.concat]. rewrite !in_app_iff, H2, IH by assumption. reflexivity.
Qed.

Lemma so_seq_pairs (ts us : list tree) :
  Forall2 (same_order s) ts us ->
  forall a b, a <> s -> b <> s -> In (a, b) (seq_pairs ts) <-> In (a, b) (seq_pairs us).
Proof.
  intros HF. induction HF as [|t u ts us [H1 _] HF IH]; intros a b Ha Hb; [reflexivity|].
  rewrite !in_seq_pairs_cons, H1, (so_flat ts us HF b Hb), IH by assumption. reflexivity.
Qed.

Lemma so_ser_cong (ts us : list tree) :
  Forall2 (same_order s) ts us -> same_order s (TSer ts) (TSer us).
Proof.
  intros HF. split.
  - intros a Ha. rewrite !tree_steps_ser. apply so_flat; assumption.
  - intros a b Ha Hb. cbn [tree_pairs]. rewrite !in_app_iff.
    rewrite (so_cpairs ts us HF a b Ha Hb), (so_seq_pairs ts us HF a b Ha Hb). reflexivity.
Qed.

Lemma so_par_cong (ts us : list tree) :
  Forall2 (same_order s) ts us -> same_order s (TPar ts) (TPar us).
Proof.
  intros HF. split.
  - intros a Ha. rewrite !tree_steps_par. apply so_flat; assumption.
  - intros a b Ha Hb. cbn [tree_pairs]. apply so_cpairs; assumption.
Qed.

(** A [Parallel] is the union of its members. *)
Lemma so_par_sets (ts us : list tree) :
  (forall t, In t ts -> exists u, In u us /\ sub_order t u) ->
  (forall u, In u us -> exists t, In t ts /\ sub_order u t) ->
  same_order s (TPar ts) (TPar us).
Proof.
  intros H1 H2. split.
  - intros a _. rewrite !tree_steps_par, !in_flat_steps. split.
    + intros [t [Ht Ha]]. destruct (H1 t Ht) as [u [Hu [Hs _]]]. eauto.
    + intros [u [Hu Ha]]. destruct (H2 u Hu) as [t [Ht [Hs _]]]. eauto.
  - intros a b _ _. rewrite !in_par_pairs. split.
    + intros [t [Ht Hp]]. destruct (H1 t Ht) as [u [Hu [_ Hs]]]. eauto.
    + intros [u [Hu Hp]]. destruct (H2 u Hu) as [t [Ht [_ Hs]]]. eauto.
Qed.

(** ** Shapes with the same order *)

Lemma so_ser_single (t : tree) : same_order s (TSer [t]) t.
Proof.
  split.
  - intros a _. rewrite tree_steps_ser, flat_steps_cons, in_app_iff. cbn. tauto.
  - intros a b _ _. rewrite in_ser_pairs, in_seq_pairs_cons. cbn. split.
    + intros [[u [[<-|[]] Hp]]|[[_ []]|[]]]. exact Hp.
    + intros Hp. left. exists t. split; [left; reflexivity|exact Hp].
Qed.

Lemma so_par_single (t : tree) : same_order s (TPar [t]) t.
Proof.
  split.
  - intros a _. rewrite tree_steps_par, flat_steps_cons, in_app_iff. cbn. tauto.
  - intros a b _ _. rewrite in_par_pairs. split.
    + intros [u [[<-|[]] Hp]]. exact Hp.
    + intros Hp. exists t. split; [left; reflexivity|exact Hp].
Qed.

Lemma so_par_drop_s (ts : list tree) : same_order s (TPar (ts ++ [TStr s])) (TPar ts).
Proof.
  split.
  - intros a Ha. rewrite !tree_steps_par, flat_steps_app, in_app_iff. cbn.
    split; [intros [H|[H|[]]]; [exact H|congruence]|tauto].
  - intros a b _ _. rewrite !in_par_pairs. split.
    + intros [t [Ht Hp]]. apply in_app_iff in Ht as [Ht|[<-|[]]]; [eauto|destruct Hp].
    + intros [t [Ht Hp]]. exists t. split; [apply in_app_iff; left; exact Ht|exact Hp].
Qed.

Lemma flat_steps_concat (tss : list (list tree)) :
  flat_steps (List.concat tss) = flat_steps (map TSer tss).
Proof.
  induction tss as [|ts tss IH]; [reflexivity|].
  cbn [List.concat map]. rewrite flat_steps_app, flat_steps_cons, IH. reflexivity.
Qed.

(** Nested [Series] read as one. *)
Lemma so_flatten (tss : list (list tree)) :
  same_order s (TSer (List.concat tss)) (TSer (map TSer tss)).
Proof.
  split.
  - intros a _. rewrite !tree_steps_ser, flat_steps_concat. reflexivity.
  - intros a b _ _. induction tss as [|ts tss IH]; [reflexivity|].
    cbn [List.concat map]. rewrite !in_ser_pairs in *.
    rewrite in_seq_pairs_app, in_seq_pairs_cons, tree_steps_ser, <- flat_steps_concat.
    split.
    + intros [[t [Ht Hp]]|[Hp|[Hp|Hp]]].
      * apply in_app_iff in Ht as [Ht|Ht].
        -- left. exists (TSer ts). split; [left; reflexivity|].
           apply in_ser_pairs. left. eauto.
        -- assert (Hr : (exists t, In t (map TSer tss) /\ In (a, b) (tree_pairs t)) \/
                        In (a, b) (seq_pairs (map TSer tss))) by (apply IH; left; eauto).
           destruct Hr as [[u [Hu Hp']]|Hp']; [left; exists u; split; [right|]|right; right]; assumption.
      * left. exists (TSer ts). split; [left; reflexivity|]. apply in_ser_pairs. right. exact Hp.
      * assert (Hr : (exists t, In t (map TSer tss) /\ In (a, b) (tree_pairs t)) \/
                     In (a, b) (seq_pairs (map TSer tss))) by (apply IH; right; exact Hp).
        destruct Hr as [[u [Hu Hp']]|Hp']; [left; exists u; split; [right|]|right; right]; assumption.
      * right. left. exact Hp.
    + intros [[u [[<-|Hu] Hp]]|[Hp|Hp]].
      * apply in_ser_pairs in Hp as [[t [Ht Hp]]|Hp].
        -- left. exists t. split; [apply in_app_iff; left|]; assumption.
        -- right. left. exact Hp.
      * assert (Hr : (exists t, In t (List.concat tss) /\ In (a, b) (tree_pairs t)) \/
                     In (a, b) (seq_pairs (List.concat tss))) by (apply IH; left; eauto).
        destruct Hr as [[t [Ht Hp']]|Hp'].
        -- left. exists t. split; [apply in_app_iff; right|]; assumption.
        -- right. right. left. exact Hp'.
      * right. right. right. exact Hp.
      * assert (Hr : (exists t, In t (List.concat tss) /\ In (a, b) (tree_pairs t)) \/
                     In (a, b) (seq_pairs (List.concat tss))) by (apply IH; right; exact Hp).
        destruct Hr as [[t [Ht Hp']]|Hp'].
        -- left. exists t. split; [apply in_app_iff; right|]; assumption.
        -- right. right. left. exact Hp'.
Qed.

Lemma so_ser_app (xs xs' ys ys' : list tree) :
  same_order s (TSer xs) (TSer xs') -> same_order s (TSer ys) (TSer ys') ->
  same_order s (TSer (xs ++ ys)) (TSer (xs' ++ ys')).
Proof.
  intros Hx Hy.
  pose proof (so_flatten [xs; ys]) as F. pose proof (so_flatten [xs'; ys']) as F'.
  cbn [List.concat map] in F, F'. rewrite !app_nil_r in F, F'.
  eapply so_trans; [exact F|]. eapply so_trans; [|apply so_sym; exact F'].
  apply so_ser_cong. constructor; [assumption|constructor; [assumption|constructor]].
Qed.

(** Leaving out items without steps. *)
Lemma so_drops (ys xs : list tree) :
  drops (fun t => tree_steps t = []) ys xs -> same_order s (TSer ys) (TSer xs).
Proof.
  induction 1 as [|x ys xs _ [IH1 IH2]|x ys xs Hx _ [IH1 IH2]].
  - apply so_refl.
  - split.
    + intros a Ha. rewrite !tree_steps_ser, !flat_steps_cons, !in_app_iff.
      rewrite !tree_steps_ser in IH1. rewrite IH1 by exact Ha. reflexivity.
    + intros a b Ha Hb. rewrite !tree_steps_ser in IH1.
      rewrite !in_ser_pairs, !in_seq_pairs_cons, IH1 by exact Hb.
      specialize (IH2 a b Ha Hb). rewrite !in_ser_pairs in IH2. split.
      * intros [[t [[->|Ht] Hp]]|[Hp|Hp]].
        -- left. exists t. split; [left; reflexivity|exact Hp].
        -- destruct (proj1 IH2 (or_introl (ex_intro _ t (conj Ht Hp)))) as [[u [Hu Hp']]|Hp'].
           ++ left. exists u. split; [right; exact Hu|exact Hp'].
           ++ right. right. exact Hp'.
        -- right. left. exact Hp.
        -- destruct (proj1 IH2 (or_intror Hp)) as [[u [Hu Hp']]|Hp'].
           ++ left. exists u. split; [right; exact Hu|exact Hp'].
           ++ right. right. exact Hp'.
      * intros [[t [[->|Ht] Hp]]|[Hp|Hp]].
        -- left. exists t. split; [left; reflexivity|exact Hp].
        -- destruct (proj2 IH2 (or_introl (ex_intro _ t (conj Ht Hp)))) as [[u [Hu Hp']]|Hp'].
           ++ left. exists u. split; [right; exact Hu|exact Hp'].
           ++ right. right. exact Hp'.
        -- right. left. exact Hp.
        -- destruct (proj2 IH2 (or_intror Hp)) as [[u [Hu Hp']]|Hp'].
           ++ left. exists u. split; [right; exact Hu|exact Hp'].
           ++ right. right. exact Hp'.
  - split.
    + intros a Ha. rewrite !tree_steps_ser, flat_steps_cons, in_app_iff, Hx.
      rewrite !tree_steps_ser in IH1. rewrite IH1 by exact Ha. cbn. tauto.
    + intros a b Ha Hb. specialize (IH2 a b Ha Hb).
      rewrite (in_ser_pairs a b (x :: xs)), in_seq_pairs_cons, Hx, IH2, in_ser_pairs. split.
      * intros [[t [Ht Hp]]|Hp]; [left; exists t; split; [right|]|right; right]; assumption.
      * intros [[t [[->|Ht] Hp]]|[[[] _]|Hp]].
        -- exfalso. exact (stepless_pairs t a b Hx Hp).
        -- left. eauto.
        -- right. exact Hp.
Qed.

(** ** [sub_order] and [==] *)

Lemma sub_refl (t : tree) : sub_order t t.
Proof. split; apply incl_refl. Qed.

Lemma sub_flat (ts us : list tree) :
  Forall2 sub_order ts us -> incl (flat_steps ts) (flat_steps us).
Proof.
  induction 1 as [|t u ts us [H1 _] _ IH]; [apply incl_refl|].
  rewrite !flat_steps_cons. apply incl_app_app; assumption.
Qed.

Lemma sub_ser (ts us : list tree) : Forall2 sub_order ts us -> sub_order (TSer ts) (TSer us).
Proof.
  intros HF. split; [rewrite !tree_steps_ser; apply sub_flat; exact HF|].
  intros [a b]. rewrite !in_ser_pairs. intros [[t [Ht Hp]]|Hp].
  - left. induction HF as [|t' u ts us [_ H2] _ IH]; [destruct Ht|].
    destruct Ht as [<-|Ht].
    + exists u. split; [left; reflexivity|apply H2; exact Hp].
    + destruct (IH Ht) as [v [Hv Hp']]. exists v. split; [right; exact Hv|exact Hp'].
  - right. induction HF as [|t u ts us [H1 _] HF IH]; [destruct Hp|].
    rewrite in_seq_pairs_cons in Hp |- *. destruct Hp as [[Ha Hb]|Hp]; [left|right; auto].
    split; [apply H1; exact Ha|]. apply (sub_flat ts us HF). exact Hb.
Qed.

Lemma sub_par (ts us : list tree) :
  (forall t, In t ts -> exists u, In u us /\ sub_order t u) -> sub_order (TPar ts) (TPar us).
Proof.
  intros H. split.
  - rewrite !tree_steps_par. intros a Ha. apply in_flat_steps in Ha as [t [Ht Ha]].
    destruct (H t Ht) as [u [Hu [Hs _]]]. apply in_flat_steps. eauto.
  - intros [a b]. rewrite !in_par_pairs. intros [t [Ht Hp]].
    destruct (H t Ht) as [u [Hu [_ Hs]]]. eauto.
Qed.

Lemma tree_eqb_par_members (ts us : list tree) :
  tree_eqb (TPar ts) (TPar us) = true ->
  forall t, In t ts -> exists u, In u us /\ tree_eqb t u = true.
Proof.
  cbn [tree_eqb]. intros H. apply andb_true_iff in H as [_ H].
  induction ts as [|t' ts IH]; intros t Ht; [destruct Ht|].
  apply andb_true_iff in H as [H1 H2]. destruct Ht as [<-|Ht].
  - apply existsb_exists in H1. exact H1.
  - exact (IH H2 t Ht).
Qed.

(** Python [==] of values relates values with the same steps and order. *)
Lemma tree_eqb_sub (t : tree) : forall u, tree_eqb t u = true -> sub_order t u.
Proof.
  induction t as [x|ts IH|ts IH] using tree_ind'; intros [y|us|us] H;
    try discriminate H.
  - apply String.eqb_eq in H as <-. apply sub_refl.
  - apply sub_ser. revert us H. induction IH as [|t ts Ht _ IHts]; intros [|u us] H;
      try discriminate H; [constructor|].
    cbn [tree_eqb] in H. apply andb_true_iff in H as [H1 H2].
    constructor; [apply Ht; exact H1|]. apply IHts. exact H2.
  - apply sub_par. intros t Ht. destruct (tree_eqb_par_members ts us H t Ht) as [u [Hu He]].
    exists u. split; [exact Hu|]. rewrite List.Forall_forall in IH. apply IH; assumption.
Qed.

End Order.

(** * Values in the store *)

Section Values.
Local Open Scope list_scope.
Variable s : string.

Lemma heap_lookup_insert_ne (h : heap) (M l : loc) (x : list comp) :
  M <> l -> (<[M := x]> h) !! l = h !! l.
Proof. apply list_lookup_insert_ne. Qed.

Lemma heap_lookup_insert (h : heap) (M : loc) (x : list comp) :
  M < length h -> (<[M := x]> h) !! M = Some x.
Proof. apply list_lookup_insert_eq. Qed.

Lemma deref_ser_eq (f : nat) (h : heap) (l : loc) :
  deref (S f) h (CSer l) =
  match h !! l with Some items => TSer <$> mapo (deref f h) items | None => None end.
Proof. reflexivity. Qed.

Lemma deref_par_eq (f : nat) (h : heap) (ms : list comp) :
  deref (S f) h (CPar ms) = TPar <$> mapo (deref f h) ms.
Proof. reflexivity. Qed.

Lemma mapo_mono {A B} (g g' : A -> option B) (xs : list A) (ys : list B) :
  (forall x y, In x xs -> g x = Some y -> g' x = Some y) ->
  mapo g xs = Some ys -> mapo g' xs = Some ys.
Proof.
  revert ys. induction xs as [|x r IH]; intros ys Hg H; [exact H|].
  cbn [mapo] in H |- *. destruct (g x) as [y|] eqn:Gx; [|discriminate].
  destruct (mapo g r) as [ys'|] eqn:Gr; [|discriminate].
  rewrite (Hg x y (or_introl eq_refl) Gx).
  rewrite (IH ys' (fun x' y' Hin => Hg x' y' (or_intror Hin)) eq_refl). exact H.
Qed.

Lemma mapo_Forall2_iff {A B} (g : A -> option B) (xs : list A) (ys : list B) :
  mapo g xs = Some ys <-> Forall2 (fun x y => g x = Some y) xs ys.
Proof.
  split.
  - revert ys. induction xs as [|x r IH]; intros ys H; cbn [mapo] in H.
    + injection H as <-. constructor.
    + destruct (g x) eqn:Gx; [|discriminate]. destruct (mapo g r) eqn:Gr; [|discriminate].
      injection H as <-. constructor; [exact Gx|apply IH; reflexivity].
  - induction 1 as [|x y r ys Hxy _ IH]; [reflexivity|]. cbn [mapo]. rewrite Hxy, IH.
    reflexivity.
Qed.

Lemma deref_S (f : nat) (h : heap) :
  forall c t, deref f h c = Some t -> deref (S f) h c = Some t.
Proof.
  induction f as [|f IH]; intros [x|l|ms] t H; try discriminate H; try exact H.
  - rewrite deref_ser_eq in H |- *. destruct (h !! l) as [items|]; [|discriminate H].
    destruct (mapo (deref f h) items) as [ts|] eqn:Hm; [|discriminate H].
    rewrite (mapo_mono _ _ _ _ (fun x y _ => IH x y) Hm). exact H.
  - rewrite deref_par_eq in H |- *.
    destruct (mapo (deref f h) ms) as [ts|] eqn:Hm; [|discriminate H].
    rewrite (mapo_mono _ _ _ _ (fun x y _ => IH x y) Hm). exact H.
Qed.

Lemma deref_le (f g : nat) (h : heap) (c : comp) (t : tree) :
  f <= g -> deref f h c = Some t -> deref g h c = Some t.
Proof. intros Hle H. induction Hle; [exact H|apply deref_S; assumption]. Qed.

Lemma val_fun (h : heap) (c : comp) (t t' : tree) : val h c t -> val h c t' -> t = t'.
Proof.
  intros [f Hf] [g Hg].
  pose proof (deref_le f (max f g) h c t (Nat.le_max_l f g) Hf) as H1.
  pose proof (deref_le g (max f g) h c t' (Nat.le_max_r f g) Hg) as H2. congruence.
Qed.

Lemma val_str (h : heap) (x : string) : val h (CStr x) (TStr x).
Proof. exists 0. reflexivity. Qed.

Lemma val_str_inv (h : heap) (x : string) (t : tree) : val h (CStr x) t -> t = TStr x.
Proof. intros [f Hf]. destruct f; cbn in Hf; congruence. Qed.

Lemma Forall2_val_fuel (h : heap) (xs : list comp) (ts : list tree) :
  Forall2 (val h) xs ts -> exists f, Forall2 (fun x t => deref f h x = Some t) xs ts.
Proof.
  induction 1 as [|x t xs ts [f Hf] _ [g Hg]]; [exists 0; constructor|].
  exists (max f g). constructor.
  - eapply deref_le; [apply Nat.le_max_l|exact Hf].
  - clear Hf. induction Hg as [|y u ys us Hy _ IH]; constructor; [|exact IH].
    eapply deref_le; [apply Nat.le_max_r|exact Hy].
Qed.

Lemma Forall2_fuel_val (h : heap) (f : nat) (xs : list comp) (ts : list tree) :
  Forall2 (fun x t => deref f h x = Some t) xs ts -> Forall2 (val h) xs ts.
Proof. induction 1; constructor; [eexists; eassumption|assumption]. Qed.

Lemma val_ser (h : heap) (l : loc) (items : list comp) (ts : list tree) :
  h !! l = Some items -> Forall2 (val h) items ts -> val h (CSer l) (TSer ts).
Proof.
  intros Hl HF. destruct (Forall2_val_fuel h items ts HF) as [f Hf]. exists (S f).
  cbn [deref]. rewrite Hl. apply mapo_Forall2_iff in Hf. rewrite Hf. reflexivity.
Qed.

Lemma val_ser_inv (h : heap) (l : loc) (t : tree) :
  val h (CSer l) t ->
  exists items ts, h !! l = Some items /\ Forall2 (val h) items ts /\ t = TSer ts.
Proof.
  intros [[|f] Hf]; [discriminate Hf|]. cbn [deref] in Hf.
  destruct (h !! l) as [items|]; [|discriminate Hf].
  destruct (mapo (deref f h) items) as [ts|] eqn:Hm; [|discriminate Hf].
  injection Hf as <-. exists items, ts. split; [reflexivity|split; [|reflexivity]].
  apply (Forall2_fuel_val h f). apply mapo_Forall2. exact Hm.
Qed.

Lemma val_par (h : heap) (ms : list comp) (ts : list tree) :
  Forall2 (val h) ms ts -> val h (CPar ms) (TPar ts).
Proof.
  intros HF. destruct (Forall2_val_fuel h ms ts HF) as [f Hf]. exists (S f).
  cbn [deref]. apply mapo_Forall2_iff in Hf. rewrite Hf. reflexivity.
Qed.

Lemma val_par_inv (h : heap) (ms : list comp) (t : tree) :
  val h (CPar ms) t -> exists ts, Forall2 (val h) ms ts /\ t = TPar ts.
Proof.
  intros [[|f] Hf]; [discriminate Hf|]. cbn [deref] in Hf.
  destruct (mapo (deref f h) ms) as [ts|] eqn:Hm; [|discriminate Hf].
  injection Hf as <-. exists ts. split; [|reflexivity].
  apply (Forall2_fuel_val h f). apply mapo_Forall2. exact Hm.
Qed.

Lemma deref_extend (h : heap) (ext : heap) :
  forall f c t, deref f h c = Some t -> deref f (h ++ ext) c = Some t.
Proof.
  induction f as [|f IH]; intros [x|l|ms] t H; try discriminate H; try exact H.
  - rewrite deref_ser_eq in H |- *. destruct (h !! l) as [items|] eqn:Hl; [|discriminate H].
    rewrite (lookup_extends h (h ++ ext) l items (ex_intro _ ext eq_refl) Hl).
    destruct (mapo (deref f h) items) as [ts|] eqn:Hm; [|discriminate H].
    rewrite (mapo_mono _ _ _ _ (fun x y _ => IH x y) Hm). exact H.
  - rewrite deref_par_eq in H |- *.
    destruct (mapo (deref f h) ms) as [ts|] eqn:Hm; [|discriminate H].
    rewrite (mapo_mono _ _ _ _ (fun x y _ => IH x y) Hm). exact H.
Qed.

Lemma val_extend (h h' : heap) (c : comp) (t : tree) : extends h h' -> val h c t -> val h' c t.
Proof. intros [ext ->] [f Hf]. exists f. apply deref_extend. exact Hf. Qed.

Lemma Forall2_val_extend (h h' : heap) (cs : list comp) (ts : list tree) :
  extends h h' -> Forall2 (val h) cs ts -> Forall2 (val h') cs ts.
Proof. intros He. induction 1; constructor; [eapply val_extend|]; eassumption. Qed.

Lemma deref_reaches_fuel (h : heap) (c c' : comp) :
  reaches h c c' -> forall f t, deref f h c = Some t -> exists t', deref f h c' = Some t'.
Proof.
  induction 1 as [c|l items c c' Hl Hin Hr IH|ms c c' Hin Hr IH]; intros f t Hd.
  - eauto.
  - destruct f as [|g]; [discriminate Hd|]. cbn [deref] in Hd. rewrite Hl in Hd.
    destruct (mapo (deref g h) items) as [ts|] eqn:Hm; [|discriminate Hd].
    destruct (mapo_In _ _ _ _ Hm Hin) as [tc [Htc _]].
    destruct (IH g tc Htc) as [t' Ht']. exists t'. apply deref_S. exact Ht'.
  - destruct f as [|g]; [discriminate Hd|]. cbn [deref] in Hd.
    destruct (mapo (deref g h) ms) as [ts|] eqn:Hm; [|discriminate Hd].
    destruct (mapo_In _ _ _ _ Hm Hin) as [tc [Htc _]].
    destruct (IH g tc Htc) as [t' Ht']. exists t'. apply deref_S. exact Ht'.
Qed.

Lemma val_reaches_defined (h : heap) (c : comp) (t : tree) (l : loc) :
  val h c t -> reaches h c (CSer l) -> is_Some (h !! l).
Proof.
  intros [f Hf] Hr. destruct (deref_reaches_fuel h c _ Hr f t Hf) as [t' Ht'].
  destruct f as [|g]; [discriminate Ht'|]. cbn [deref] in Ht'.
  destruct (h !! l); [eexists; reflexivity|discriminate Ht'].
Qed.

(** A [Series] with a value does not contain itself. *)
Lemma no_cycle (h : heap) (M : loc) (items : list comp) (x : comp) (t : tree) :
  val h (CSer M) t -> h !! M = Some items -> In x items -> ~ reaches h x (CSer M).
Proof.
  intros [f Hf] HM Hin Hr. revert t Hf. induction f as [|g IH]; intros t Hf; [discriminate Hf|].
  cbn [deref] in Hf. rewrite HM in Hf.
  destruct (mapo (deref g h) items) as [ts|] eqn:Hm; [|discriminate Hf].
  destruct (mapo_In _ _ _ _ Hm Hin) as [tx [Hx _]].
  destruct (deref_reaches_fuel h x (CSer M) Hr g tx Hx) as [t' Ht']. exact (IH t' Ht').
Qed.

Lemma deref_write_away (h : heap) (M : loc) (items : list comp) :
  forall f c t, deref f h c = Some t -> ~ reaches h c (CSer M) ->
  deref f (<[M := items]> h) c = Some t.
Proof.
  induction f as [|f IH]; intros [x|l|ms] t H Hr; try discriminate H; try exact H.
  - rewrite deref_ser_eq in H |- *.
    rewrite heap_lookup_insert_ne by (intros ->; apply Hr, reaches_refl).
    destruct (h !! l) as [its|] eqn:Hl; [|discriminate H].
    destruct (mapo (deref f h) its) as [ts|] eqn:Hm; [|discriminate H].
    rewrite (mapo_mono _ _ _ _ (fun x y Hin Hy =>
               IH x y Hy (fun Hr' => Hr (reaches_ser h l its x _ Hl Hin Hr'))) Hm).
    exact H.
  - rewrite deref_par_eq in H |- *.
    destruct (mapo (deref f h) ms) as [ts|] eqn:Hm; [|discriminate H].
    rewrite (mapo_mono _ _ _ _ (fun x y Hin Hy =>
               IH x y Hy (fun Hr' => Hr (reaches_par h ms x _ Hin Hr'))) Hm).
    exact H.
Qed.

(** ** [preserves] *)

Lemma preserves_refl (h : heap) : preserves s h h.
Proof. intros c t Hv. exists t. split; [exact Hv|apply so_refl]. Qed.

Lemma preserves_trans (h1 h2 h3 : heap) :
  preserves s h1 h2 -> preserves s h2 h3 -> preserves s h1 h3.
Proof.
  intros P12 P23 c t Hv. destruct (P12 c t Hv) as [t2 [Hv2 S2]].
  destruct (P23 c t2 Hv2) as [t3 [Hv3 S3]]. exists t3.
  split; [exact Hv3|eapply so_trans; eassumption].
Qed.

Lemma extends_preserves (h h' : heap) : extends h h' -> preserves s h h'.
Proof. intros He c t Hv. exists t. split; [eapply val_extend; eassumption|apply so_refl]. Qed.

Lemma Forall2_lift (P : comp -> tree -> Prop) (h' : heap) (cs : list comp) (ts : list tree) :
  Forall2 P cs ts -> (forall c t, P c t -> exists t', val h' c t' /\ same_order s t' t) ->
  exists ts', Forall2 (val h') cs ts' /\ Forall2 (same_order s) ts' ts.
Proof.
  intros HF Hl. induction HF as [|c t cs ts Hct _ [ts' [IH1 IH2]]].
  - exists []. split; constructor.
  - destruct (Hl c t Hct) as [t' [Hv So]]. exists (t' :: ts'). split; constructor; assumption.
Qed.

(** Replacing the first item of the [Series] [M] by [u], a structure with
    the same order as that item and not containing [M], keeps the order of
    every structure of the store. *)
Lemma write_preserves (h : heap) (M : loc) (x u : comp) (rest : list comp) (tu : tree) :
  h !! M = Some (x :: rest) -> val h u tu ->
  (forall tx, val h x tx -> same_order s tu tx) ->
  ~ reaches h u (CSer M) -> preserves s h (<[M := u :: rest]> h).
Proof.
  intros HM [fu Hu] Hso Hnr c t [f Hf]. revert c t Hf.
  induction f as [|f IH]; intros [y|l|ms] t Hf; try discriminate Hf.
  - injection Hf as <-. exists (TStr y). split; [apply val_str|apply so_refl].
  - injection Hf as <-. exists (TStr y). split; [apply val_str|apply so_refl].
  - cbn [deref] in Hf. destruct (decide (l = M)) as [->|Hne].
    + rewrite HM in Hf. destruct (mapo (deref f h) (x :: rest)) as [ts|] eqn:Hm;
        [|discriminate Hf]. injection Hf as <-.
      apply mapo_Forall2 in Hm. inversion Hm as [|x' tx rest' trest Hx Hr]; subst.
      destruct (Forall2_lift _ _ _ _ Hr IH) as [trest' [Hv' So']].
      exists (TSer (tu :: trest')). split.
      * apply (val_ser _ _ (u :: rest)).
        -- apply heap_lookup_insert. eapply lookup_lt_Some. exact HM.
        -- constructor; [|exact Hv']. exists fu. apply deref_write_away; assumption.
      * apply so_ser_cong. constructor; [|exact So']. apply Hso. exists f. exact Hx.
    + rewrite <- (heap_lookup_insert_ne h M l (u :: rest)) in Hf by congruence.
      destruct (<[M := u :: rest]> h !! l) as [items|] eqn:Hl; [|discriminate Hf].
      destruct (mapo (deref f h) items) as [ts|] eqn:Hm; [|discriminate Hf].
      injection Hf as <-. apply mapo_Forall2 in Hm.
      destruct (Forall2_lift _ _ _ _ Hm IH) as [ts' [Hv' So']].
      exists (TSer ts'). split; [eapply val_ser; eassumption|apply so_ser_cong; exact So'].
  - cbn [deref] in Hf.
    destruct (mapo (deref f h) ms) as [ts|] eqn:Hm; [|discriminate Hf].
    injection Hf as <-. apply mapo_Forall2 in Hm.
    destruct (Forall2_lift _ _ _ _ Hm IH) as [ts' [Hv' So']].
    exists (TPar ts'). split; [apply val_par; exact Hv'|apply so_par_cong; exact So'].
Qed.

End Values.

(** * Placing a step with no constraints *)

Section Unconstrained.
Local Open Scope list_scope.
Variable s : string.

Lemma F2_in_l {A B} (R : A -> B -> Prop) (xs : list A) (ys : list B) (x : A) :
  Forall2 R xs ys -> In x xs -> exists y, In y ys /\ R x y.
Proof.
  induction 1 as [|a b xs ys Hab _ IH]; [intros []|]. intros [<-|Hin].
  - exists b. split; [left; reflexivity|exact Hab].
  - destruct (IH Hin) as [y [Hy Hr]]. exists y. split; [right; exact Hy|exact Hr].
Qed.

Lemma F2_in_r {A B} (R : A -> B -> Prop) (xs : list A) (ys : list B) (y : B) :
  Forall2 R xs ys -> In y ys -> exists x, In x xs /\ R x y.
Proof.
  induction 1 as [|a b xs ys Hab _ IH]; [intros []|]. intros [<-|Hin].
  - exists a. split; [left; reflexivity|exact Hab].
  - destruct (IH Hin) as [x [Hx Hr]]. exists x. split; [right; exact Hx|exact Hr].
Qed.

Lemma vals_exist (h : heap) (cs : list comp) :
  (forall c, In c cs -> exists t, val h c t) -> exists ts, Forall2 (val h) cs ts.
Proof.
  induction cs as [|c cs IH]; intros H; [exists []; constructor|].
  destruct (H c (or_introl eq_refl)) as [t Ht].
  destruct (IH (fun c' Hin => H c' (or_intror Hin))) as [ts Hts].
  exists (t :: ts). constructor; assumption.
Qed.

Lemma py_in_true (f : nat) (h : heap) (x : comp) (kept : list comp) :
  py_in f h x kept = Ok true -> exists k, In k kept /\ py_eq f h x k = Ok true.
Proof.
  induction kept as [|y r IH]; cbn [py_in]; [discriminate|].
  destruct (py_eq f h x y) as [[|]|e] eqn:E; intros H.
  - exists y. split; [left; reflexivity|exact E].
  - destruct (IH H) as [k [Hk Hk']]. exists k. split; [right; exact Hk|exact Hk'].
  - discriminate H.
Qed.

Lemma dedup_into_spec (f : nat) (h : heap) (xs : list comp) :
  forall kept ms, dedup_into f h kept xs = Ok ms ->
  (forall k, In k kept -> In k ms) /\
  (forall x, In x xs -> In x ms \/ exists k, In k ms /\ py_eq f h x k = Ok true).
Proof.
  induction xs as [|x r IH]; intros kept ms H; cbn [dedup_into] in H.
  - injection H as <-. split; [tauto|intros _ []].
  - destruct (py_in f h x kept) as [[|]|e] eqn:E; [| |discriminate H].
    + destruct (IH _ _ H) as [H1 H2]. split; [exact H1|]. intros y [->|Hy]; [|exact (H2 y Hy)].
      right. destruct (py_in_true f h y kept E) as [k [Hk Hk']]. exists k. split; [apply H1|]; assumption.
    + destruct (IH _ _ H) as [H1 H2]. split.
      * intros k Hk. apply H1, in_app_iff. left. exact Hk.
      * intros y [->|Hy]; [|exact (H2 y Hy)]. left. apply H1, in_app_iff. right. left. reflexivity.
Qed.

Lemma py_eq_sub (f : nat) (h : heap) (x k : comp) (tx tk : tree) :
  py_eq f h x k = Ok true -> val h x tx -> val h k tk -> sub_order tx tk.
Proof.
  unfold py_eq. destruct (deref f h x) as [a|] eqn:Ha; [|discriminate].
  destruct (deref f h k) as [b|] eqn:Hb; [|discriminate]. intros E Hx Hk. injection E as E.
  rewrite (val_fun h x tx a Hx (ex_intro _ f Ha)), (val_fun h k tk b Hk (ex_intro _ f Hb)).
  apply tree_eqb_sub. exact E.
Qed.

Lemma reaches_str (h : heap) (x : string) (c : comp) : reaches h (CStr x) c -> c = CStr x.
Proof. intros Hr. inversion Hr; reflexivity. Qed.

(** [_union([x, step])] is a [Parallel] ordering the steps of [x] as [x]
    does, and containing nothing [x] does not contain but [step]. *)
Lemma union_spec (f : nat) (h : heap) (x : comp) (tx : tree) (r : option comp) (h' : heap) :
  val h x tx -> _union f [Some x; Some (CStr s)] h = Ok (r, h') ->
  h' = h /\ exists u tu, r = Some u /\ val h u tu /\ same_order s tu tx /\
    (forall M, ~ reaches h x (CSer M) -> ~ reaches h u (CSer M)).
Proof.
  intros Hx H. unfold _union in H.
  assert (Exs : List.concat (map union_items [Some x; Some (CStr s)]) =
                union_items (Some x) ++ [CStr s]).
  { cbn [map List.concat union_items]. rewrite app_nil_r. reflexivity. }
  rewrite Exs in H.
  assert (Hv : exists txs, Forall2 (val h) (union_items (Some x)) txs /\
                 same_order s (TPar (txs ++ [TStr s])) tx).
  { destruct x as [a|l|ms].
    - exists [tx]. split; [constructor; [exact Hx|constructor]|].
      eapply so_trans; [apply so_par_drop_s|apply so_par_single].
    - exists [tx]. split; [constructor; [exact Hx|constructor]|].
      eapply so_trans; [apply so_par_drop_s|apply so_par_single].
    - destruct (val_par_inv h ms tx Hx) as [tms [Htms ->]]. exists tms.
      split; [exact Htms|apply so_par_drop_s]. }
  destruct Hv as [txs [Htxs Hso]].
  assert (Hall : Forall2 (val h) (union_items (Some x) ++ [CStr s]) (txs ++ [TStr s])).
  { apply Forall2_app; [exact Htxs|constructor; [apply val_str|constructor]]. }
  destruct (union_items (Some x) ++ [CStr s]) as [|y ys] eqn:E.
  { apply app_eq_nil in E as [_ E]. discriminate E. }
  apply bind_ok in H as [u [h1 [H1 H]]]. apply ret_ok in H as [<- <-].
  unfold parallel in H1. apply lift_ok in H1 as [H1 ->].
  destruct (dedup_into f h [] (y :: ys)) as [ms|e] eqn:D; [|discriminate H1].
  injection H1 as <-. rewrite <- E in D, Hall.
  split; [reflexivity|].
  pose proof (dedup_into_incl f h [] _ ms D) as Incl.
  destruct (dedup_into_spec f h _ [] ms D) as [_ Cover].
  destruct (vals_exist h ms) as [tms Htms].
  { intros m Hm. destruct (Incl m Hm) as [[]|Hm'].
    destruct (F2_in_l _ _ _ m Hall Hm') as [t [_ Ht]]. eauto. }
  exists (CPar ms), (TPar tms). split; [reflexivity|]. split; [apply val_par; exact Htms|].
  split.
  - eapply so_trans; [|exact Hso]. apply so_par_sets.
    + intros t Ht. destruct (F2_in_r _ _ _ t Htms Ht) as [m [Hm Hmt]].
      destruct (Incl m Hm) as [[]|Hm'].
      destruct (F2_in_l _ _ _ m Hall Hm') as [t' [Ht' Hmt']].
      rewrite (val_fun h m t t' Hmt Hmt'). exists t'. split; [exact Ht'|apply sub_refl].
    + intros t Ht. destruct (F2_in_r _ _ _ t Hall Ht) as [y' [Hy Hyt]].
      destruct (Cover y' Hy) as [Hm|[k [Hk Hk']]].
      * destruct (F2_in_l _ _ _ y' Htms Hm) as [t' [Ht' Hyt']].
        rewrite (val_fun h y' t t' Hyt Hyt'). exists t'. split; [exact Ht'|apply sub_refl].
      * destruct (F2_in_l _ _ _ k Htms Hk) as [tk [Htk Hkt]].
        exists tk. split; [exact Htk|]. eapply py_eq_sub; eassumption.
  - intros M Hnr Hr. inversion Hr as [|? ? ? ? ? ? ?|ms' m c' Hm Hr' Heq]; subst.
    destruct (Incl m Hm) as [[]|Hm'].
    apply in_app_iff in Hm' as [Hm'|[<-|[]]].
    + apply Hnr. destruct x as [a|l|ms0]; cbn [union_items] in Hm'.
      * destruct Hm' as [<-|[]]. exact Hr'.
      * destruct Hm' as [<-|[]]. exact Hr'.
      * exact (reaches_par h ms0 m _ Hm' Hr').
    + apply reaches_str in Hr'. discriminate Hr'.
Qed.

Lemma has_any_steps_nil (f : nat) : forall h c b, _has_any_steps f h c [] = Ok b -> b = false.
Proof.
  induction f as [|f IH]; intros h [x|l|ms] b H; cbn in H; try discriminate H.
  - injection H as <-. reflexivity.
  - injection H as <-. reflexivity.
  - destruct (h !! l) as [items|]; [|discriminate H].
    induction items as [|y r IHr]; [injection H as <-; reflexivity|].
    destruct (_has_any_steps f h y []) as [[|]|e] eqn:Hy;
      [apply IH in Hy; discriminate Hy|exact (IHr H)|discriminate H].
  - induction ms as [|y r IHr]; [injection H as <-; reflexivity|].
    destruct (_has_any_steps f h y []) as [[|]|e] eqn:Hy;
      [apply IH in Hy; discriminate Hy|exact (IHr H)|discriminate H].
Qed.

Lemma heap_lookup_app_l (h ext : heap) (l : loc) :
  l < List.length h -> (h ++ ext) !! l = h !! l.
Proof. apply lookup_app_l. Qed.

Lemma heap_lookup_alloc (h : heap) (items : list comp) :
  (h ++ [items]) !! List.length h = Some items.
Proof. apply list_lookup_middle. reflexivity. Qed.

Lemma heap_length_insert (h : heap) (M : loc) (items : list comp) :
  List.length (<[M := items]> h) = List.length h.
Proof. apply length_insert. Qed.

Lemma getitem_zero (root : list comp) (x : comp) :
  py_getitem root (-1 + 1) = Ok x -> exists rest, root = x :: rest.
Proof.
  destruct root as [|y rest]; cbn; [discriminate|]. intros H. injection H as ->. eauto.
Qed.

Lemma setitem_zero (cM : loc) (h : heap) (x u : comp) (rest : list comp) (h' : heap) :
  h !! cM = Some (x :: rest) -> setitem cM (-1 + 1) u h = Ok (tt, h') ->
  h' = <[cM := u :: rest]> h.
Proof.
  intros HM H. unfold setitem in H. apply bind_ok in H as [root [h1 [H1 H]]].
  unfold read in H1. rewrite HM in H1. injection H1 as <- <-.
  apply bind_ok in H as [root' [h2 [H2 H]]]. apply lift_ok in H2 as [H2 ->].
  cbn in H2. injection H2 as <-.
  unfold write in H. rewrite HM in H. injection H as <-. reflexivity.
Qed.

(** A [Series] reached from a new [Series([m])] is that one, or reached from [m]. *)
Lemma container_reach (h : heap) (m : comp) (tm : tree) (c' : comp) :
  val h m tm -> reaches (h ++ [[m]]) (CSer (List.length h)) c' ->
  c' = CSer (List.length h) \/ reaches h m c'.
Proof.
  intros Hm Hr. inversion Hr as [|l items c c'' Hl Hin Hr' Heq1 Heq2|]; subst.
  - left. reflexivity.
  - right. rewrite heap_lookup_alloc in Hl. injection Hl as <-. destruct Hin as [<-|[]].
    apply (reaches_back h (h ++ [[m]])); [apply extends_alloc|exact Hr'|].
    intros l' Hr''. eapply val_reaches_defined; eassumption.
Qed.

Lemma ibp_instr (f : nat) : forall cM idx pred h ins h',
  _insert_before_postrequisites f cM idx pred s [] h = Ok (ins, h') ->
  ins = [InsertParallel pred s].
Proof.
  induction f as [|f IH]; intros cM idx pred h ins h' H; [discriminate H|].
  cbn [_insert_before_postrequisites] in H.
  apply bind_ok in H as [root [h1 [_ H]]].
  apply bind_ok in H as [succ [h2 [_ H]]].
  destruct succ as [a|l|[|m [|m2 r]]]; cbv beta iota in H.
  4: { apply bind_ok in H as [c [h3 [_ H]]]. apply bind_ok in H as [ins1 [h4 [H4 H]]].
       apply IH in H4 as ->. apply bind_ok in H as [croot [h5 [_ H]]].
       apply bind_ok in H as [u [h6 [_ H]]]. apply ret_ok in H as [<- _]. reflexivity. }
  2: { exact (IH _ _ _ _ _ _ H). }
  all: apply bind_ok in H as [has [h3 [H3 H]]]; apply lift_ok in H3 as [H3 ->];
       apply has_any_steps_nil in H3; subst has; cbv beta iota in H;
       apply bind_ok in H as [un [h4 [_ H]]]; destruct un as [u|]; [|discriminate H];
       apply bind_ok in H as [v [h5 [_ H]]]; apply ret_ok in H as [<- _]; reflexivity.
Qed.

Lemma union_write_case (f : nat) (cM : loc) (h : heap) (x : comp) (rest : list comp)
  (tx tc : tree) (h' : heap) :
  h !! cM = Some (x :: rest) -> val h x tx -> val h (CSer cM) tc ->
  (let* u' := _union f [Some x; Some (CStr s)] in
   match u' with Some u' => setitem cM (-1 + 1) u' | None => ret tt end) h = Ok (tt, h') ->
  preserves s h h' /\ List.length h <= List.length h' /\
  (forall l, l <> cM -> h' !! l = h !! l).
Proof.
  intros HM Hx Hc H. apply bind_ok in H as [un [h1 [H1 H]]].
  destruct (union_spec f h x tx un h1 Hx H1) as [-> [u [tu [-> [Hu [Hso Hnr]]]]]].
  rewrite (setitem_zero cM h x u rest h' HM H).
  split; [|split].
  - apply (write_preserves s h cM x u rest tu HM Hu).
    + intros tx' Hx'. rewrite <- (val_fun h x tx tx' Hx Hx'). exact Hso.
    + apply Hnr. eapply no_cycle; [exact Hc|exact HM|left; reflexivity].
  - rewrite heap_length_insert. lia.
  - intros l Hl. apply heap_lookup_insert_ne. congruence.
Qed.

Lemma ibp_union_case (f : nat) (cM : loc) (pred : option string) (h : heap) (x : comp)
  (rest : list comp) (tx tc : tree) (ins : list instr) (h' : heap) :
  h !! cM = Some (x :: rest) -> val h x tx -> val h (CSer cM) tc ->
  (let* union := _union f [Some x; Some (CStr s)] in
   match union with
   | None => raise AssertionError
   | Some u => let* _ := setitem cM (-1 + 1) u in ret [InsertParallel pred s]
   end) h = Ok (ins, h') ->
  preserves s h h' /\ List.length h <= List.length h' /\
  (forall l, l <> cM -> h' !! l = h !! l).
Proof.
  intros HM Hx Hc H. apply bind_ok in H as [un [h1 [H1 H]]].
  destruct un as [u|]; [|discriminate H].
  apply bind_ok in H as [[] [h2 [H2 H]]]. apply ret_ok in H as [_ <-].
  apply (union_write_case f cM h x rest tx tc h2 HM Hx Hc).
  unfold bind. rewrite H1. exact H2.
Qed.

(** [_insert_before_postrequisites] with no postrequisites keeps the order of
    every structure of the store, and changes no [Series] that the component
    does not contain and that existed before. *)
Lemma ibp_preserves (f : nat) : forall cM pred h ins h' tc,
  val h (CSer cM) tc ->
  _insert_before_postrequisites f cM (-1) pred s [] h = Ok (ins, h') ->
  preserves s h h' /\ List.length h <= List.length h' /\
  (forall l, l < List.length h -> ~ reaches h (CSer cM) (CSer l) -> h' !! l = h !! l).
Proof.
  induction f as [|f IH]; intros cM pred h ins h' tc Hc H; [discriminate H|].
  cbn [_insert_before_postrequisites] in H.
  apply bind_ok in H as [root [h1 [H1 H]]]. unfold read in H1.
  destruct (h !! cM) as [items|] eqn:HM; [|discriminate H1]. injection H1 as <- <-.
  apply bind_ok in H as [succ [h2 [H2 H]]]. apply lift_ok in H2 as [H2 ->].
  destruct (getitem_zero _ _ H2) as [rest ->].
  destruct (val_ser_inv h cM tc Hc) as [items' [ts [HM' [Hts _]]]].
  rewrite HM in HM'. injection HM' as <-.
  inversion Hts as [|? tx ? trest Hx Hrest]; subst.
  assert (Hself : forall l, ~ reaches h (CSer cM) (CSer l) -> l <> cM).
  { intros l Hn ->. apply Hn, reaches_refl. }
  destruct succ as [a|l|[|m [|m2 r]]]; cbv beta iota in H.
  4: {
    destruct (val_par_inv h [m] tx Hx) as [tms [Htms ->]].
    inversion Htms as [|? tm ? ? Hm _]; subst.
    apply bind_ok in H as [cont [h3 [H3 H]]]. unfold alloc in H3. injection H3 as <- <-.
    apply bind_ok in H as [ins1 [h4 [H4 H]]].
    assert (Hcont : val (h ++ [[m]]) (CSer (List.length h)) (TSer [tm])).
    { apply (val_ser _ _ [m]); [apply heap_lookup_alloc|]. constructor; [|constructor].
      eapply val_extend; [apply extends_alloc|exact Hm]. }
    destruct (IH _ _ _ _ _ _ Hcont H4) as [P4 [Len4 Fr4]].
    assert (Away : forall l, l < List.length h -> ~ reaches h (CPar [m]) (CSer l) ->
                   h4 !! l = h !! l).
    { intros l Hl Hn. rewrite Fr4.
      - apply heap_lookup_app_l. exact Hl.
      - rewrite length_app. cbn. lia.
      - intros Hr. destruct (container_reach h m tm _ Hm Hr) as [E|Hr'].
        + injection E as E. lia.
        + apply Hn. exact (reaches_par h [m] m _ (or_introl eq_refl) Hr'). }
    assert (HM4 : h4 !! cM = Some (CPar [m] :: rest)).
    { rewrite Away; [exact HM|eapply lookup_lt_Some; exact HM|].
      eapply no_cycle; [exact Hc|exact HM|left; reflexivity]. }
    assert (P14 : preserves s h h4).
    { eapply preserves_trans; [apply extends_preserves, extends_alloc|exact P4]. }
    assert (Len14 : List.length h <= List.length h4).
    { rewrite length_app in Len4. lia. }
    apply bind_ok in H as [croot [h5 [H5 H]]]. unfold read in H5.
    match type of H5 with
    | match ?t with _ => _ end = _ => destruct t as [cr|]; [|discriminate H5]
    end.
    injection H5 as <- <-.
    apply bind_ok in H as [[] [h6 [H6 H]]]. apply ret_ok in H as [_ <-].
    assert (Hfin : preserves s h4 h6 /\ List.length h4 <= List.length h6 /\
                   (forall l, l <> cM -> h6 !! l = h4 !! l)).
    { destruct (Nat.eqb (List.length cr) 1);
        [|apply ret_ok in H6 as [_ <-]; split; [apply preserves_refl|split; [lia|reflexivity]]].
      apply bind_ok in H6 as [c0 [h7 [H7 H6]]]. apply lift_ok in H7 as [_ ->].
      destruct (P14 _ _ Hx) as [tx4 [Hx4 _]].
      destruct (P14 _ _ Hc) as [tc4 [Hc4 _]].
      apply bind_ok in H6 as [un [h8 [H8 H6]]].
      destruct (union_spec f h4 _ tx4 un h8 Hx4 H8) as [-> [u [tu [-> _]]]].
      apply bind_ok in H6 as [same [h9 [H9 H6]]]. apply lift_ok in H9 as [_ ->].
      destruct same;
        [|apply ret_ok in H6 as [_ <-]; split; [apply preserves_refl|split; [lia|reflexivity]]].
      exact (union_write_case f cM h4 _ rest tx4 tc4 h6 HM4 Hx4 Hc4 H6). }
    destruct Hfin as [P46 [Len46 Fr46]].
    split; [eapply preserves_trans; eassumption|split; [lia|]].
    intros l Hl Hn. rewrite Fr46 by exact (Hself l Hn). apply Away; [exact Hl|].
    intros Hr. apply Hn. eapply reaches_ser; [exact HM|left; reflexivity|exact Hr]. }
  2: {
    destruct (IH l pred h ins h' tx Hx H) as [P [Len Fr]].
    split; [exact P|split; [exact Len|]].
    intros l' Hl' Hn. apply Fr; [exact Hl'|]. intros Hr. apply Hn.
    eapply reaches_ser; [exact HM|left; reflexivity|exact Hr]. }
  all: apply bind_ok in H as [has [h3 [H3 H]]]; apply lift_ok in H3 as [H3 ->];
       apply has_any_steps_nil in H3; subst has; cbv beta iota in H;
       destruct (ibp_union_case f cM pred h _ rest tx tc ins h' HM Hx Hc H)
         as [P [Len Fr]];
       (split; [exact P|split; [exact Len|]]);
       intros l' Hl' Hn; apply Fr, Hself, Hn.
Qed.

(** With no prerequisites, [_insert_step] finds no anchor: it returns no
    instruction and only allocates. *)
Lemma insert_step_nil (post : list string) (f : nat) : forall cl h ins h',
  _insert_step f cl s [] post h = Ok (ins, h') -> ins = [] /\ extends h h'.
Proof.
  induction f as [|f IH]; intros cl h ins h' H; [discriminate H|].
  cbn [_insert_step] in H.
  apply bind_ok in H as [root [h1 [H1 H]]]. unfold read in H1.
  destruct (h !! cl) as [items|]; [injection H1 as _ <-|discriminate H1].
  revert ins h' H. generalize (rev (enumerate root)) as xs. intros xs. revert h.
  induction xs as [|[idx sc] r IHr]; intros h0 ins h' H.
  - cbv beta iota fix in H. apply ret_ok in H as [<- <-]. split; [reflexivity|apply extends_refl].
  - cbv beta iota fix in H. destruct sc as [x|l|ms]; cbv beta iota in H.
    + change (mem x []) with false in H. cbv beta iota in H. exact (IHr h0 ins h' H).
    + apply bind_ok in H as [added [h2 [H2 H]]].
      destruct (IH l h0 added h2 H2) as [-> E2]. cbv beta iota in H.
      destruct (IHr h2 ins h' H) as [-> E]. split; [reflexivity|].
      eapply extends_trans; eassumption.
    + apply bind_ok in H as [c [h2 [H2 H]]]. unfold alloc in H2. injection H2 as <- <-.
      apply bind_ok in H as [added [h3 [H3 H]]].
      destruct (IH _ _ added h3 H3) as [-> E3]. cbv beta iota in H.
      destruct (IHr h3 ins h' H) as [-> E]. split; [reflexivity|].
      eapply extends_trans; [apply extends_alloc|]. eapply extends_trans; eassumption.
Qed.

(** ** With no prerequisites and no postrequisites *)

Lemma empty_input_stepless (h : heap) (c : comp) (t : tree) :
  is_empty_input h c = true -> val h c t -> tree_steps t = [].
Proof.
  intros He Hv. destruct c as [x|l|ms]; cbn in He.
  - discriminate He.
  - destruct (h !! l) as [[|y ys]|] eqn:Hl; try discriminate He.
    destruct (val_ser_inv h l t Hv) as [items [ts [Hl' [HF ->]]]].
    rewrite Hl in Hl'. injection Hl' as <-. inversion HF; subst. reflexivity.
  - destruct ms; [|discriminate He].
    destruct (val_par_inv h [] t Hv) as [ts [HF ->]]. inversion HF; subst. reflexivity.
Qed.

Lemma filter_drops (h : heap) (items : list comp) (ts : list tree) :
  Forall2 (val h) items ts ->
  exists ts', Forall2 (val h) (List.filter (fun c => negb (is_empty_input h c)) items) ts' /\
    drops (fun t => tree_steps t = []) ts' ts.
Proof.
  induction 1 as [|x t xs ts Hx _ [ts' [HF HD]]].
  - exists []. split; constructor.
  - cbn [List.filter]. destruct (is_empty_input h x) eqn:He; cbn [negb].
    + exists ts'. split; [exact HF|]. apply drops_skip; [|exact HD].
      exact (empty_input_stepless h x t He Hx).
    + exists (t :: ts'). split; [constructor; assumption|]. apply drops_keep. exact HD.
Qed.

(** A new [Series] of [items], the empty inputs left out. *)
Lemma alloc_filtered_val (h : heap) (items : list comp) (ts : list tree) :
  Forall2 (val h) items ts ->
  exists ts', val (h ++ [List.filter (fun c => negb (is_empty_input h c)) items])
                (CSer (List.length h)) (TSer ts') /\
    same_order s (TSer ts') (TSer ts).
Proof.
  intros HF. destruct (filter_drops h items ts HF) as [ts' [HF' HD]].
  exists ts'. split; [|apply so_drops; exact HD].
  apply (val_ser _ _ (List.filter (fun c => negb (is_empty_input h c)) items));
    [apply heap_lookup_alloc|].
  apply (Forall2_val_extend h); [apply extends_alloc|exact HF'].
Qed.

Lemma zone_val_extend (h h' : heap) (o : option comp) (t : tree) :
  extends h h' -> zone_val s h o t -> zone_val s h' o t.
Proof.
  intros E. destruct o as [z|]; [|tauto]. intros [tz [Hz Ho]].
  exists tz. split; [exact (val_extend h h' z tz E Hz)|exact Ho].
Qed.

Lemma zone_val_so (h : heap) (o : option comp) (t t' : tree) :
  zone_val s h o t -> same_order s t t' -> zone_val s h o t'.
Proof.
  destruct o as [z|]; cbn.
  - intros [tz [Hz Ho]] Ht. exists tz. split; [exact Hz|eapply so_trans; eassumption].
  - intros Ho Ht. eapply so_trans; eassumption.
Qed.

Lemma nondep_val_extend (h h' : heap) (p : Partition) (t : tree) :
  extends h h' -> nondep_val s h p t -> nondep_val s h' p t.
Proof.
  intros E (H1 & H2 & H3). split; [exact H1|split; [exact H2|]].
  exact (zone_val_extend h h' _ t E H3).
Qed.

Lemma Forall2_nondep_extend (h h' : heap) (ps : list Partition) (ts : list tree) :
  extends h h' -> Forall2 (nondep_val s h) ps ts -> Forall2 (nondep_val s h') ps ts.
Proof.
  intros E. induction 1; constructor; [exact (nondep_val_extend h h' _ _ E H)|assumption].
Qed.

Lemma zone_items_val (h : heap) (o : option comp) (t : tree) (p : list comp) :
  zone_val s h o t -> zone_items h o = Some p ->
  exists tsp, Forall2 (val h) p tsp /\ same_order s (TSer tsp) t.
Proof.
  destruct o as [z|]; cbn.
  - intros [tz [Hz Ho]] Hp. destruct z as [x|l|ms].
    + injection Hp as <-. exists [tz]. split; [constructor; [exact Hz|constructor]|].
      eapply so_trans; [apply so_ser_single|exact Ho].
    + destruct (val_ser_inv h l tz Hz) as [items [ts [Hl [HF ->]]]].
      rewrite Hl in Hp. injection Hp as <-. exists ts. split; assumption.
    + injection Hp as <-. exists [tz]. split; [constructor; [exact Hz|constructor]|].
      eapply so_trans; [apply so_ser_single|exact Ho].
  - intros Ho Hp. injection Hp as <-. exists []. split; [constructor|exact Ho].
Qed.

Lemma zones_items_val (h : heap) (zs : list (option comp)) (ts : list tree) :
  Forall2 (zone_val s h) zs ts -> forall parts, mapo (zone_items h) zs = Some parts ->
  exists tss, Forall2 (val h) (List.concat parts) (List.concat tss) /\
    Forall2 (fun tsp t => same_order s (TSer tsp) t) tss ts.
Proof.
  induction 1 as [|z t zs ts Hz _ IH]; intros parts Hp.
  - cbn in Hp. injection Hp as <-. exists []. split; constructor.
  - cbn in Hp. destruct (zone_items h z) as [p|] eqn:Hzp; [|discriminate Hp].
    destruct (mapo (zone_items h) zs) as [ps|] eqn:Hps; [|discriminate Hp].
    injection Hp as <-.
    destruct (zone_items_val h z t p Hz Hzp) as [tsp [Hv Ho]].
    destruct (IH ps eq_refl) as [tss [Hv' Ho']].
    exists (tsp :: tss). split; [cbn [List.concat]; apply Forall2_app; assumption|].
    constructor; assumption.
Qed.

(** [_concat] of zones standing for [ts] stands for [Series(ts)]. *)
Lemma concat_val (h h' : heap) (zs : list (option comp)) (ts : list tree) (r : option loc) :
  Forall2 (zone_val s h) zs ts -> _concat zs h = Ok (r, h') ->
  extends h h' /\ zone_val s h' (CSer <$> r) (TSer ts).
Proof.
  intros HF H. destruct (_concat_spec zs h r h' H) as [parts [Hp Hc]].
  destruct (zones_items_val h zs ts HF parts Hp) as [tss [Hv Ho]].
  assert (Hso : same_order s (TSer (List.concat tss)) (TSer ts)).
  { eapply so_trans; [apply so_flatten|]. apply so_ser_cong.
    clear - Ho. induction Ho; constructor; assumption. }
  destruct Hc as [[He [-> ->]]|[_ [-> ->]]].
  - split; [apply extends_refl|]. cbn. rewrite He in Hv.
    destruct (List.concat tss) eqn:Ec; [exact Hso|inversion Hv].
  - split; [apply extends_alloc|]. cbn.
    destruct (alloc_filtered_val h _ _ Hv) as [ts' [Hv' Ho']].
    exists (TSer ts'). split; [exact Hv'|eapply so_trans; eassumption].
Qed.

Lemma wrap_series_val (h h' : heap) (o r : option comp) (t : tree) :
  zone_val s h o t -> wrap_series o h = Ok (r, h') ->
  extends h h' /\ zone_val s h' r (TSer [t]).
Proof.
  intros Hz H. unfold wrap_series in H. destruct o as [x|].
  - apply bind_ok in H as [l [h1 [H1 H]]]. apply ret_ok in H as [<- <-].
    unfold series, alloc in H1. injection H1 as <- <-.
    destruct Hz as [tz [Hx Ho]].
    destruct (alloc_filtered_val h [x] [tz]) as [ts' [Hv Ho']];
      [constructor; [exact Hx|constructor]|].
    split; [apply extends_alloc|]. exists (TSer ts'). split; [exact Hv|].
    eapply so_trans; [exact Ho'|]. apply so_ser_cong. constructor; [exact Ho|constructor].
  - apply ret_ok in H as [<- <-]. split; [apply extends_refl|]. cbn.
    eapply so_trans; [exact Hz|]. apply so_sym, so_ser_single.
Qed.

Lemma so_pair_l (tx ty : tree) : same_order s (TSer []) tx -> same_order s ty (TSer [tx; ty]).
Proof.
  intros Hx.
  assert (D : drops (fun t => tree_steps t = []) [ty] [TSer []; ty])
    by (apply drops_skip; [reflexivity|apply drops_keep, drops_nil]).
  eapply so_trans; [apply so_sym, so_ser_single|].
  eapply so_trans; [exact (so_drops s _ _ D)|].
  apply so_ser_cong. constructor; [exact Hx|constructor; [apply so_refl|constructor]].
Qed.

Lemma so_pair_r (tx ty : tree) : same_order s (TSer []) ty -> same_order s tx (TSer [tx; ty]).
Proof.
  intros Hy.
  assert (D : drops (fun t => tree_steps t = []) [tx] [tx; TSer []])
    by (apply drops_keep, drops_skip; [reflexivity|apply drops_nil]).
  eapply so_trans; [apply so_sym, so_ser_single|].
  eapply so_trans; [exact (so_drops s _ _ D)|].
  apply so_ser_cong. constructor; [apply so_refl|constructor; [exact Hy|constructor]].
Qed.

Lemma zone_merge_val (x y r : option comp) (h h' : heap) (tx ty : tree) :
  zone_val s h x tx -> zone_val s h y ty ->
  (match x, y with
   | None, _ => ret y
   | _, None => ret x
   | Some _, Some _ => let* c := _concat [x; y] in ret (CSer <$> c)
   end) h = Ok (r, h') ->
  extends h h' /\ zone_val s h' r (TSer [tx; ty]).
Proof.
  intros Hx Hy H. destruct x as [x|], y as [y|]; cbv beta iota in H.
  - apply bind_ok in H as [c [h1 [H1 H2]]]. apply ret_ok in H2 as [<- <-].
    apply (concat_val h h1 [Some x; Some y]); [|exact H1].
    constructor; [exact Hx|constructor; [exact Hy|constructor]].
  - apply ret_ok in H as [<- <-]. split; [apply extends_refl|].
    eapply zone_val_so; [exact Hx|]. apply so_pair_r. exact Hy.
  - apply ret_ok in H as [<- <-]. split; [apply extends_refl|].
    eapply zone_val_so; [exact Hy|]. apply so_pair_l. exact Hx.
  - apply ret_ok in H as [<- <-]. split; [apply extends_refl|].
    eapply zone_val_so; [exact Hy|]. apply so_pair_l. exact Hx.
Qed.

(** One step of [functools.reduce(_op_series_merge_partitions, ...)]. *)
Lemma op_nondep (h h' : heap) (p n m : Partition) (prefix : list tree) (tn : tree) :
  nondep_val s h p (TSer prefix) -> nondep_val s h n tn ->
  _op_series_merge_partitions p n h = Ok (m, h') ->
  extends h h' /\ nondep_val s h' m (TSer (prefix ++ [tn])).
Proof.
  intros (Pp & Qp & Zp) (Pn & Qn & Zn) H.
  unfold _op_series_merge_partitions in H. rewrite Pn, Pp, Qp, Qn in H.
  change (@is_not_none comp None) with false in H. rewrite andb_false_r in H.
  cbv beta zeta iota in H.
  apply bind_ok in H as [pre [h1 [H1 H]]]. apply ret_ok in H1 as [<- <-].
  apply bind_ok in H as [non [h2 [H2 H]]].
  destruct (zone_merge_val _ _ non h h2 _ _ Zp Zn H2) as [E2 Z2].
  apply bind_ok in H as [post [h3 [H3 H]]]. apply ret_ok in H3 as [<- <-].
  apply ret_ok in H as [<- <-].
  split; [exact E2|]. split; [reflexivity|split; [reflexivity|]].
  cbn [nondependent_component]. eapply zone_val_so; [exact Z2|].
  pose proof (so_flatten s [prefix; [tn]]) as F. cbn [List.concat map] in F.
  rewrite app_nil_r in F.
  eapply so_trans; [|apply so_sym; exact F].
  apply so_ser_cong. constructor; [apply so_refl|constructor; [|constructor]].
  apply so_sym, so_ser_single.
Qed.

Lemma reduce_nondep (ps : list Partition) : forall (ts : list tree) (acc r : Partition)
  (prefix : list tree) (h h' : heap),
  Forall2 (nondep_val s h) ps ts -> nondep_val s h acc (TSer prefix) ->
  reduceM _op_series_merge_partitions acc ps h = Ok (r, h') ->
  extends h h' /\ nondep_val s h' r (TSer (prefix ++ ts)).
Proof.
  induction ps as [|p ps IH]; intros ts acc r prefix h h' HF Ha H;
    inversion HF as [|? t ? ts' Hp Hr]; subst; cbn [reduceM] in H.
  - apply ret_ok in H as [<- <-]. rewrite app_nil_r. split; [apply extends_refl|exact Ha].
  - apply bind_ok in H as [acc' [h1 [H1 H]]].
    destruct (op_nondep h h1 acc p acc' prefix t Ha Hp H1) as [E1 A1].
    destruct (IH ts' acc' r (prefix ++ [t]) h1 h' (Forall2_nondep_extend h h1 _ _ E1 Hr) A1 H)
      as [E2 A2].
    split; [eapply extends_trans; eassumption|]. rewrite <- app_assoc in A2. exact A2.
Qed.

Lemma series_partitions_nondep
  (pc : comp -> option string -> M (Partition * list instr))
  (items : list comp) : forall (ts : list tree) (pred : option string) (h h' : heap)
  (ps : list Partition) (ins : list instr),
  (forall x t pred0 h0 h1 p i, In x items -> val h0 x t ->
     pc x pred0 h0 = Ok ((p, i), h1) -> extends h0 h1 /\ i = [] /\ nondep_val s h1 p t) ->
  Forall2 (val h) items ts ->
  _get_series_partitions pc items pred h = Ok ((ps, ins), h') ->
  extends h h' /\ ins = [] /\ Forall2 (nondep_val s h') ps ts.
Proof.
  induction items as [|x r IH]; intros ts pred h h' ps ins Hpc HF H; simpl in H;
    inversion HF as [|? t ? ts' Hx Hr]; subst.
  - apply ret_ok in H as [Heq <-]. injection Heq as <- <-.
    split; [apply extends_refl|split; [reflexivity|constructor]].
  - apply bind_ok in H as [[p i] [h1 [H1 H]]]. cbv beta iota in H.
    destruct (Hpc x t pred h h1 p i (or_introl eq_refl) Hx H1) as (E1 & -> & N1).
    apply bind_ok in H as [[ps' is'] [h2 [H2 H]]]. cbv beta iota in H.
    apply ret_ok in H as [Heq <-]. injection Heq as <- <-.
    destruct (IH ts' (Some (top_ranked_endpoint p)) h1 h2 ps' is'
                (fun x0 t0 pred0 h0 h3 p0 i0 Hin => Hpc x0 t0 pred0 h0 h3 p0 i0 (or_intror Hin))
                (Forall2_val_extend _ _ _ _ E1 Hr) H2) as (E2 & -> & N2).
    split; [exact (extends_trans _ _ _ E1 E2)|split; [reflexivity|]].
    constructor; [exact (nondep_val_extend _ _ _ _ E2 N1)|exact N2].
Qed.

Lemma tuples_nondep (tuples : list (Partition * list instr)) :
  Forall (fun q => prerequisite_component (fst q) = None /\
                   postrequisite_component (fst q) = None /\ snd q = []) tuples ->
  existsb (fun p => is_not_none (prerequisite_component p)) (map fst tuples) = false /\
  existsb (fun p => is_not_none (postrequisite_component p)) (map fst tuples) = false /\
  List.concat (map snd tuples) = [].
Proof.
  induction 1 as [|q qs (A & B & C) _ (IA & IB & IC)]; [split; [|split]; reflexivity|].
  cbn [existsb map List.concat]. rewrite A, B, C, IA, IB, IC. split; [|split]; reflexivity.
Qed.

Lemma part_str (fuel : nat) (x : string) (pred : option string) (h h' : heap)
  (P : Partition) (ins : list instr) (t : tree) :
  val h (CStr x) t -> partition_component fuel (CStr x) pred [] [] h = Ok ((P, ins), h') ->
  extends h h' /\ ins = [] /\ nondep_val s h' P t.
Proof.
  intros Hc H. apply val_str_inv in Hc as ->.
  destruct fuel; cbn [partition_component mem existsb] in H;
    apply ret_ok in H as [Heq <-]; injection Heq as <- <-;
    (split; [apply extends_refl|split; [reflexivity|]]);
    (split; [reflexivity|split; [reflexivity|]]);
    exists (TStr x); (split; [apply val_str|apply so_refl]).
Qed.

(** [partition_component] with no prerequisites and no postrequisites puts
    the whole component in the nondependent zone and gives no instruction. *)
Lemma part_nodep (fuel : nat) : forall c pred h P ins h' t,
  val h c t -> partition_component fuel c pred [] [] h = Ok ((P, ins), h') ->
  extends h h' /\ ins = [] /\ nondep_val s h' P t.
Proof.
  induction fuel as [|f IH]; intros c pred h P ins h' t Hc H;
    (destruct c as [x|l|ms]; [exact (part_str _ x pred h h' P ins t Hc H)| |]);
    try discriminate H.
  - cbn [partition_component] in H.
    apply bind_ok in H as [items [h1 [H1 H]]]. unfold read in H1.
    destruct (h !! l) as [its|] eqn:Hl; [|discriminate]. injection H1 as -> <-.
    destruct (val_ser_inv h l t Hc) as [its' [ts [Hl' [HF ->]]]].
    rewrite Hl in Hl'. injection Hl' as <-.
    apply bind_ok in H as [[ps i] [h2 [H2 H]]]. cbv beta iota in H.
    destruct (series_partitions_nondep _ items ts pred h h2 ps i
                (fun x t0 pred0 h0 h1 p0 i0 _ Hx Hp => IH x pred0 h0 p0 i0 h1 t0 Hx Hp) HF H2)
      as (E2 & -> & F2).
    destruct ps as [|p0 [|p1 rest]].
    + discriminate H.
    + inversion F2 as [|? t1 ? ? (Q1 & Q2 & Q3) Fn]; subst. inversion Fn; subst.
      apply bind_ok in H as [a [h3 [H3 H]]]. rewrite Q1 in H3. cbn [wrap_series] in H3.
      apply ret_ok in H3 as [<- <-].
      apply bind_ok in H as [b [h4 [H4 H]]].
      destruct (wrap_series_val _ _ _ _ _ Q3 H4) as [E4 Z4].
      apply bind_ok in H as [d [h5 [H5 H]]]. rewrite Q2 in H5. cbn [wrap_series] in H5.
      apply ret_ok in H5 as [<- <-].
      apply ret_ok in H as [Heq <-]. injection Heq as <- <-.
      split; [exact (extends_trans _ _ _ E2 E4)|split; [reflexivity|]].
      split; [reflexivity|split; [reflexivity|exact Z4]].
    + inversion F2 as [|? t0 ? ts' N0 Nr]; subst.
      apply bind_ok in H as [m [h3 [H3 H]]]. apply ret_ok in H as [Heq <-].
      injection Heq as <- <-.
      assert (N0' : nondep_val s h2 p0 (TSer [t0])).
      { destruct N0 as (A & B & C). split; [exact A|split; [exact B|]].
        eapply zone_val_so; [exact C|apply so_sym, so_ser_single]. }
      destruct (reduce_nondep (p1 :: rest) ts' p0 m [t0] h2 _ Nr N0' H3) as [E3 N3].
      split; [exact (extends_trans _ _ _ E2 E3)|split; [reflexivity|exact N3]].
  - cbn [partition_component] in H.
    destruct (val_par_inv h ms t Hc) as [ts [HF ->]].
    apply bind_ok in H as [tuples [h1 [H1 H]]].
    destruct (mapM_fresh (fun m => partition_component f m pred [] [])
                (fun h0 m => exists tm, val h0 m tm)
                (fun h0 q => prerequisite_component (fst q) = None /\
                             postrequisite_component (fst q) = None /\ snd q = [])
                ms h h1 tuples) as [E1 Q1].
    { intros h0 h3 x E [tm Hx]. exists tm. exact (val_extend _ _ _ _ E Hx). }
    { intros h0 h3 y _ Hy. exact Hy. }
    { intros x h0 [q i] h3 _ [tm Hx] Hq.
      destruct (IH x pred h0 q i h3 tm Hx Hq) as (E & -> & (A & B & _)).
      split; [exact E|split; [exact A|split; [exact B|reflexivity]]]. }
    { clear - HF. induction HF; constructor; eauto. }
    { exact H1. }
    destruct (tuples_nondep _ Q1) as (T1 & T2 & T3).
    cbv beta zeta in H. rewrite T1, T2 in H. cbn [andb] in H.
    apply bind_ok in H as [top [h2 [H2 H]]]. apply lift_ok in H2 as [_ ->].
    apply ret_ok in H as [Heq <-]. injection Heq as <- <-.
    split; [exact E1|split; [exact T3|]].
    split; [reflexivity|split; [reflexivity|]].
    exists (TPar ts). split; [exact (val_extend _ _ _ _ E1 Hc)|apply so_refl].
Qed.

(** [_flatten_partition] of such a partition is a [Series] standing for [t]. *)
Lemma flatten_nondep (h h' : heap) (p : Partition) (l : loc) (t : tree) :
  nondep_val s h p t -> _flatten_partition p h = Ok (l, h') ->
  extends h h' /\ exists t', val h' (CSer l) t' /\ same_order s t' t.
Proof.
  intros (A & B & C) H. unfold _flatten_partition in H. rewrite A, B in H.
  apply bind_ok in H as [c [h1 [H1 H]]].
  destruct (concat_val h h1 [None; nondependent_component p; None] [TSer []; t; TSer []] c)
    as [E1 Z1].
  { constructor; [apply so_refl|constructor; [exact C|constructor; [apply so_refl|constructor]]]. }
  { exact H1. }
  destruct c as [l'|]; [|discriminate H]. apply ret_ok in H as [<- <-].
  destruct Z1 as [tz [Hz Hso]].
  split; [exact E1|]. exists tz. split; [exact Hz|].
  eapply so_trans; [exact Hso|].
  assert (D : drops (fun t => tree_steps t = []) [t] [TSer []; t; TSer []])
    by (apply drops_skip; [reflexivity|apply drops_keep, drops_skip; [reflexivity|apply drops_nil]]).
  eapply so_trans; [apply so_sym; exact (so_drops s _ _ D)|apply so_ser_single].
Qed.

End Unconstrained.

(** ** C1 *)

(** Claim C1 (amended): when [add] is called with empty prerequisite and
    postrequisite sets, it returns exactly the instruction
    [InsertParallel(after=None, step=s)], and its solution keeps every
    pre-existing step other than [s] and runs every pair of them in the
    same order as the original pipeline: a pair [(a, b)] is ordered
    [a]-before-[b] in the solution exactly when it is in the pipeline. *)
Theorem add_no_constraints_keeps_order (depth fuel : nat) (h : heap) (pipeline : loc)
  (t0 : tree) (s : string) (r : WeldResult) (h' : heap) :
  deref depth h (CSer pipeline) = Some t0 ->
  add fuel pipeline s [] [] h = Ok (r, h') ->
  instructions r = [InsertParallel None s] /\
  exists t1, val h' (solution r) t1 /\
    (forall a, a <> s -> In a (tree_steps t1) <-> In a (tree_steps t0)) /\
    (forall a b, a <> s -> b <> s ->
       In (a, b) (tree_pairs t1) <-> In (a, b) (tree_pairs t0)).
Proof.
  intros Hd H. unfold add in H.
  assert (Hv : val h (CSer pipeline) t0) by (exists depth; exact Hd).
  apply bind_ok in H as [root [h1 [H1 H]]]. unfold read in H1.
  destruct (h !! pipeline) as [its|] eqn:Hl; [|discriminate]. injection H1 as -> <-.
  assert (Hfin : instructions r = [InsertParallel None s] /\
                 exists t1, val h' (solution r) t1 /\ same_order s t1 t0).
  { destruct root as [|x rest]; cbv beta iota in H.
    - apply bind_ok in H as [l [h2 [H2 H]]]. apply ret_ok in H as [<- <-].
      unfold series, alloc in H2. injection H2 as <- <-.
      destruct (val_ser_inv h pipeline t0 Hv) as [its' [ts [Hl' [HF ->]]]].
      rewrite Hl in Hl'. injection Hl' as <-. inversion HF; subst.
      split; [reflexivity|]. exists (TSer [TStr s]). split.
      + cbn [solution]. apply (val_ser _ _ [CStr s]); [apply heap_lookup_alloc|].
        constructor; [apply val_str|constructor].
      + split.
        * intros a Ha. cbn. split; [intros [E|[]]; congruence|intros []].
        * intros a b _ _. cbn. split; intros [].
    - apply bind_ok in H as [[p ins] [h2 [H2 H]]]. cbv beta iota in H.
      destruct (part_nodep s fuel (CSer pipeline) None h p ins h2 t0 Hv H2) as (E2 & -> & N2).
      apply bind_ok in H as [l [h3 [H3 H]]].
      destruct (flatten_nondep s h2 h3 p l t0 N2 H3) as [E3 [t' [Ht' So']]].
      apply bind_ok in H as [ni [h4 [H4 H]]].
      destruct (insert_step_nil s [] fuel l h3 ni h4 H4) as [-> E4].
      apply bind_ok in H as [ni' [h5 [H5 H]]]. cbv beta iota in H5.
      apply ret_ok in H as [<- <-]. cbn [instructions solution].
      rewrite (ibp_instr s fuel _ _ _ _ _ _ H5).
      split; [reflexivity|].
      pose proof (val_extend _ _ _ _ E4 Ht') as Ht4.
      destruct (ibp_preserves s fuel l None h4 ni' h5 t' Ht4 H5) as [P _].
      destruct (P _ _ Ht4) as [t1 [Ht1 So1]].
      exists t1. split; [exact Ht1|]. eapply so_trans; eassumption. }
  destruct Hfin as [Hi [t1 [Ht1 [S1 S2]]]].
  split; [exact Hi|]. exists t1. split; [exact Ht1|split; assumption].
Qed.

(** * Further properties of [func.py] *)

Section Extras.

Lemma mem_In (x : string) (xs : list string) : mem x xs = true <-> In x xs.
Proof.
  unfold mem. rewrite existsb_exists. split.
  - intros [y [Hy E]]. apply String.eqb_eq in E. subst. exact Hy.
  - intros Hx. exists x. split; [exact Hx|apply String.eqb_refl].
Qed.

(** ** [_has_any_steps] *)

(** X1: [_has_any_steps(component, steps)] is [True] exactly when some step
    of the component is in [steps]. *)
Theorem has_any_steps_spec (f : nat) : forall h c t steps b,
  val h c t -> _has_any_steps f h c steps = Ok b ->
  (b = true <-> exists a, In a (tree_steps t) /\ In a steps).
Proof.
  induction f as [|f IH]; intros h c t steps b Hv H.
  - destruct c as [x|l|ms]; cbn in H; try discriminate H.
    injection H as <-. rewrite (val_str_inv _ _ _ Hv). cbn. rewrite mem_In.
    split; [intros Hx; exists x; split; [left; reflexivity|exact Hx]|].
    intros [a [[<-|[]] Ha]]. exact Ha.
  - assert (Scan : forall xs ts b, Forall2 (val h) xs ts ->
      (fix scan (xs : list comp) : result bool :=
         match xs with
         | [] => Ok false
         | x :: r =>
             match _has_any_steps f h x steps with
             | Ok true => Ok true
             | Ok false => scan r
             | Err e => Err e
             end
         end) xs = Ok b ->
      (b = true <-> exists a, In a (flat_steps ts) /\ In a steps)).
    { intros xs ts b' HF. revert b'. induction HF as [|x tx xs ts Hx _ IHF]; intros b' Hs.
      - injection Hs as <-. split; [discriminate|intros [a [[] _]]].
      - destruct (_has_any_steps f h x steps) as [[|]|e] eqn:Ex; [| |discriminate Hs].
        + injection Hs as <-. split; [|reflexivity]. intros _.
          destruct (proj1 (IH h x tx steps true Hx Ex) eq_refl) as [a [Ha Ha']].
          exists a. rewrite flat_steps_cons. split; [apply in_app_iff; left|]; assumption.
        + rewrite (IHF b' Hs), flat_steps_cons. split.
          * intros [a [Ha Ha']]. exists a. split; [apply in_app_iff; right|]; assumption.
          * intros [a [Ha Ha']]. apply in_app_iff in Ha as [Ha|Ha].
            -- assert (E : false = true) by (apply (IH h x tx steps false Hx Ex); eauto).
               discriminate E.
            -- eauto. }
    destruct c as [x|l|ms].
    + cbn in H. injection H as <-. rewrite (val_str_inv _ _ _ Hv). cbn. rewrite mem_In.
      split; [intros Hx; exists x; split; [left; reflexivity|exact Hx]|].
      intros [a [[<-|[]] Ha]]. exact Ha.
    + destruct (val_ser_inv h l t Hv) as [items [ts [Hl [HF ->]]]].
      cbn [_has_any_steps] in H. rewrite Hl in H. rewrite tree_steps_ser.
      exact (Scan _ _ _ HF H).
    + destruct (val_par_inv h ms t Hv) as [ts [HF ->]].
      cbn [_has_any_steps] in H. rewrite tree_steps_par.
      exact (Scan _ _ _ HF H).
Qed.

(** ** [_get_instructions_insert_successor] *)

Lemma successor_chain_app (xs ys : list string) : forall after,
  successor_chain after (xs ++ ys)%list =
  (successor_chain after xs ++ successor_chain (last_or after xs) ys)%list.
Proof. induction xs as [|x r IH]; intros after; cbn; [reflexivity|]. rewrite IH. reflexivity. Qed.

Lemma last_or_app (xs ys : list string) : forall d,
  last_or d (xs ++ ys)%list = last_or (last_or d xs) ys.
Proof. induction xs as [|x r IH]; intros d; cbn; [reflexivity|]. apply IH. Qed.

(** X2: [_get_instructions_insert_successor(component, after)] places the
    steps of the component that are outside any [Parallel] one after the
    other, the first after [after], and returns the last of them as the new
    endpoint ([after] when there is none); a [Parallel] gives no
    instruction. *)
Theorem get_instructions_insert_successor_chain (f : nat) : forall h c t after ins e,
  val h c t -> _get_instructions_insert_successor f h c after = Ok (ins, e) ->
  ins = successor_chain after (serial_steps t) /\ e = last_or after (serial_steps t).
Proof.
  induction f as [|f IH]; intros h c t after ins e Hv H.
  - destruct c as [x|l|ms]; cbn in H; try discriminate H.
    + injection H as <- <-. rewrite (val_str_inv _ _ _ Hv). split; reflexivity.
    + injection H as <- <-. destruct (val_par_inv _ _ _ Hv) as [ts [_ ->]].
      split; reflexivity.
  - destruct c as [x|l|ms].
    + cbn in H. injection H as <- <-. rewrite (val_str_inv _ _ _ Hv). split; reflexivity.
    + destruct (val_ser_inv h l t Hv) as [items [ts [Hl [HF ->]]]].
      cbn [_get_instructions_insert_successor] in H. rewrite Hl in H.
      cbn [serial_steps]. rewrite <- (app_nil_l (successor_chain _ _)).
      clear Hv Hl. revert after ins e H. generalize (@nil instr) as acc.
      induction HF as [|x tx xs ts Hx _ IHF]; intros acc after ins e H.
      * injection H as <- <-. cbn. rewrite app_nil_r. split; reflexivity.
      * destruct (_get_instructions_insert_successor f h x after) as [[new e1]|err] eqn:Ex;
          [|discriminate H].
        destruct (IH h x tx after new e1 Hx Ex) as [-> ->].
        destruct (IHF _ _ _ _ H) as [-> ->]. cbn [map List.concat].
        rewrite successor_chain_app, last_or_app, app_assoc. split; reflexivity.
    + cbn in H. injection H as <- <-. destruct (val_par_inv _ _ _ Hv) as [ts [_ ->]].
      split; reflexivity.
Qed.

(** ** [get_endpoint] *)

Lemma last_or_some (d : option string) (xs : list string) (e : string) :
  last_or None xs = Some e -> last_or d xs = Some e.
Proof. destruct xs; [discriminate|exact (fun H => H)]. Qed.

Lemma flat_steps_rev_cons (t : tree) (ts : list tree) :
  flat_steps (rev (t :: ts)) = (flat_steps (rev ts) ++ tree_steps t)%list.
Proof. cbn [rev]. rewrite flat_steps_app, flat_steps_cons, app_nil_r. reflexivity. Qed.

Lemma flat_steps_rev_nil (ts : list tree) : flat_steps (rev ts) = [] -> flat_steps ts = [].
Proof.
  induction ts as [|t ts IH]; [reflexivity|]. rewrite flat_steps_rev_cons.
  intros H. apply app_eq_nil in H as [H1 H2]. rewrite flat_steps_cons, H2, (IH H1).
  reflexivity.
Qed.

Lemma first_endpoint_last (g : comp -> result string) (xs : list comp) (ts : list tree)
  (e : string) :
  Forall2 (fun x t => (forall e', g x = Ok e' -> last_or None (tree_steps t) = Some e') /\
                      (g x = Err ValueError -> tree_steps t = [])) xs ts ->
  first_endpoint g xs = Ok e -> last_or None (flat_steps (rev ts)) = Some e.
Proof.
  induction 1 as [|x t xs ts [H1 H2] _ IH]; cbn [first_endpoint]; [discriminate|].
  rewrite flat_steps_rev_cons, last_or_app.
  destruct (g x) as [e'|[]] eqn:Hg; intros H; try discriminate H.
  - injection H as <-. apply last_or_some, H1. reflexivity.
  - rewrite (H2 eq_refl). cbn [last_or]. exact (IH H).
Qed.

Lemma first_endpoint_none (g : comp -> result string) (xs : list comp) (ts : list tree) :
  Forall2 (fun x t => (forall e', g x = Ok e' -> last_or None (tree_steps t) = Some e') /\
                      (g x = Err ValueError -> tree_steps t = [])) xs ts ->
  first_endpoint g xs = Err ValueError -> flat_steps ts = [].
Proof.
  induction 1 as [|x t xs ts [H1 H2] _ IH]; cbn [first_endpoint]; [reflexivity|].
  destruct (g x) as [e'|[]] eqn:Hg; intros H; try discriminate H.
  rewrite flat_steps_cons, (H2 eq_refl), (IH H). reflexivity.
Qed.

Lemma get_endpoint_par_free (f : nat) : forall h c t,
  val h c t -> par_free t = true ->
  (forall e, get_endpoint f h c = Ok e -> last_or None (tree_steps t) = Some e) /\
  (get_endpoint f h c = Err ValueError -> tree_steps t = []).
Proof.
  induction f as [|f IH]; intros h c t Hv Hp.
  - destruct c as [x|l|ms]; cbn [get_endpoint].
    + rewrite (val_str_inv _ _ _ Hv).
      split; [intros e He; injection He as <-; reflexivity|discriminate].
    + split; discriminate.
    + destruct (val_par_inv _ _ _ Hv) as [ts [_ ->]]. discriminate Hp.
  - destruct c as [x|l|ms].
    + cbn [get_endpoint]. rewrite (val_str_inv _ _ _ Hv).
      split; [intros e He; injection He as <-; reflexivity|discriminate].
    + destruct (val_ser_inv h l t Hv) as [items [ts [Hl [HF ->]]]].
      cbn [get_endpoint]. rewrite Hl, tree_steps_ser.
      assert (HR : Forall2 (fun x t =>
                     (forall e', get_endpoint f h x = Ok e' ->
                                 last_or None (tree_steps t) = Some e') /\
                     (get_endpoint f h x = Err ValueError -> tree_steps t = []))
                     (rev items) (rev ts)).
      { apply Forall2_rev. clear Hv Hl. cbn [par_free] in Hp.
        induction HF as [|x tx xs txs Hx _ IHF]; constructor;
          cbn [forallb] in Hp; apply andb_true_iff in Hp as [Hp1 Hp2].
        - exact (IH h x tx Hx Hp1).
        - exact (IHF Hp2). }
      split.
      * intros e He. rewrite <- (rev_involutive ts). exact (first_endpoint_last _ _ _ e HR He).
      * intros He. apply flat_steps_rev_nil. exact (first_endpoint_none _ _ _ HR He).
    + destruct (val_par_inv _ _ _ Hv) as [ts [_ ->]]. discriminate Hp.
Qed.

(** X3: for a component with no [Parallel], [get_endpoint] returns its
    last step. *)
Theorem get_endpoint_serial_last (f : nat) (h : heap) (c : comp) (t : tree) (e : string) :
  val h c t -> par_free t = true -> get_endpoint f h c = Ok e ->
  last_or None (tree_steps t) = Some e.
Proof. intros Hv Hp He. exact (proj1 (get_endpoint_par_free f h c t Hv Hp) e He). Qed.

(** ** [_concat] and [_union] *)

Lemma string_length_append (a b : string) :
  String.length (String.append a b) = String.length a + String.length b.
Proof. induction a as [|c a IH]; [reflexivity|]. simpl. f_equal. exact IH. Qed.

Lemma fresh_name (a b : string) : exists s, s <> a /\ s <> b.
Proof.
  exists (String.append a (String.append b "x")).
  split; intros E; apply (f_equal String.length) in E;
    rewrite !string_length_append in E; cbn in E; lia.
Qed.

(** Two structures ordered the same whatever step is left aside have the
    same steps and the same ordered pairs. *)
Lemma so_all (t u : tree) : (forall s, same_order s t u) ->
  (forall a, In a (tree_steps t) <-> In a (tree_steps u)) /\
  (forall a b, In (a, b) (tree_pairs t) <-> In (a, b) (tree_pairs u)).
Proof.
  intros H. split.
  - intros a. destruct (fresh_name a a) as [s [Ha _]]. apply (proj1 (H s)). congruence.
  - intros a b. destruct (fresh_name a b) as [s [Ha Hb]]. apply (proj2 (H s)); congruence.
Qed.

Lemma zone_items_some_steps (h : heap) (x : comp) (t : tree) (p : list comp) :
  val h x t -> zone_items h (Some x) = Some p ->
  exists tsp, Forall2 (val h) p tsp /\ flat_steps tsp = tree_steps t.
Proof.
  intros Hx Hp. destruct x as [y|l|ms]; cbn [zone_items] in Hp.
  - injection Hp as <-. exists [t]. split; [constructor; [exact Hx|constructor]|].
    cbn [flat_steps map List.concat]. apply app_nil_r.
  - destruct (val_ser_inv h l t Hx) as [items [ts [Hl [HF ->]]]]. rewrite Hl in Hp.
    injection Hp as <-. exists ts. split; [exact HF|]. rewrite tree_steps_ser. reflexivity.
  - injection Hp as <-. exists [t]. split; [constructor; [exact Hx|constructor]|].
    cbn [flat_steps map List.concat]. apply app_nil_r.
Qed.

Lemma concat_parts_steps (h : heap) (xs : list comp) (ts : list tree) :
  Forall2 (val h) xs ts -> forall parts, mapo (zone_items h) (map Some xs) = Some parts ->
  exists tsc, Forall2 (val h) (List.concat parts) tsc /\ flat_steps tsc = flat_steps ts.
Proof.
  induction 1 as [|x t xs ts Hx _ IH]; intros parts Hp; cbn [map mapo] in Hp.
  - injection Hp as <-. exists []. split; [constructor|reflexivity].
  - destruct (zone_items h (Some x)) as [p|] eqn:Hzp; [|discriminate Hp].
    destruct (mapo (zone_items h) (map Some xs)) as [ps|]; [|discriminate Hp].
    injection Hp as <-. destruct (zone_items_some_steps h x t p Hx Hzp) as [tsp [Hv Hs]].
    destruct (IH ps eq_refl) as [tsc [Hv' Hs']].
    exists (tsp ++ tsc)%list. split; [cbn [List.concat]; apply Forall2_app; assumption|].
    rewrite flat_steps_app, flat_steps_cons, Hs, Hs'. reflexivity.
Qed.

Lemma drops_flat_steps (ys xs : list tree) :
  drops (fun t => tree_steps t = []) ys xs -> flat_steps ys = flat_steps xs.
Proof.
  induction 1 as [|x ys xs _ IH|x ys xs Hx _ IH].
  - reflexivity.
  - rewrite !flat_steps_cons, IH. reflexivity.
  - rewrite flat_steps_cons, Hx, IH. reflexivity.
Qed.

(** X4: [_concat] of present components [xs] returns [None] only when they
    have no step, and otherwise a new [Series], at the next free location
    [len(h)] of the store, whose steps are the steps of [xs] in the same order and which orders a pair of steps exactly when
    [Series(xs)] does; the store only grows. *)
Theorem concat_keeps_steps (h h' : heap) (xs : list comp) (ts : list tree) (r : option loc) :
  Forall2 (val h) xs ts -> _concat (map Some xs) h = Ok (r, h') ->
  extends h h' /\
  match r with
  | None => flat_steps ts = []
  | Some l => l = List.length h /\
      exists t, val h' (CSer l) t /\ tree_steps t = flat_steps ts /\
      (forall a b, In (a, b) (tree_pairs t) <-> In (a, b) (tree_pairs (TSer ts)))
  end.
Proof.
  intros HF H.
  assert (HZ : forall s, Forall2 (zone_val s h) (map Some xs) ts).
  { intros s. clear H. induction HF as [|x t xs ts Hx _ IH]; cbn [map]; constructor;
      [exists t; split; [exact Hx|apply so_refl]|exact IH]. }
  destruct (_concat_spec _ h r h' H) as [parts [Hp Hc]].
  destruct (concat_parts_steps h xs ts HF parts Hp) as [tsc [Hv Hs]].
  destruct Hc as [[He [-> ->]]|[_ [-> ->]]].
  - split; [apply extends_refl|]. rewrite He in Hv. inversion Hv; subst.
    rewrite <- Hs. reflexivity.
  - split; [apply extends_alloc|]. split; [reflexivity|].
    destruct (filter_drops h _ _ Hv) as [ts' [Hv' HD]].
    assert (Hv0 : val (h ++ [List.filter (fun c => negb (is_empty_input h c))
                                 (List.concat parts)])%list (CSer (List.length h)) (TSer ts')).
    { apply (val_ser _ _ (List.filter (fun c => negb (is_empty_input h c))
                            (List.concat parts))); [apply heap_lookup_alloc|].
      apply (Forall2_val_extend h); [apply extends_alloc|exact Hv']. }
    exists (TSer ts'). split; [exact Hv0|].
    split; [rewrite tree_steps_ser, (drops_flat_steps _ _ HD); exact Hs|].
    assert (HS : forall s, same_order s (TSer ts') (TSer ts)).
    { intros s. destruct (concat_val s h _ _ ts _ (HZ s) H) as [_ Hz].
      cbn in Hz. destruct Hz as [tz [Hz Ho]]. rewrite (val_fun _ _ _ _ Hv0 Hz). exact Ho. }
    exact (proj2 (so_all _ _ HS)).
Qed.

Lemma union_items_vals (h : heap) (xs : list comp) (ts : list tree) :
  Forall2 (val h) xs ts ->
  exists txs, Forall2 (val h) (List.concat (map union_items (map Some xs))) txs /\
    flat_steps txs = flat_steps ts /\
    List.concat (map tree_pairs txs) = List.concat (map tree_pairs ts).
Proof.
  induction 1 as [|x t xs ts Hx _ [txs [Hv [Hs Hp]]]].
  - exists []. split; [constructor|split; reflexivity].
  - assert (Hi : exists tx, Forall2 (val h) (union_items (Some x)) tx /\
                   flat_steps tx = tree_steps t /\
                   List.concat (map tree_pairs tx) = tree_pairs t).
    { destruct x as [y|l|ms].
      - exists [t]. split; [constructor; [exact Hx|constructor]|].
        cbn [flat_steps map List.concat]. rewrite !app_nil_r. split; reflexivity.
      - exists [t]. split; [constructor; [exact Hx|constructor]|].
        cbn [flat_steps map List.concat]. rewrite !app_nil_r. split; reflexivity.
      - destruct (val_par_inv h ms t Hx) as [tms [HF ->]]. exists tms.
        split; [exact HF|split; reflexivity]. }
    destruct Hi as [tx [Hv1 [Hs1 Hp1]]].
    exists (tx ++ txs)%list. split; [cbn [map List.concat]; apply Forall2_app; assumption|].
    rewrite flat_steps_app, flat_steps_cons, Hs1, Hs. split; [reflexivity|].
    rewrite map_app, concat_app, Hp1, Hp. reflexivity.
Qed.

Lemma dedup_equiv (f : nat) (h : heap) (ys : list comp) (tys : list tree) (ms : list comp) :
  Forall2 (val h) ys tys -> dedup_into f h [] ys = Ok ms ->
  exists tms, Forall2 (val h) ms tms /\
    sub_order (TPar tms) (TPar tys) /\ sub_order (TPar tys) (TPar tms).
Proof.
  intros Hall D.
  pose proof (dedup_into_incl f h [] _ ms D) as Incl.
  destruct (dedup_into_spec f h _ [] ms D) as [_ Cover].
  destruct (vals_exist h ms) as [tms Htms].
  { intros m Hm. destruct (Incl m Hm) as [[]|Hm'].
    destruct (F2_in_l _ _ _ m Hall Hm') as [t [_ Ht]]. eauto. }
  exists tms. split; [exact Htms|split; apply sub_par].
  - intros t Ht. destruct (F2_in_r _ _ _ t Htms Ht) as [m [Hm Hmt]].
    destruct (Incl m Hm) as [[]|Hm'].
    destruct (F2_in_l _ _ _ m Hall Hm') as [t' [Ht' Hmt']].
    rewrite (val_fun h m t t' Hmt Hmt'). exists t'. split; [exact Ht'|apply sub_refl].
  - intros t Ht. destruct (F2_in_r _ _ _ t Hall Ht) as [y' [Hy Hyt]].
    destruct (Cover y' Hy) as [Hm|[k [Hk Hk']]].
    + destruct (F2_in_l _ _ _ y' Htms Hm) as [t' [Ht' Hyt']].
      rewrite (val_fun h y' t t' Hyt Hyt'). exists t'. split; [exact Ht'|apply sub_refl].
    + destruct (F2_in_l _ _ _ k Htms Hk) as [tk [Htk Hkt]].
      exists tk. split; [exact Htk|]. eapply py_eq_sub; eassumption.
Qed.

(** X5: [_union] of present components [xs] leaves the store as it is and
    returns [None] only when they have no step; otherwise it returns a
    [Parallel] ([CPar ms]) with exactly the steps of [xs] and ordering a pair of steps
    exactly when one of the components does. *)
Theorem union_keeps_steps (f : nat) (h h' : heap) (xs : list comp) (ts : list tree)
  (r : option comp) :
  Forall2 (val h) xs ts -> _union f (map Some xs) h = Ok (r, h') ->
  h' = h /\
  match r with
  | None => flat_steps ts = []
  | Some u => exists ms tu, u = CPar ms /\ val h u tu /\
      (forall a, In a (tree_steps tu) <-> In a (flat_steps ts)) /\
      (forall a b, In (a, b) (tree_pairs tu) <-> In (a, b) (tree_pairs (TPar ts)))
  end.
Proof.
  intros HF H. destruct (union_items_vals h xs ts HF) as [txs [Hv [Hs Hp]]].
  unfold _union in H.
  destruct (List.concat (map union_items (map Some xs))) as [|y ys] eqn:E.
  - apply ret_ok in H as [<- <-]. split; [reflexivity|]. inversion Hv; subst.
    rewrite <- Hs. reflexivity.
  - apply bind_ok in H as [u [h1 [H1 H]]]. apply ret_ok in H as [<- <-].
    unfold parallel in H1. apply lift_ok in H1 as [H1 ->].
    destruct (dedup_into f h [] (y :: ys)) as [ms|e] eqn:D; [|discriminate H1].
    injection H1 as <-. split; [reflexivity|].
    destruct (dedup_equiv f h _ _ ms Hv D) as [tms [Htms [[S1 P1] [S2 P2]]]].
    exists ms, (TPar tms). split; [reflexivity|]. split; [apply val_par; exact Htms|]. split.
    + intros a. rewrite <- Hs. split; [intros Ha; exact (S1 a Ha)|intros Ha; exact (S2 a Ha)].
    + intros a b. cbn [tree_pairs]. rewrite <- Hp.
      split; [intros Hab; exact (P1 _ Hab)|intros Hab; exact (P2 _ Hab)].
Qed.

(** ** [_insert_before_postrequisites] and [_insert_step] *)

(** [_insert_before_postrequisites] returns one instruction, placing [step]
    after [predecessor]. *)
Lemma ibp_shape (f : nat) : forall cM idx pred step post h ins h',
  _insert_before_postrequisites f cM idx pred step post h = Ok (ins, h') ->
  ins = [InsertParallel pred step] \/ ins = [InsertSuccessor pred step].
Proof.
  induction f as [|f IH]; intros cM idx pred step post h ins h' H; [discriminate H|].
  cbn [_insert_before_postrequisites] in H.
  apply bind_ok in H as [root [h1 [_ H]]].
  apply bind_ok in H as [succ [h2 [_ H]]].
  destruct succ as [x|l|[|m [|m2 ms]]]; cbv beta iota in H;
    [| exact (IH _ _ _ _ _ _ _ _ H) | | |].
  3: { apply bind_ok in H as [container [h3 [_ H]]].
       apply bind_ok in H as [ins0 [h4 [H4 H]]].
       apply bind_ok in H as [croot [h5 [_ H]]]. apply bind_ok in H as [u [h6 [_ H]]].
       apply ret_ok in H as [<- _]. exact (IH _ _ _ _ _ _ _ _ H4). }
  all: apply bind_ok in H as [has [h3 [_ H]]]; destruct has; cbv beta iota in H;
    [ apply bind_ok in H as [root' [h4 [_ H]]]; apply bind_ok in H as [u [h5 [_ H]]];
      apply ret_ok in H as [<- _]; right; reflexivity
    | apply bind_ok in H as [u [h4 [_ H]]]; destruct u as [u|]; [|discriminate H];
      cbv beta iota in H; apply bind_ok in H as [v [h5 [_ H]]];
      apply ret_ok in H as [<- _]; left; reflexivity ].
Qed.

Lemma enumerate_from_Forall2 {A B} (R : A -> B -> Prop) (xs : list A) (ys : list B) :
  Forall2 R xs ys -> forall k, Forall2 (fun p y => R (snd p) y) (zip (seq k (length xs)) xs) ys.
Proof.
  induction 1 as [|x y xs ys Hxy _ IH]; intros k; [constructor|].
  cbn. constructor; [exact Hxy|apply IH].
Qed.

Lemma enumerate_Forall2 {A B} (R : A -> B -> Prop) (xs : list A) (ys : list B) :
  Forall2 R xs ys -> Forall2 (fun p y => R (snd p) y) (enumerate xs) ys.
Proof. intros H. exact (enumerate_from_Forall2 R xs ys H 0). Qed.

Lemma insert_step_anchor_gen (f : nat) : forall l step pre post h h' t ins,
  val h (CSer l) t -> _insert_step f l step pre post h = Ok (ins, h') ->
  (ins = [] /\ extends h h' /\ forall a, In a (tree_steps t) -> ~ In a pre) \/
  (exists i p, ins = [i] /\ instr_step i = step /\ instr_after i = Some p /\
     In p pre /\ In p (tree_steps t)).
Proof.
  induction f as [|f IH]; intros l step pre post h h' t ins Hv H; [discriminate H|].
  destruct (val_ser_inv h l t Hv) as [items [ts [Hl [HF ->]]]].
  cbn [_insert_step] in H. apply bind_ok in H as [root [h1 [H1 H]]].
  unfold read in H1. rewrite Hl in H1. injection H1 as <- <-. cbv beta in H.
  assert (HR : Forall2 (fun p t => val h (snd p) t) (rev (enumerate items)) (rev ts)).
  { apply Forall2_rev, enumerate_Forall2, HF. }
  rewrite tree_steps_ser.
  assert (Gen : forall xs rts h0 ins h',
    Forall2 (fun p t => val h (snd p) t) xs rts -> extends h h0 ->
    (fix scan (xs : list (nat * comp)) : M (list instr) :=
       match xs with
       | [] => ret []
       | (idx, subcomponent) :: r =>
           match subcomponent with
           | CStr s =>
               if mem s pre then
                 let* cur := read l in
                 if Nat.ltb (idx + 1) (length cur) then
                   _insert_before_postrequisites f l (Z.of_nat idx) (Some s) step post
                 else
                   let* _ := write l (cur ++ [CStr step])%list in
                   ret [InsertSuccessor (Some s) step]
               else scan r
           | CSer l =>
               let* added := _insert_step f l step pre post in
               match added with [] => scan r | _ => ret added end
           | CPar ms =>
               let* c := alloc ms in
               let* added := _insert_step f c step pre post in
               match added with [] => scan r | _ => ret added end
           end
       end) xs h0 = Ok (ins, h') ->
    (ins = [] /\ extends h0 h' /\ forall a, In a (flat_steps rts) -> ~ In a pre) \/
    (exists i p, ins = [i] /\ instr_step i = step /\ instr_after i = Some p /\
       In p pre /\ In p (flat_steps rts))).
  { intros xs rts h0 ins0 h0' HX. revert h0 ins0 h0'.
    induction HX as [|[idx sub] tx xs rts Hx _ IHX]; intros h0 ins0 h0' E0 Hs.
    - apply ret_ok in Hs as [<- <-]. left. split; [reflexivity|].
      split; [apply extends_refl|intros a []].
    - cbn [snd] in Hx. pose proof (val_extend h h0 _ _ E0 Hx) as Hx0.
      destruct sub as [x|l'|ms]; cbv beta iota in Hs.
      + rewrite (val_str_inv _ _ _ Hx) in *.
        destruct (mem x pre) eqn:Hm; cbv beta iota in Hs.
        * right. apply mem_In in Hm.
          assert (Hins : ins0 = [InsertParallel (Some x) step] \/
                         ins0 = [InsertSuccessor (Some x) step]).
          { apply bind_ok in Hs as [cur [h2 [_ Hs]]].
            destruct (Nat.ltb (idx + 1) (length cur)); cbv beta iota in Hs.
            - exact (ibp_shape f _ _ _ _ _ _ _ _ Hs).
            - apply bind_ok in Hs as [u [h3 [_ Hs]]]. apply ret_ok in Hs as [<- _].
              right. reflexivity. }
          destruct Hins as [->| ->]; eexists; exists x;
            (split; [reflexivity|split; [reflexivity|split; [reflexivity|split; [exact Hm|]]]]);
            rewrite flat_steps_cons; left; reflexivity.
        * destruct (IHX h0 ins0 h0' E0 Hs) as [[-> [E Hn]]|[i [p (-> & Hi & Ha & Hp & Hin)]]].
          -- left. split; [reflexivity|split; [exact E|]]. intros a Ha.
             rewrite flat_steps_cons in Ha. apply in_app_iff in Ha as [[<-|[]]|Ha];
               [|exact (Hn a Ha)].
             intros Hin. apply mem_In in Hin. congruence.
          -- right. exists i, p. rewrite flat_steps_cons. repeat split; try assumption.
             apply in_app_iff. right. exact Hin.
      + apply bind_ok in Hs as [added [h2 [H2 Hs]]].
        destruct (IH l' step pre post h0 h2 tx added Hx0 H2)
          as [[-> [E2 Hn2]]|[i [p (-> & Hi & Ha & Hp & Hin)]]]; cbv beta iota in Hs.
        * destruct (IHX h2 ins0 h0' (extends_trans _ _ _ E0 E2) Hs)
            as [[-> [E Hn]]|[i [p (-> & Hi & Ha & Hp & Hin)]]].
          -- left. split; [reflexivity|split; [eapply extends_trans; eassumption|]].
             intros a Ha. rewrite flat_steps_cons in Ha.
             apply in_app_iff in Ha as [Ha|Ha]; [exact (Hn2 a Ha)|exact (Hn a Ha)].
          -- right. exists i, p. rewrite flat_steps_cons. repeat split; try assumption.
             apply in_app_iff. right. exact Hin.
        * apply ret_ok in Hs as [<- _]. right. exists i, p.
          rewrite flat_steps_cons. repeat split; try assumption.
          apply in_app_iff. left. exact Hin.
      + apply bind_ok in Hs as [c [h2 [H2 Hs]]]. unfold alloc in H2. injection H2 as <- <-.
        apply bind_ok in Hs as [added [h3 [H3 Hs]]].
        destruct (val_par_inv h0 ms tx Hx0) as [tms [Htms ->]].
        assert (Hc : val (h0 ++ [ms])%list (CSer (List.length h0)) (TSer tms)).
        { apply (val_ser _ _ ms); [apply heap_lookup_alloc|].
          apply (Forall2_val_extend h0); [apply extends_alloc|exact Htms]. }
        destruct (IH _ step pre post _ h3 _ added Hc H3)
          as [[-> [E3 Hn3]]|[i [p (-> & Hi & Ha & Hp & Hin)]]]; cbv beta iota in Hs.
        * assert (E03 : extends h0 h3).
          { eapply extends_trans; [apply extends_alloc|exact E3]. }
          destruct (IHX h3 ins0 h0' (extends_trans _ _ _ E0 E03) Hs)
            as [[-> [E Hn]]|[i [p (-> & Hi & Ha & Hp & Hin)]]].
          -- left. split; [reflexivity|split; [eapply extends_trans; eassumption|]].
             intros a Ha. rewrite flat_steps_cons in Ha.
             apply in_app_iff in Ha as [Ha|Ha]; [exact (Hn3 a Ha)|exact (Hn a Ha)].
          -- right. exists i, p. rewrite flat_steps_cons. repeat split; try assumption.
             apply in_app_iff. right. exact Hin.
        * apply ret_ok in Hs as [<- _]. right. exists i, p.
          rewrite flat_steps_cons. repeat split; try assumption.
          apply in_app_iff. left. exact Hin. }
  destruct (Gen _ _ h ins h' HR (extends_refl h) H)
    as [[-> [E Hn]]|[i [p (-> & Hi & Ha & Hp & Hin)]]].
  - left. split; [reflexivity|split; [exact E|]]. intros a Ha. apply Hn.
    apply in_steps_rev. exact Ha.
  - right. exists i, p. repeat split; try assumption. apply in_steps_rev. exact Hin.
Qed.

(** X6: [_insert_step] either finds no anchor, returning no instruction,
    only allocating in the store, and then no step of the component is a
    prerequisite; or it returns one instruction placing [step] after a
    prerequisite that is a step of the component. *)
Theorem insert_step_anchor (f : nat) (l : loc) (step : string) (pre post : list string)
  (h h' : heap) (t : tree) (ins : list instr) :
  val h (CSer l) t -> _insert_step f l step pre post h = Ok (ins, h') ->
  (ins = [] /\ extends h h' /\ forall a, In a (tree_steps t) -> ~ In a pre) \/
  (exists i p, ins = [i] /\ instr_step i = step /\ instr_after i = Some p /\
     In p pre /\ In p (tree_steps t)).
Proof. exact (insert_step_anchor_gen f l step pre post h h' t ins). Qed.

(** ** [partition_component] *)

Lemma fresh_string_pos (xs : list string) :
  1 <= String.length (fold_right String.append "x" xs).
Proof.
  induction xs as [|x r IH]; cbn [fold_right]; [cbn; lia|].
  rewrite string_length_append. lia.
Qed.

Lemma fresh_string_gt (xs : list string) (x : string) :
  In x xs -> String.length x < String.length (fold_right String.append "x" xs).
Proof.
  induction xs as [|y r IH]; intros Hin; [destruct Hin|]. cbn [fold_right].
  rewrite string_length_append. destruct Hin as [<-|Hin].
  - pose proof (fresh_string_pos r). lia.
  - pose proof (IH Hin). lia.
Qed.

Lemma fresh_string (xs : list string) : ~ In (fold_right String.append "x" xs) xs.
Proof. intros Hin. pose proof (fresh_string_gt xs _ Hin). lia. Qed.

(** [partition_component] only allocates. *)
Lemma partition_extends (f : nat) (c : comp) (pred : option string) (pre post : list string)
  (h h' : heap) (P : Partition) (ins : list instr) (t : tree) :
  val h c t -> partition_component f c pred pre post h = Ok ((P, ins), h') -> extends h h'.
Proof.
  intros [d Hd] H.
  pose proof (deref_fresh _ d h c t Hd (fresh_string (tree_steps t))) as Hf.
  exact (proj1 (partition_component_fresh _ pre post f c pred h h' P ins Hf H)).
Qed.

Lemma mapM_gen {B} (g : comp -> M B) (P : heap -> comp -> tree -> Prop)
  (Q : B -> tree -> Prop) :
  (forall h0 h1 x t, extends h0 h1 -> P h0 x t -> P h1 x t) ->
  (forall x t h0 y h1, P h0 x t -> g x h0 = Ok (y, h1) -> extends h0 h1 /\ Q y t) ->
  forall xs ts h ys h', Forall2 (P h) xs ts -> mapM g xs h = Ok (ys, h') ->
  extends h h' /\ Forall2 Q ys ts.
Proof.
  intros HP Hg xs. induction xs as [|x r IH]; intros ts h ys h' HF H; cbn [mapM] in H;
    inversion HF as [|? t ? ts' Hx Hr]; subst.
  - apply ret_ok in H as [<- <-]. split; [apply extends_refl|constructor].
  - apply bind_ok in H as [y [h1 [H1 H]]]. apply bind_ok in H as [ys' [h2 [H2 H]]].
    apply ret_ok in H as [<- <-].
    destruct (Hg x t h y h1 Hx H1) as [E1 Q1].
    assert (Hr' : Forall2 (P h1) r ts').
    { clear - HP E1 Hr. induction Hr as [|a b c d Hab _ IHr]; constructor;
        [exact (HP _ _ _ _ E1 Hab)|exact IHr]. }
    destruct (IH ts' h1 ys' h2 Hr' H2) as [E2 Q2].
    split; [exact (extends_trans _ _ _ E1 E2)|constructor; assumption].
Qed.

Lemma gsp_gen (pc : comp -> option string -> M (Partition * list instr))
  (P : heap -> comp -> tree -> Prop) (Q : Partition -> tree -> Prop)
  (I : list instr -> Prop) :
  (forall h0 h1 x t, extends h0 h1 -> P h0 x t -> P h1 x t) ->
  I [] -> (forall a b, I a -> I b -> I (a ++ b)%list) ->
  (forall x t pred h0 p i h1, P h0 x t -> pc x pred h0 = Ok ((p, i), h1) ->
     extends h0 h1 /\ Q p t /\ I i) ->
  forall items ts pred h ps ins h', Forall2 (P h) items ts ->
  _get_series_partitions pc items pred h = Ok ((ps, ins), h') ->
  extends h h' /\ Forall2 Q ps ts /\ I ins.
Proof.
  intros HP I0 Iapp Hpc items. induction items as [|x r IH];
    intros ts pred h ps ins h' HF H; cbn [_get_series_partitions] in H;
    inversion HF as [|? t ? ts' Hx Hr]; subst.
  - apply ret_ok in H as [Heq <-]. injection Heq as <- <-.
    split; [apply extends_refl|split; [constructor|exact I0]].
  - apply bind_ok in H as [[p i] [h1 [H1 H]]]. cbv beta iota in H.
    destruct (Hpc x t pred h p i h1 Hx H1) as (E1 & Q1 & I1).
    apply bind_ok in H as [[ps' is'] [h2 [H2 H]]]. cbv beta iota in H.
    apply ret_ok in H as [Heq <-]. injection Heq as <- <-.
    assert (Hr' : Forall2 (P h1) r ts').
    { clear - HP E1 Hr. induction Hr as [|a b c d Hab _ IHr]; constructor;
        [exact (HP _ _ _ _ E1 Hab)|exact IHr]. }
    destruct (IH ts' (Some (top_ranked_endpoint p)) h1 ps' is' h2 Hr' H2) as (E2 & Q2 & I2).
    split; [exact (extends_trans _ _ _ E1 E2)|split; [constructor; assumption|]].
    apply Iapp; assumption.
Qed.

Lemma F2_steps_avoid (h : heap) (L : list string) (xs : list comp) (ts : list tree) :
  Forall2 (val h) xs ts -> (forall a, In a (flat_steps ts) -> ~ In a L) ->
  Forall2 (fun x t => val h x t /\ forall a, In a (tree_steps t) -> ~ In a L) xs ts.
Proof.
  induction 1 as [|x t xs ts Hx _ IH]; intros Hn; constructor.
  - split; [exact Hx|]. intros a Ha. apply Hn. rewrite flat_steps_cons.
    apply in_app_iff. left. exact Ha.
  - apply IH. intros a Ha. apply Hn. rewrite flat_steps_cons. apply in_app_iff. right. exact Ha.
Qed.

Lemma avoid_extend (L : list string) (h0 h1 : heap) (x : comp) (t : tree) :
  extends h0 h1 ->
  (val h0 x t /\ forall a, In a (tree_steps t) -> ~ In a L) ->
  (val h1 x t /\ forall a, In a (tree_steps t) -> ~ In a L).
Proof. intros E [Hx Hn]. split; [exact (val_extend _ _ _ _ E Hx)|exact Hn]. Qed.

Lemma app_nil_both {A} (a b : list A) : a = [] -> b = [] -> (a ++ b)%list = [].
Proof. intros -> ->. reflexivity. Qed.

Lemma concat_none_none (h : heap) : _concat [None; None] h = Ok (None, h).
Proof. reflexivity. Qed.

Lemma op_pre_none (p n m : Partition) (h h' : heap) :
  prerequisite_component p = None -> prerequisite_component n = None ->
  _op_series_merge_partitions p n h = Ok (m, h') -> prerequisite_component m = None.
Proof.
  intros Pp Pn H. unfold _op_series_merge_partitions in H. rewrite Pn, Pp in H.
  cbv beta zeta iota in H.
  destruct (is_not_none (nondependent_component n) &&
            is_not_none (postrequisite_component p)); cbv beta iota in H.
  - apply bind_ok in H as [a [h1 [H1 H]]]. rewrite concat_none_none in H1.
    injection H1 as <- <-. apply bind_ok in H as [b [h2 [_ H]]].
    apply ret_ok in H as [<- _]. reflexivity.
  - apply bind_ok in H as [pre [h1 [H1 H]]]. apply ret_ok in H1 as [<- <-].
    apply bind_ok in H as [non [h2 [_ H]]]. apply bind_ok in H as [post [h3 [_ H]]].
    apply ret_ok in H as [<- _]. reflexivity.
Qed.

Lemma op_post_none (p n m : Partition) (h h' : heap) :
  postrequisite_component p = None -> postrequisite_component n = None ->
  _op_series_merge_partitions p n h = Ok (m, h') -> postrequisite_component m = None.
Proof.
  intros Pp Pn H. unfold _op_series_merge_partitions in H.
  destruct (prerequisite_component n) as [x|]; cbv beta zeta iota in H.
  - apply bind_ok in H as [a [h1 [_ H]]]. apply ret_ok in H as [<- _]. exact Pn.
  - rewrite Pp, Pn in H. change (@is_not_none comp None) with false in H.
    rewrite andb_false_r in H. cbv beta iota in H.
    apply bind_ok in H as [pre [h1 [_ H]]]. apply bind_ok in H as [non [h2 [_ H]]].
    apply bind_ok in H as [post [h3 [H3 H]]]. apply ret_ok in H3 as [<- <-].
    apply ret_ok in H as [<- _]. reflexivity.
Qed.

Lemma reduce_zone_none (sel : Partition -> option comp) :
  (forall p n m h h', sel p = None -> sel n = None ->
     _op_series_merge_partitions p n h = Ok (m, h') -> sel m = None) ->
  forall ps acc r h h', sel acc = None -> Forall (fun p => sel p = None) ps ->
  reduceM _op_series_merge_partitions acc ps h = Ok (r, h') -> sel r = None.
Proof.
  intros Hop ps. induction ps as [|p ps IH]; intros acc r h h' Ha HF H; cbn [reduceM] in H.
  - apply ret_ok in H as [<- _]. exact Ha.
  - inversion HF as [|? ? Hp Hr]; subst. apply bind_ok in H as [acc' [h1 [H1 H]]].
    exact (IH acc' r h1 h' (Hop _ _ _ _ _ Ha Hp H1) Hr H).
Qed.

Lemma F2_fst {A B} (Q : A -> Prop) (xs : list A) (ys : list B) :
  Forall2 (fun x _ => Q x) xs ys -> Forall Q xs.
Proof. induction 1; constructor; assumption. Qed.

Lemma tuples_sel_none (sel : Partition -> option comp) (tuples : list (Partition * list instr))
  (ts : list tree) :
  Forall2 (fun q _ => sel (fst q) = None /\ snd q = []) tuples ts ->
  existsb (fun p => is_not_none (sel p)) (map fst tuples) = false /\
  List.concat (map snd tuples) = [].
Proof.
  induction 1 as [|q t qs ts [A B] _ [IA IB]]; [split; reflexivity|].
  cbn [existsb map List.concat]. rewrite A, B, IA, IB. split; reflexivity.
Qed.

Lemma part_nopre (f : nat) : forall c pred pre post h P ins h' t,
  val h c t -> (forall a, In a (tree_steps t) -> ~ In a pre) ->
  partition_component f c pred pre post h = Ok ((P, ins), h') ->
  prerequisite_component P = None /\ ins = [].
Proof.
  induction f as [|f IH]; intros c pred pre post h P ins h' t Hv Hn H.
  all: destruct c as [x|l|ms]; try discriminate H.
  1, 2: rewrite (val_str_inv _ _ _ Hv) in Hn; cbn [partition_component] in H;
    destruct (mem x pre) eqn:Hm;
    [apply mem_In in Hm; destruct (Hn x (or_introl eq_refl) Hm)|];
    destruct (mem x post); apply ret_ok in H as [Heq _]; injection Heq as <- <-;
    split; reflexivity.
  - destruct (val_ser_inv h l t Hv) as [items [ts [Hl [HF ->]]]].
    rewrite tree_steps_ser in Hn.
    cbn [partition_component] in H.
    apply bind_ok in H as [its [h1 [H1 H]]]. unfold read in H1. rewrite Hl in H1.
    injection H1 as <- <-.
    apply bind_ok in H as [[ps i] [h2 [H2 H]]]. cbv beta iota in H.
    destruct (gsp_gen _ (fun h0 x t => val h0 x t /\ forall a, In a (tree_steps t) -> ~ In a pre)
                (fun p _ => prerequisite_component p = None) (fun i => i = [])
                (avoid_extend pre) eq_refl
                (@app_nil_both instr)
                (fun x t pred0 h0 p0 i0 h3 Hx Hp =>
                   conj (partition_extends f x pred0 pre post h0 h3 p0 i0 t (proj1 Hx) Hp)
                        (IH x pred0 pre post h0 p0 i0 h3 t (proj1 Hx) (proj2 Hx) Hp))
                items ts pred h ps i h2 (F2_steps_avoid h pre items ts HF Hn) H2)
      as (_ & Q & ->).
    destruct ps as [|p0 [|p1 rest]].
    + discriminate H.
    + inversion Q as [|? ? ? ? Q0 _]; subst.
      apply bind_ok in H as [a [h3 [H3 H]]]. rewrite Q0 in H3. cbn [wrap_series] in H3.
      apply ret_ok in H3 as [<- <-].
      apply bind_ok in H as [b [h4 [_ H]]]. apply bind_ok in H as [d [h5 [_ H]]].
      apply ret_ok in H as [Heq _]. injection Heq as <- <-. split; reflexivity.
    + inversion Q as [|? ? ? ? Q0 Qr]; subst.
      apply bind_ok in H as [m [h3 [H3 H]]]. apply ret_ok in H as [Heq _].
      injection Heq as <- <-. split; [|reflexivity].
      exact (reduce_zone_none prerequisite_component op_pre_none _ _ _ _ _ Q0 (F2_fst _ _ _ Qr) H3).
  - destruct (val_par_inv h ms t Hv) as [ts [HF ->]]. rewrite tree_steps_par in Hn.
    cbn [partition_component] in H.
    apply bind_ok in H as [tuples [h1 [H1 H]]].
    destruct (mapM_gen (fun m => partition_component f m pred pre post)
                (fun h0 x t => val h0 x t /\ forall a, In a (tree_steps t) -> ~ In a pre)
                (fun q _ => prerequisite_component (fst q) = None /\ snd q = [])
                (avoid_extend pre)
                (fun x t h0 y h3 Hx Hy =>
                   match y as y0 return partition_component f x pred pre post h0 = Ok (y0, h3) ->
                     extends h0 h3 /\ prerequisite_component (fst y0) = None /\ snd y0 = [] with
                   | (q, i) => fun Hq =>
                       conj (partition_extends f x pred pre post h0 h3 q i t (proj1 Hx) Hq)
                            (IH x pred pre post h0 q i h3 t (proj1 Hx) (proj2 Hx) Hq)
                   end Hy)
                ms ts h tuples h1 (F2_steps_avoid h pre ms ts HF Hn) H1) as [_ Q].
    destruct (tuples_sel_none _ _ _ Q) as [T1 T2].
    cbv beta zeta in H. rewrite T1 in H. cbn [andb] in H.
    apply bind_ok in H as [top [h2 [_ H]]].
    destruct (existsb _ (map fst tuples)); apply ret_ok in H as [Heq _];
      injection Heq as <- <-; split; [reflexivity|exact T2|reflexivity|exact T2].
Qed.

Lemma part_nopost (f : nat) : forall c pred pre post h P ins h' t,
  val h c t -> (forall a, In a (tree_steps t) -> ~ In a post) ->
  partition_component f c pred pre post h = Ok ((P, ins), h') ->
  postrequisite_component P = None /\ ins = [].
Proof.
  induction f as [|f IH]; intros c pred pre post h P ins h' t Hv Hn H.
  all: destruct c as [x|l|ms]; try discriminate H.
  1, 2: rewrite (val_str_inv _ _ _ Hv) in Hn; cbn [partition_component] in H;
    destruct (mem x pre);
    [apply ret_ok in H as [Heq _]; injection Heq as <- <-; split; reflexivity|];
    destruct (mem x post) eqn:Hm;
    [apply mem_In in Hm; destruct (Hn x (or_introl eq_refl) Hm)|];
    apply ret_ok in H as [Heq _]; injection Heq as <- <-; split; reflexivity.
  - destruct (val_ser_inv h l t Hv) as [items [ts [Hl [HF ->]]]].
    rewrite tree_steps_ser in Hn.
    cbn [partition_component] in H.
    apply bind_ok in H as [its [h1 [H1 H]]]. unfold read in H1. rewrite Hl in H1.
    injection H1 as <- <-.
    apply bind_ok in H as [[ps i] [h2 [H2 H]]]. cbv beta iota in H.
    destruct (gsp_gen _ (fun h0 x t => val h0 x t /\ forall a, In a (tree_steps t) -> ~ In a post)
                (fun p _ => postrequisite_component p = None) (fun i => i = [])
                (avoid_extend post) eq_refl
                (@app_nil_both instr)
                (fun x t pred0 h0 p0 i0 h3 Hx Hp =>
                   conj (partition_extends f x pred0 pre post h0 h3 p0 i0 t (proj1 Hx) Hp)
                        (IH x pred0 pre post h0 p0 i0 h3 t (proj1 Hx) (proj2 Hx) Hp))
                items ts pred h ps i h2 (F2_steps_avoid h post items ts HF Hn) H2)
      as (_ & Q & ->).
    destruct ps as [|p0 [|p1 rest]].
    + discriminate H.
    + inversion Q as [|? ? ? ? Q0 _]; subst.
      apply bind_ok in H as [a [h3 [_ H]]]. apply bind_ok in H as [b [h4 [_ H]]].
      apply bind_ok in H as [d [h5 [H5 H]]]. rewrite Q0 in H5. cbn [wrap_series] in H5.
      apply ret_ok in H5 as [<- <-].
      apply ret_ok in H as [Heq _]. injection Heq as <- <-. split; reflexivity.
    + inversion Q as [|? ? ? ? Q0 Qr]; subst.
      apply bind_ok in H as [m [h3 [H3 H]]]. apply ret_ok in H as [Heq _].
      injection Heq as <- <-. split; [|reflexivity].
      exact (reduce_zone_none postrequisite_component op_post_none _ _ _ _ _ Q0 (F2_fst _ _ _ Qr) H3).
  - destruct (val_par_inv h ms t Hv) as [ts [HF ->]]. rewrite tree_steps_par in Hn.
    cbn [partition_component] in H.
    apply bind_ok in H as [tuples [h1 [H1 H]]].
    destruct (mapM_gen (fun m => partition_component f m pred pre post)
                (fun h0 x t => val h0 x t /\ forall a, In a (tree_steps t) -> ~ In a post)
                (fun q _ => postrequisite_component (fst q) = None /\ snd q = [])
                (avoid_extend post)
                (fun x t h0 y h3 Hx Hy =>
                   match y as y0 return partition_component f x pred pre post h0 = Ok (y0, h3) ->
                     extends h0 h3 /\ postrequisite_component (fst y0) = None /\ snd y0 = [] with
                   | (q, i) => fun Hq =>
                       conj (partition_extends f x pred pre post h0 h3 q i t (proj1 Hx) Hq)
                            (IH x pred pre post h0 q i h3 t (proj1 Hx) (proj2 Hx) Hq)
                   end Hy)
                ms ts h tuples h1 (F2_steps_avoid h post ms ts HF Hn) H1) as [_ Q].
    destruct (tuples_sel_none _ _ _ Q) as [T1 T2].
    cbv beta zeta in H. rewrite T1, andb_false_r in H.
    apply bind_ok in H as [top [h2 [_ H]]].
    destruct (existsb _ (map fst tuples));
      apply ret_ok in H as [Heq _]; injection Heq as <- <-; split;
      first [reflexivity|exact T2].
Qed.

(** X7: [partition_component] gives no instruction when no step of the
    component is a prerequisite, or when none is a postrequisite: it then
    leaves the prerequisite (resp. postrequisite) zone empty. *)
Theorem partition_no_instructions (f : nat) (c : comp) (pred : option string)
  (pre post : list string) (h h' : heap) (P : Partition) (ins : list instr) (t : tree) :
  val h c t ->
  (forall a, In a (tree_steps t) -> ~ In a pre) \/
  (forall a, In a (tree_steps t) -> ~ In a post) ->
  partition_component f c pred pre post h = Ok ((P, ins), h') ->
  ins = [] /\
  ((forall a, In a (tree_steps t) -> ~ In a pre) -> prerequisite_component P = None) /\
  ((forall a, In a (tree_steps t) -> ~ In a post) -> postrequisite_component P = None).
Proof.
  intros Hv Hn H. split; [|split].
  - destruct Hn as [Hn|Hn];
      [exact (proj2 (part_nopre f c pred pre post h P ins h' t Hv Hn H))
      |exact (proj2 (part_nopost f c pred pre post h P ins h' t Hv Hn H))].
  - intros Hn'. exact (proj1 (part_nopre f c pred pre post h P ins h' t Hv Hn' H)).
  - intros Hn'. exact (proj1 (part_nopost f c pred pre post h P ins h' t Hv Hn' H)).
Qed.

Lemma py_min_from_In (cur : string) (xs : list string) : In (py_min_from cur xs) (cur :: xs).
Proof.
  revert cur. induction xs as [|x r IH]; intros cur; cbn [py_min_from]; [left; reflexivity|].
  destruct (String.ltb x cur).
  - destruct (IH x) as [E|Hin]; [right; left; exact E|right; right; exact Hin].
  - destruct (IH cur) as [E|Hin]; [left; exact E|right; right; exact Hin].
Qed.

Lemma py_min_In (xs : list string) (e : string) : py_min xs = Ok e -> In e xs.
Proof.
  destruct xs as [|x r]; cbn [py_min]; [discriminate|]. intros H. injection H as <-.
  apply py_min_from_In.
Qed.

Lemma list_or_In {A} (a b c : list A) (x : A) :
  In x (list_or a b c) -> In x a \/ In x b \/ In x c.
Proof. unfold list_or. destruct a as [|? ?]; [destruct b as [|? ?]|]; intros H; tauto. Qed.

Lemma tops_In (sel : Partition -> option comp) (ps : list Partition) (e : string) :
  In e (map top_ranked_endpoint (List.filter (fun p => is_not_none (sel p)) ps)) ->
  In e (map top_ranked_endpoint ps).
Proof.
  intros H. apply in_map_iff in H as [p [<- Hp]]. apply filter_In in Hp as [Hp _].
  apply in_map. exact Hp.
Qed.

Lemma F2_tops (ps : list Partition) (ts : list tree) (e : string) :
  Forall2 (fun p t => In (top_ranked_endpoint p) (tree_steps t)) ps ts ->
  In e (map top_ranked_endpoint ps) -> In e (flat_steps ts).
Proof.
  induction 1 as [|p t ps ts Hp _ IH]; intros Hin; [destruct Hin|].
  rewrite flat_steps_cons. apply in_app_iff.
  destruct Hin as [<-|Hin]; [left; exact Hp|right; exact (IH Hin)].
Qed.

Lemma F2_map_fst {B C} (Q : Partition -> C -> Prop) (xs : list (Partition * B)) (ys : list C) :
  Forall2 (fun q y => Q (fst q) y) xs ys -> Forall2 Q (map fst xs) ys.
Proof. induction 1; constructor; assumption. Qed.

Lemma op_top (p n m : Partition) (h h' : heap) :
  _op_series_merge_partitions p n h = Ok (m, h') ->
  top_ranked_endpoint m = top_ranked_endpoint n.
Proof.
  intros H. unfold _op_series_merge_partitions in H.
  destruct (prerequisite_component n); cbv beta zeta iota in H.
  - apply bind_ok in H as [a [h1 [_ H]]]. apply ret_ok in H as [<- _]. reflexivity.
  - destruct (_ && _); cbv beta iota in H.
    + apply bind_ok in H as [a [h1 [_ H]]]. apply bind_ok in H as [b [h2 [_ H]]].
      apply ret_ok in H as [<- _]. reflexivity.
    + apply bind_ok in H as [x [h1 [_ H]]]. apply bind_ok in H as [y [h2 [_ H]]].
      apply bind_ok in H as [z [h3 [_ H]]]. apply ret_ok in H as [<- _]. reflexivity.
Qed.

Lemma reduce_top (ps : list Partition) : forall acc r h h',
  reduceM _op_series_merge_partitions acc ps h = Ok (r, h') ->
  In (top_ranked_endpoint r) (map top_ranked_endpoint (acc :: ps)).
Proof.
  induction ps as [|p ps IH]; intros acc r h h' H; cbn [reduceM] in H.
  - apply ret_ok in H as [<- _]. left. reflexivity.
  - apply bind_ok in H as [acc' [h1 [H1 H]]]. pose proof (op_top _ _ _ _ _ H1) as T.
    destruct (IH acc' r h1 h' H) as [E|Hin]; right.
    + left. rewrite <- T. exact E.
    + right. exact Hin.
Qed.

Lemma pmp_top (f : nat) (ps : list Partition) (pred : option string) (h h' : heap)
  (P : Partition) (ins : list instr) :
  _parallel_merge_partitions f ps pred h = Ok ((P, ins), h') ->
  In (top_ranked_endpoint P) (map top_ranked_endpoint ps).
Proof.
  intros H. unfold _parallel_merge_partitions in H. cbv beta zeta in H.
  apply bind_ok in H as [a [h1 [_ H]]].
  apply bind_ok in H as [b [h2 [_ H]]].
  apply bind_ok in H as [c [h3 [_ H]]].
  apply bind_ok in H as [top [h4 [H4 H]]]. apply lift_ok in H4 as [H4 _].
  apply bind_ok in H as [i1 [h5 [_ H]]].
  apply bind_ok in H as [i2 [h6 [_ H]]].
  apply bind_ok in H as [i3 [h7 [_ H]]].
  apply ret_ok in H as [Heq _]. injection Heq as <- _. cbn [top_ranked_endpoint].
  apply py_min_In in H4.
  apply list_or_In in H4 as [Hin|[Hin|Hin]]; eapply tops_In; exact Hin.
Qed.

Lemma partition_top_gen (f : nat) : forall c pred pre post h P ins h' t,
  val h c t -> partition_component f c pred pre post h = Ok ((P, ins), h') ->
  In (top_ranked_endpoint P) (tree_steps t).
Proof.
  induction f as [|f IH]; intros c pred pre post h P ins h' t Hv H.
  all: destruct c as [x|l|ms]; try discriminate H.
  1, 2: rewrite (val_str_inv _ _ _ Hv); cbn [partition_component] in H;
    destruct (mem x pre); [|destruct (mem x post)]; apply ret_ok in H as [Heq _];
    injection Heq as <- _; left; reflexivity.
  - destruct (val_ser_inv h l t Hv) as [items [ts [Hl [HF ->]]]].
    rewrite tree_steps_ser. cbn [partition_component] in H.
    apply bind_ok in H as [its [h1 [H1 H]]]. unfold read in H1. rewrite Hl in H1.
    injection H1 as <- <-.
    apply bind_ok in H as [[ps i] [h2 [H2 H]]]. cbv beta iota in H.
    destruct (gsp_gen _ val (fun p t => In (top_ranked_endpoint p) (tree_steps t))
                (fun _ => True) val_extend I (fun _ _ _ _ => I)
                (fun x t pred0 h0 p0 i0 h3 Hx Hp =>
                   conj (partition_extends f x pred0 pre post h0 h3 p0 i0 t Hx Hp)
                        (conj (IH x pred0 pre post h0 p0 i0 h3 t Hx Hp) I))
                items ts pred h ps i h2 HF H2) as (_ & Q & _).
    destruct ps as [|p0 [|p1 rest]].
    + discriminate H.
    + apply bind_ok in H as [a [h3 [_ H]]]. apply bind_ok in H as [b [h4 [_ H]]].
      apply bind_ok in H as [d [h5 [_ H]]].
      apply ret_ok in H as [Heq _]. injection Heq as <- _. cbn [top_ranked_endpoint].
      apply (F2_tops _ _ _ Q). left. reflexivity.
    + apply bind_ok in H as [m [h3 [H3 H]]]. apply ret_ok in H as [Heq _].
      injection Heq as <- _. exact (F2_tops _ _ _ Q (reduce_top _ _ _ _ _ H3)).
  - destruct (val_par_inv h ms t Hv) as [ts [HF ->]]. rewrite tree_steps_par.
    cbn [partition_component] in H.
    apply bind_ok in H as [tuples [h1 [H1 H]]].
    destruct (mapM_gen (fun m => partition_component f m pred pre post) val
                (fun q t => In (top_ranked_endpoint (fst q)) (tree_steps t)) val_extend
                (fun x t h0 y h3 Hx Hy =>
                   match y as y0 return partition_component f x pred pre post h0 = Ok (y0, h3) ->
                     extends h0 h3 /\ In (top_ranked_endpoint (fst y0)) (tree_steps t) with
                   | (q, i) => fun Hq =>
                       conj (partition_extends f x pred pre post h0 h3 q i t Hx Hq)
                            (IH x pred pre post h0 q i h3 t Hx Hq)
                   end Hy)
                ms ts h tuples h1 HF H1) as [_ Q].
    pose proof (F2_map_fst (fun p t => In (top_ranked_endpoint p) (tree_steps t)) _ _ Q) as Q'.
    cbv beta zeta in H.
    destruct (_ && _).
    + exact (F2_tops _ _ _ Q' (pmp_top _ _ _ _ _ _ _ H)).
    + apply bind_ok in H as [top [h2 [H2 H]]]. apply lift_ok in H2 as [H2 _].
      apply py_min_In in H2.
      destruct (existsb _ (map fst tuples)); [|destruct (existsb _ (map fst tuples))];
        apply ret_ok in H as [Heq _]; injection Heq as <- _; exact (F2_tops _ _ _ Q' H2).
Qed.

(** X8: the top-ranked endpoint of the partition [partition_component]
    returns is a step of the component. *)
Theorem partition_top_endpoint_step (f : nat) (c : comp) (pred : option string)
  (pre post : list string) (h h' : heap) (P : Partition) (ins : list instr) (t : tree) :
  val h c t -> partition_component f c pred pre post h = Ok ((P, ins), h') ->
  In (top_ranked_endpoint P) (tree_steps t).
Proof. exact (partition_top_gen f c pred pre post h P ins h' t). Qed.

(** ** [_insert_step] on copies of [Parallel]s *)

Lemma py_getitem_In {A} (xs : list A) (i : Z) (x : A) : py_getitem xs i = Ok x -> In x xs.
Proof.
  unfold py_getitem. destruct (_ <? 0)%Z; [discriminate|].
  destruct (xs !! _) as [y|] eqn:E; [|discriminate]. intros H. injection H as <-.
  exact (proj1 (list_elem_of_In _ _) (list_elem_of_lookup_2 _ _ _ E)).
Qed.

Lemma union_same_heap (f : nat) (cs : list (option comp)) (h h' : heap) (r : option comp) :
  _union f cs h = Ok (r, h') -> h' = h.
Proof.
  unfold _union. destruct (List.concat _) as [|y ys]; intros H.
  - apply ret_ok in H as [_ <-]. reflexivity.
  - apply bind_ok in H as [u [h1 [H1 H]]]. apply ret_ok in H as [_ <-].
    unfold parallel in H1. apply lift_ok in H1 as [_ ->]. reflexivity.
Qed.

Lemma write_frame (c : loc) (items : list comp) (h h' : heap) (u : unit) :
  write c items h = Ok (u, h') -> forall l', l' <> c -> h' !! l' = h !! l'.
Proof.
  unfold write. destruct (h !! c); [|discriminate]. intros H. injection H as _ <-.
  intros l' Hl'. apply heap_lookup_insert_ne. congruence.
Qed.

Lemma setitem_frame (c : loc) (i : Z) (x : comp) (h h' : heap) (u : unit) :
  setitem c i x h = Ok (u, h') -> forall l', l' <> c -> h' !! l' = h !! l'.
Proof.
  unfold setitem. intros H. apply bind_ok in H as [root [h1 [H1 H]]].
  unfold read in H1. destruct (h !! c); [|discriminate]. injection H1 as _ <-.
  apply bind_ok in H as [root' [h2 [H2 H]]]. apply lift_ok in H2 as [_ ->].
  exact (write_frame c root' h h' u H).
Qed.

Lemma enumerate_from_Forall {A} (P : A -> Prop) (xs : list A) :
  Forall P xs -> forall k, Forall (fun p => P (snd p)) (zip (seq k (length xs)) xs).
Proof.
  induction 1 as [|x xs Hx _ IH]; intros k; [constructor|].
  cbn. constructor; [exact Hx|apply IH].
Qed.

(** On a [Series] of plain steps, [_insert_before_postrequisites] writes
    that [Series] only. *)
Lemma ibp_strs_frame (f : nat) (c : loc) (idx : Z) (pred : option string) (step : string)
  (post : list string) (h h' : heap) (ins : list instr) (ms : list comp) :
  h !! c = Some ms -> Forall (fun m => exists x, m = CStr x) ms ->
  _insert_before_postrequisites f c idx pred step post h = Ok (ins, h') ->
  forall l', l' <> c -> h' !! l' = h !! l'.
Proof.
  destruct f as [|f]; intros Hc HF H l' Hl'; [discriminate H|].
  cbn [_insert_before_postrequisites] in H.
  apply bind_ok in H as [root [h1 [H1 H]]]. unfold read in H1. rewrite Hc in H1.
  injection H1 as <- <-.
  apply bind_ok in H as [succ [h2 [H2 H]]]. apply lift_ok in H2 as [H2 ->].
  apply py_getitem_In in H2. rewrite List.Forall_forall in HF.
  destruct (HF _ H2) as [x ->]. cbv beta iota in H.
  apply bind_ok in H as [has [h3 [H3 H]]]. apply lift_ok in H3 as [_ ->].
  destruct has; cbv beta iota in H.
  - apply bind_ok in H as [root' [h4 [H4 H]]]. unfold read in H4. rewrite Hc in H4.
    injection H4 as <- <-.
    apply bind_ok in H as [u [h5 [H5 H]]]. apply ret_ok in H as [_ <-].
    exact (write_frame c _ h h5 u H5 l' Hl').
  - apply bind_ok in H as [un [h4 [H4 H]]]. apply union_same_heap in H4 as ->.
    destruct un as [u|]; [|discriminate H].
    apply bind_ok in H as [v [h5 [H5 H]]]. apply ret_ok in H as [_ <-].
    exact (setitem_frame c _ u h h5 v H5 l' Hl').
Qed.

(** On a [Series] of plain steps, [_insert_step] writes that [Series] only. *)
Lemma insert_step_strs_frame (f : nat) (c : loc) (step : string) (pre post : list string)
  (h h' : heap) (ins : list instr) (ms : list comp) :
  h !! c = Some ms -> Forall (fun m => exists x, m = CStr x) ms ->
  _insert_step f c step pre post h = Ok (ins, h') ->
  forall l', l' <> c -> h' !! l' = h !! l'.
Proof.
  destruct f as [|f]; intros Hc HF H l' Hl'; [discriminate H|].
  cbn [_insert_step] in H. apply bind_ok in H as [root [h1 [H1 H]]].
  unfold read in H1. rewrite Hc in H1. injection H1 as <- <-. cbv beta in H.
  pose proof (List.Forall_rev (enumerate_from_Forall _ ms HF 0)) as HR.
  unfold enumerate in H.
  revert HR ins h' H. generalize (rev (zip (seq 0 (length ms)) ms)) as xs. intros xs HR.
  induction HR as [|[idx sub] r [x Hx] _ IHr]; intros ins h' H.
  - apply ret_ok in H as [_ <-]. reflexivity.
  - cbn [snd] in Hx. subst sub. cbv beta iota fix in H.
    destruct (mem x pre); cbv beta iota in H; [|exact (IHr ins h' H)].
    apply bind_ok in H as [cur [h2 [H2 H]]]. unfold read in H2. rewrite Hc in H2.
    injection H2 as <- <-.
    destruct (Nat.ltb _ _); cbv beta iota in H.
    + exact (ibp_strs_frame f c _ _ step post h h' ins ms Hc HF H l' Hl').
    + apply bind_ok in H as [u [h2 [H2 H]]]. apply ret_ok in H as [_ <-].
      exact (write_frame c _ h h2 u H2 l' Hl').
Qed.

(** X9: [_insert_step] on a [Series] whose items are all [Parallel]s of
    plain steps changes no object of the store: each [Parallel] is copied
    into a new [Series] and any insertion happens in that copy. *)
Theorem insert_step_parallel_copy (f : nat) (l : loc) (step : string) (pre post : list string)
  (h h' : heap) (items : list comp) (ins : list instr) :
  h !! l = Some items ->
  Forall (fun c => exists ms, c = CPar ms /\ Forall (fun m => exists x, m = CStr x) ms) items ->
  _insert_step f l step pre post h = Ok (ins, h') ->
  forall l' : loc, l' < List.length h -> h' !! l' = h !! l'.
Proof.
  destruct f as [|f]; intros Hl HF H; [discriminate H|].
  cbn [_insert_step] in H. apply bind_ok in H as [root [h1 [H1 H]]].
  unfold read in H1. rewrite Hl in H1. injection H1 as <- <-. cbv beta in H.
  pose proof (List.Forall_rev (enumerate_from_Forall _ items HF 0)) as HR.
  remember h as h0 eqn:Eh in H.
  assert (Inv : forall l' : loc, l' < List.length h -> h0 !! l' = h !! l') by (subst; reflexivity).
  clear Eh. unfold enumerate in H. revert ins h' H Inv. revert h0. revert HR.
  generalize (rev (zip (seq 0 (length items)) items)) as xs. intros xs HR.
  induction HR as [|[idx sub] r [ms [Hx Hms]] _ IHr]; intros h0 ins h' H Inv.
  - apply ret_ok in H as [_ <-]. exact Inv.
  - cbn [snd] in Hx. subst sub. cbv beta iota fix in H.
    apply bind_ok in H as [c [h2 [H2 H]]]. unfold alloc in H2. injection H2 as <- <-.
    apply bind_ok in H as [added [h3 [H3 H]]].
    assert (Inv3 : forall l' : loc, l' < List.length h -> h3 !! l' = h !! l').
    { intros l' Hl'.
      assert (Hlt : l' < List.length h0).
      { destruct (lookup_lt_is_Some_2 h l' Hl') as [v Hv].
        exact (lookup_lt_Some h0 l' v (eq_trans (Inv l' Hl') Hv)). }
      transitivity ((h0 ++ [ms])%list !! l').
      - apply (insert_step_strs_frame f _ step pre post _ h3 added ms
                 (heap_lookup_alloc h0 ms) Hms H3 l'). lia.
      - transitivity (h0 !! l'); [exact (heap_lookup_app_l h0 [ms] l' Hlt)|exact (Inv l' Hl')]. }
    destruct added as [|a rest]; cbv beta iota in H.
    + exact (IHr h3 ins h' H Inv3).
    + apply ret_ok in H as [_ <-]. exact Inv3.
Qed.

(** ** [_insert_before_postrequisites] *)

(** X10: [_insert_before_postrequisites] returns exactly one instruction,
    placing [step] after [predecessor], in parallel or as a successor, also
    when it descends into a nested [Series] or a singleton [Parallel]. *)
Theorem insert_before_postrequisites_single (f : nat) (c : loc) (idx : Z)
  (pred : option string) (step : string) (post : list string)
  (h h' : heap) (ins : list instr) :
  _insert_before_postrequisites f c idx pred step post h = Ok (ins, h') ->
  ins = [InsertParallel pred step] \/ ins = [InsertSuccessor pred step].
Proof. exact (ibp_shape f c idx pred step post h ins h'). Qed.

End Extras.

(** * Witnesses *)

Lemma get_endpoint_parallel_least_witness :
  Forall2 (fun m e => get_endpoint 1 [] m = Ok e) [CStr "B"; CStr "A"] ["B"; "A"] /\
  [CStr "B"; CStr "A"] <> [] /\
  exists e, get_endpoint 2 [] (CPar [CStr "B"; CStr "A"]) = Ok e /\ In e ["B"; "A"] /\
    Forall (fun e' => String.leb e e' = true) ["B"; "A"] /\
    (forall ms', Permutation [CStr "B"; CStr "A"] ms' -> get_endpoint 2 [] (CPar ms') = Ok e).
Proof.
  assert (H1 : Forall2 (fun m e => get_endpoint 1 [] m = Ok e)
                 [CStr "B"; CStr "A"] ["B"; "A"]).
  { repeat constructor. }
  assert (H2 : [CStr "B"; CStr "A"] <> []) by discriminate.
  split; [exact H1|split; [exact H2|]].
  exact (proj1 get_endpoint_parallel_least 1 [] _ _ H1 H2).
Defined.

Lemma get_endpoint_error_iff_no_steps_witness :
  deref 2 [[CStr "A"; CPar []]] (CSer 0) = Some (TSer [TStr "A"; TPar []]) /\
  (get_endpoint 2 [[CStr "A"; CPar []]] (CSer 0) = Err ValueError <->
     tree_steps (TSer [TStr "A"; TPar []]) = []) /\
  (tree_steps (TSer [TStr "A"; TPar []]) <> [] ->
     exists e, get_endpoint 2 [[CStr "A"; CPar []]] (CSer 0) = Ok e /\
       In e (tree_steps (TSer [TStr "A"; TPar []]))).
Proof.
  assert (Hd : deref 2 [[CStr "A"; CPar []]] (CSer 0) = Some (TSer [TStr "A"; TPar []]))
    by reflexivity.
  split; [exact Hd|].
  exact (proj2 get_endpoint_error_iff_no_steps 2 _ _ _ Hd).
Defined.

Lemma series_merge_partitions_spec_witness :
  _op_series_merge_partitions
    {| prerequisite_component := Some (CStr "A"); nondependent_component := None;
       postrequisite_component := Some (CStr "B"); top_ranked_endpoint := "B" |}
    {| prerequisite_component := Some (CStr "C"); nondependent_component := Some (CStr "D");
       postrequisite_component := None; top_ranked_endpoint := "D" |} []
  = Ok ({| prerequisite_component := Some (CSer 0); nondependent_component := Some (CStr "D");
           postrequisite_component := None; top_ranked_endpoint := "D" |},
        [[CStr "A"; CStr "B"; CStr "C"]]) /\
  "D" = "D" /\
  (is_not_none (Some (CStr "C")) = true ->
   Some (CStr "D") = Some (CStr "D") /\ @None comp = None /\
   exists parts,
     mapo (zone_items []) [Some (CStr "A"); None; Some (CStr "B"); Some (CStr "C")] = Some parts /\
     ((List.concat parts = [] /\ Some (CSer 0) = None) \/
      (Some (CSer 0) = Some (CSer (List.length (@nil (list comp)))) /\
       [[CStr "A"; CStr "B"; CStr "C"]] =
         ([] ++ [List.filter (fun c => negb (is_empty_input [] c)) (List.concat parts)])%list))).
Proof.
  assert (H : _op_series_merge_partitions
    {| prerequisite_component := Some (CStr "A"); nondependent_component := None;
       postrequisite_component := Some (CStr "B"); top_ranked_endpoint := "B" |}
    {| prerequisite_component := Some (CStr "C"); nondependent_component := Some (CStr "D");
       postrequisite_component := None; top_ranked_endpoint := "D" |} []
  = Ok ({| prerequisite_component := Some (CSer 0); nondependent_component := Some (CStr "D");
           postrequisite_component := None; top_ranked_endpoint := "D" |},
        [[CStr "A"; CStr "B"; CStr "C"]])) by (vm_compute; reflexivity).
  split; [exact H|].
  exact (series_merge_partitions_spec _ _ _ _ _ H).
Defined.

Lemma add_places_new_step_once_witness :
  deref 2 [[CPar [CStr "A"; CStr "B"]]] (CSer 0) = Some (TSer [TPar [TStr "A"; TStr "B"]]) /\
  ~ In "C" (tree_steps (TSer [TPar [TStr "A"; TStr "B"]])) /\
  exists r h', add default_fuel 0 "C" ["A"] ["B"] [[CPar [CStr "A"; CStr "B"]]] = Ok (r, h') /\
    List.length (instructions r) = 3 /\ count_step "C" (instructions r) = 1.
Proof.
  assert (Hd : deref 2 [[CPar [CStr "A"; CStr "B"]]] (CSer 0)
               = Some (TSer [TPar [TStr "A"; TStr "B"]])) by reflexivity.
  assert (Hn : ~ In "C" (tree_steps (TSer [TPar [TStr "A"; TStr "B"]]))).
  { simpl. intros [H|[H|[]]]; discriminate H. }
  split; [exact Hd|split; [exact Hn|]].
  destruct (add default_fuel 0 "C" ["A"] ["B"] [[CPar [CStr "A"; CStr "B"]]])
    as [[r h']|e] eqn:E.
  - exists r, h'. split; [reflexivity|]. split.
    + vm_compute in E. injection E as <- _. reflexivity.
    + exact (add_places_new_step_once 2 default_fuel _ 0 _ "C" ["A"] ["B"] r h' Hd Hn E).
  - vm_compute in E. discriminate E.
Defined.

Lemma add_no_constraints_keeps_order_witness :
  deref 2 [[CStr "A"; CStr "B"]] (CSer 0) = Some (TSer [TStr "A"; TStr "B"]) /\
  exists r h', add default_fuel 0 "C" [] [] [[CStr "A"; CStr "B"]] = Ok (r, h') /\
    instructions r = [InsertParallel None "C"] /\
    exists t1, val h' (solution r) t1 /\
      (forall a, a <> "C" -> In a (tree_steps t1) <-> In a (tree_steps (TSer [TStr "A"; TStr "B"]))) /\
      (forall a b, a <> "C" -> b <> "C" ->
         In (a, b) (tree_pairs t1) <-> In (a, b) (tree_pairs (TSer [TStr "A"; TStr "B"]))).
Proof.
  assert (Hd : deref 2 [[CStr "A"; CStr "B"]] (CSer 0) = Some (TSer [TStr "A"; TStr "B"]))
    by reflexivity.
  split; [exact Hd|].
  destruct (add default_fuel 0 "C" [] [] [[CStr "A"; CStr "B"]]) as [[r h']|e] eqn:E.
  - exists r, h'. split; [reflexivity|].
    exact (add_no_constraints_keeps_order 2 default_fuel _ 0 _ "C" r h' Hd E).
  - vm_compute in E. discriminate E.
Defined.

Lemma has_any_steps_spec_witness :
  _has_any_steps 4 [[CStr "A"; CPar [CStr "B"; CStr "C"]]] (CSer 0) ["C"] = Ok true /\
  (true = true <->
   exists a, In a (tree_steps (TSer [TStr "A"; TPar [TStr "B"; TStr "C"]])) /\ In a ["C"]).
Proof.
  assert (Hv : val [[CStr "A"; CPar [CStr "B"; CStr "C"]]] (CSer 0)
                 (TSer [TStr "A"; TPar [TStr "B"; TStr "C"]])) by (exists 3; reflexivity).
  assert (E : _has_any_steps 4 [[CStr "A"; CPar [CStr "B"; CStr "C"]]] (CSer 0) ["C"] = Ok true)
    by (vm_compute; reflexivity).
  split; [exact E|].
  exact (has_any_steps_spec 4 _ _ _ _ _ Hv E).
Defined.

Lemma get_instructions_insert_successor_chain_witness :
  _get_instructions_insert_successor 4 [[CStr "A"; CStr "B"]] (CSer 0) None =
    Ok ([InsertSuccessor None "A"; InsertSuccessor (Some "A") "B"], Some "B") /\
  [InsertSuccessor None "A"; InsertSuccessor (Some "A") "B"] =
    successor_chain None (serial_steps (TSer [TStr "A"; TStr "B"])) /\
  Some "B" = last_or None (serial_steps (TSer [TStr "A"; TStr "B"])).
Proof.
  assert (Hv : val [[CStr "A"; CStr "B"]] (CSer 0) (TSer [TStr "A"; TStr "B"]))
    by (exists 3; reflexivity).
  assert (E : _get_instructions_insert_successor 4 [[CStr "A"; CStr "B"]] (CSer 0) None =
    Ok ([InsertSuccessor None "A"; InsertSuccessor (Some "A") "B"], Some "B"))
    by (vm_compute; reflexivity).
  split; [exact E|].
  exact (get_instructions_insert_successor_chain 4 _ _ _ _ _ _ Hv E).
Defined.

Lemma get_endpoint_serial_last_witness :
  par_free (TSer [TStr "A"; TSer [TStr "B"]]) = true /\
  get_endpoint 4 [[CStr "A"; CSer 1]; [CStr "B"]] (CSer 0) = Ok "B" /\
  last_or None (tree_steps (TSer [TStr "A"; TSer [TStr "B"]])) = Some "B".
Proof.
  assert (Hv : val [[CStr "A"; CSer 1]; [CStr "B"]] (CSer 0) (TSer [TStr "A"; TSer [TStr "B"]]))
    by (exists 3; reflexivity).
  assert (Hp : par_free (TSer [TStr "A"; TSer [TStr "B"]]) = true) by reflexivity.
  assert (E : get_endpoint 4 [[CStr "A"; CSer 1]; [CStr "B"]] (CSer 0) = Ok "B")
    by (vm_compute; reflexivity).
  split; [exact Hp|split; [exact E|]].
  exact (get_endpoint_serial_last 4 _ _ _ _ Hv Hp E).
Defined.

Lemma concat_keeps_steps_witness :
  exists r h', _concat (map Some [CStr "A"; CSer 0]) [[CStr "B"; CStr "C"]] = Ok (r, h') /\
  extends [[CStr "B"; CStr "C"]] h' /\
  match r with
  | None => flat_steps [TStr "A"; TSer [TStr "B"; TStr "C"]] = []
  | Some l => l = List.length [[CStr "B"; CStr "C"]] /\
      exists t, val h' (CSer l) t /\
      tree_steps t = flat_steps [TStr "A"; TSer [TStr "B"; TStr "C"]] /\
      (forall a b, In (a, b) (tree_pairs t) <->
                   In (a, b) (tree_pairs (TSer [TStr "A"; TSer [TStr "B"; TStr "C"]])))
  end.
Proof.
  assert (Hv : Forall2 (val [[CStr "B"; CStr "C"]]) [CStr "A"; CSer 0]
                 [TStr "A"; TSer [TStr "B"; TStr "C"]]).
  { constructor; [apply val_str|constructor; [exists 3; reflexivity|constructor]]. }
  destruct (_concat (map Some [CStr "A"; CSer 0]) [[CStr "B"; CStr "C"]])
    as [[r h']|e] eqn:E.
  - exists r, h'. split; [reflexivity|].
    exact (concat_keeps_steps _ _ _ _ _ Hv E).
  - vm_compute in E. discriminate E.
Defined.

Lemma union_keeps_steps_witness :
  exists r h', _union 4 (map Some [CStr "A"; CPar [CStr "B"; CStr "A"]]) [] = Ok (r, h') /\
  h' = [] /\
  match r with
  | None => flat_steps [TStr "A"; TPar [TStr "B"; TStr "A"]] = []
  | Some u => exists ms tu, u = CPar ms /\ val [] u tu /\
      (forall a, In a (tree_steps tu) <-> In a (flat_steps [TStr "A"; TPar [TStr "B"; TStr "A"]])) /\
      (forall a b, In (a, b) (tree_pairs tu) <->
                   In (a, b) (tree_pairs (TPar [TStr "A"; TPar [TStr "B"; TStr "A"]])))
  end.
Proof.
  assert (Hv : Forall2 (val []) [CStr "A"; CPar [CStr "B"; CStr "A"]]
                 [TStr "A"; TPar [TStr "B"; TStr "A"]]).
  { constructor; [apply val_str|constructor; [exists 3; reflexivity|constructor]]. }
  destruct (_union 4 (map Some [CStr "A"; CPar [CStr "B"; CStr "A"]]) []) as [[r h']|e] eqn:E.
  - exists r, h'. split; [reflexivity|].
    exact (union_keeps_steps _ _ _ _ _ _ Hv E).
  - vm_compute in E. discriminate E.
Defined.

Lemma insert_step_anchor_witness :
  exists ins h', _insert_step 4 0 "C" ["A"] [] [[CStr "A"; CStr "B"]] = Ok (ins, h') /\
  ((ins = [] /\ extends [[CStr "A"; CStr "B"]] h' /\
    forall a, In a (tree_steps (TSer [TStr "A"; TStr "B"])) -> ~ In a ["A"]) \/
   (exists i p, ins = [i] /\ instr_step i = "C" /\ instr_after i = Some p /\
      In p ["A"] /\ In p (tree_steps (TSer [TStr "A"; TStr "B"])))).
Proof.
  assert (Hv : val [[CStr "A"; CStr "B"]] (CSer 0) (TSer [TStr "A"; TStr "B"]))
    by (exists 3; reflexivity).
  destruct (_insert_step 4 0 "C" ["A"] [] [[CStr "A"; CStr "B"]]) as [[ins h']|e] eqn:E.
  - exists ins, h'. split; [reflexivity|].
    exact (insert_step_anchor 4 0 "C" ["A"] [] _ _ _ _ Hv E).
  - vm_compute in E. discriminate E.
Defined.

Lemma partition_no_instructions_witness :
  exists P ins h',
    partition_component 8 (CSer 0) None ["A"] [] [[CStr "A"; CStr "B"]] = Ok ((P, ins), h') /\
    ins = [] /\
    ((forall a, In a (tree_steps (TSer [TStr "A"; TStr "B"])) -> ~ In a ["A"]) ->
       prerequisite_component P = None) /\
    ((forall a, In a (tree_steps (TSer [TStr "A"; TStr "B"])) -> ~ In a (@nil string)) ->
       postrequisite_component P = None).
Proof.
  assert (Hv : val [[CStr "A"; CStr "B"]] (CSer 0) (TSer [TStr "A"; TStr "B"]))
    by (exists 3; reflexivity).
  assert (Hn : (forall a, In a (tree_steps (TSer [TStr "A"; TStr "B"])) -> ~ In a ["A"]) \/
               (forall a, In a (tree_steps (TSer [TStr "A"; TStr "B"])) -> ~ In a (@nil string))).
  { right. intros a _ []. }
  destruct (partition_component 8 (CSer 0) None ["A"] [] [[CStr "A"; CStr "B"]])
    as [[[P ins] h']|e] eqn:E.
  - exists P, ins, h'. split; [reflexivity|].
    exact (partition_no_instructions 8 _ _ _ _ _ _ _ _ _ Hv Hn E).
  - vm_compute in E. discriminate E.
Defined.

Lemma partition_top_endpoint_step_witness :
  exists P ins h',
    partition_component 8 (CSer 0) None ["A"] ["B"] [[CStr "A"; CStr "B"]] = Ok ((P, ins), h') /\
    In (top_ranked_endpoint P) (tree_steps (TSer [TStr "A"; TStr "B"])).
Proof.
  assert (Hv : val [[CStr "A"; CStr "B"]] (CSer 0) (TSer [TStr "A"; TStr "B"]))
    by (exists 3; reflexivity).
  destruct (partition_component 8 (CSer 0) None ["A"] ["B"] [[CStr "A"; CStr "B"]])
    as [[[P ins] h']|e] eqn:E.
  - exists P, ins, h'. split; [reflexivity|].
    exact (partition_top_endpoint_step 8 _ _ _ _ _ _ _ _ _ Hv E).
  - vm_compute in E. discriminate E.
Defined.

Lemma insert_step_parallel_copy_witness :
  exists ins h',
    _insert_step 4 0 "C" ["A"] [] [[CPar [CStr "A"; CStr "B"]]] = Ok (ins, h') /\
    ins = [InsertParallel (Some "A") "C"] /\
    forall l' : loc, l' < List.length [[CPar [CStr "A"; CStr "B"]]] ->
      h' !! l' = [[CPar [CStr "A"; CStr "B"]]] !! l'.
Proof.
  assert (Hl : [[CPar [CStr "A"; CStr "B"]]] !! 0 = Some [CPar [CStr "A"; CStr "B"]])
    by reflexivity.
  assert (HF : Forall (fun c => exists ms, c = CPar ms /\
                          Forall (fun m => exists x, m = CStr x) ms)
                 [CPar [CStr "A"; CStr "B"]]).
  { constructor; [|constructor]. exists [CStr "A"; CStr "B"]. split; [reflexivity|].
    constructor; [exists "A"; reflexivity|constructor; [exists "B"; reflexivity|constructor]]. }
  destruct (_insert_step 4 0 "C" ["A"] [] [[CPar [CStr "A"; CStr "B"]]]) as [[ins h']|e] eqn:E.
  - exists ins, h'. split; [reflexivity|]. split.
    + vm_compute in E. injection E as <- _. reflexivity.
    + exact (insert_step_parallel_copy 4 0 "C" ["A"] [] _ _ _ _ Hl HF E).
  - vm_compute in E. discriminate E.
Defined.

Lemma insert_before_postrequisites_single_witness :
  exists ins h',
    _insert_before_postrequisites 4 0 0 (Some "A") "C" ["B"] [[CStr "A"; CStr "B"]] =
      Ok (ins, h') /\
    (ins = [InsertParallel (Some "A") "C"] \/ ins = [InsertSuccessor (Some "A") "C"]).
Proof.
  destruct (_insert_before_postrequisites 4 0 0 (Some "A") "C" ["B"] [[CStr "A"; CStr "B"]])
    as [[ins h']|e] eqn:E.
  - exists ins, h'. split; [reflexivity|].
    exact (insert_before_postrequisites_single 4 0 0 _ _ _ _ _ _ E).
  - vm_compute in E. discriminate E.
Defined.
